(** * PGalyzer: a shallow embedding of [pgalyzer.py]

    The development follows the class [PGalyzer]: the cleaning pipeline of
    [__init__], then [ngrams], [word_count], [concordance],
    [display_concordance], [likely_next] and [likely_previous], and the
    ranking performed by the [ngrams] command.

    Python values are modelled as follows.
    - [str] is a list of characters; a character is a code point below 256,
      carried by [ascii].  Whitespace and lower-casing are Python's on that
      range.
    - [int] is [Z]; list indices produced by [enumerate] and [range] are
      [nat]; slices take [Z] bounds with Python's clamping and its reading of
      negative bounds.
    - A [Counter] is an association list in first-insertion order, which is
      the order [most_common] starts from.
    - [defaultdict(list)] and the plain dict built from it are [gmap]s.
    - [sorted] is a stable sort; an insertion sort that compares keys with
      [<] only, as Python's sort does.
    - A raised exception is the left injection of a sum. *)

From Stdlib Require Import ZArith NArith Ascii String List Sorting.Sorted.
From stdpp Require Import base tactics option list gmap strings sorting.

From Stdlib Require Import DecimalString DecimalNat.

Local Open Scope Z_scope.

(** ** Characters and strings *)

Abbreviation str := (list ascii).

Definition lit (s : string) : str := list_ascii_of_string s.

Definition LF : ascii := "010"%char.
Definition SP : ascii := " "%char.

Definition ord (c : ascii) : N := N_of_ascii c.

(** [str.isspace] on one character: TAB..CR, FS..US, space, NEL and NBSP. *)
Definition isspace (c : ascii) : bool :=
  let n := ord c in
  ((9 <=? n) && (n <=? 13) || (28 <=? n) && (n <=? 32)
   || (n =? 133) || (n =? 160))%N.

(** [str.lower] on one character: A..Z and the accented capitals of the
    Latin-1 block (the multiplication sign at 215 is not a letter). *)
Definition lower_char (c : ascii) : ascii :=
  let n := ord c in
  if ((65 <=? n) && (n <=? 90)
      || (192 <=? n) && (n <=? 222) && negb (n =? 215))%N
  then ascii_of_N (n + 32) else c.

Definition lower (s : str) : str := lower_char <$> s.

(** [s.startswith(p)] *)
Fixpoint startswith (s p : str) : bool :=
  match p, s with
  | [], _ => true
  | _ :: _, [] => false
  | b :: p', a :: s' => if decide (a = b) then startswith s' p' else false
  end.

(** [s.split(c)] for a one-character separator [c]: every occurrence cuts,
    empty pieces are kept. *)
Fixpoint split_on (c : ascii) (s : str) : list str :=
  match s with
  | [] => [[]]
  | a :: s' =>
      if decide (a = c) then [] :: split_on c s'
      else match split_on c s' with
           | [] => [[a]]
           | piece :: pieces => (a :: piece) :: pieces
           end
  end.

(** [s.split('\n\n')]: scanning from the left, each pair of newlines cuts. *)
Fixpoint split_paragraphs (s : str) : list str :=
  match s with
  | [] => [[]]
  | a :: s' =>
      let keep :=
        match split_paragraphs s' with
        | [] => [[a]]
        | piece :: pieces => (a :: piece) :: pieces
        end in
      if decide (a = LF) then
        match s' with
        | b :: s'' => if decide (b = LF) then [] :: split_paragraphs s'' else keep
        | [] => keep
        end
      else keep
  end.

(** [s.split()]: maximal runs of non-whitespace characters. *)
Fixpoint split (s : str) : list str :=
  match s with
  | [] => []
  | a :: s' =>
      if isspace a then split s'
      else match s' with
           | [] => [[a]]
           | b :: _ =>
               if isspace b then [a] :: split s'
               else match split s' with
                    | [] => [[a]]
                    | w :: ws => (a :: w) :: ws
                    end
           end
  end.

(** [sep.join(parts)] *)
Fixpoint join (sep : str) (parts : list str) : str :=
  match parts with
  | [] => []
  | [p] => p
  | p :: ps => p ++ sep ++ join sep ps
  end.

(** Stripping: [lstrip_by p] drops the leading characters that satisfy [p];
    [s.strip()] is [strip_by isspace], [s.strip('\n')] is
    [strip_by (is_char LF)]. *)
Fixpoint lstrip_by (p : ascii → bool) (s : str) : str :=
  match s with
  | [] => []
  | a :: s' => if p a then lstrip_by p s' else s
  end.

Definition rstrip_by (p : ascii → bool) (s : str) : str :=
  rev (lstrip_by p (rev s)).

Definition strip_by (p : ascii → bool) (s : str) : str :=
  rstrip_by p (lstrip_by p s).

Definition is_char (c a : ascii) : bool := bool_decide (a = c).

Definition strip (s : str) : str := strip_by isspace s.

(** [s.replace(old, new)] for a one-character [old]. *)
Definition replace (old : ascii) (new : str) (s : str) : str :=
  flat_map (λ a, if decide (a = old) then new else [a]) s.

(** ** Integers, indices and slices *)

(** A slice bound [i] on a list of length [len]: negative bounds count from
    the end, and every bound is clamped to [0..len]. *)
Definition slice_bound (len : nat) (i : Z) : nat :=
  if i <? 0 then Z.to_nat (Z.max 0 (i + Z.of_nat len))
  else Nat.min (Z.to_nat i) len.

(** [l[lo:hi]] *)
Definition slice {A} (l : list A) (lo hi : Z) : list A :=
  let a := slice_bound (length l) lo in
  let b := slice_bound (length l) hi in
  take (b - a)%nat (drop a l).

(** [range(n)] *)
Definition range (n : Z) : list nat := seq 0 (Z.to_nat n).

(** [range(a, n)] *)
Definition range_from (a : nat) (n : Z) : list nat :=
  seq a (Z.to_nat n - a)%nat.

Definition len {A} (l : list A) : Z := Z.of_nat (length l).

(** ** Exceptions *)

Inductive exn : Type :=
  | KeyError (key : str)
  | IndexError
  | ValueError.

Definition result (A : Type) : Type := exn + A.

Definition ret {A} (a : A) : result A := inr a.
Definition raise {A} (e : exn) : result A := inl e.
Definition bind {A B} (m : result A) (k : A → result B) : result B :=
  match m with
  | inl e => inl e
  | inr a => k a
  end.

Notation "'let!' x ':=' m 'in' k" := (bind m (λ x, k))
  (at level 10, x pattern, m at level 100, k at level 200).

(** ** [PGalyzer.__init__] with [clean_pg=True] *)

Definition head : str := lit "*** start of this project gutenberg ebook".
Definition foot : str := lit "*** end of this project gutenberg ebook".
Definition punct : str :=
  lit "|;,.:?!" ++ ["034"%char] ++ lit "()[]{}/\-+".

(** The first loop: the first block that starts with [head] is deleted
    together with everything before it ([del file[:ix+1]]). *)
Definition remove_header (file : list str) : list str :=
  match list_find (λ text, Is_true (startswith text head)) file with
  | Some (ix, _) => drop (ix + 1) file
  | None => file
  end.

(** The second loop runs over [file[::-1]]; [del file[-(ix+1):]] deletes the
    last [ix+1] blocks. *)
Definition remove_footer (file : list str) : list str :=
  match list_find (λ text, Is_true (startswith text foot)) (rev file) with
  | Some (ix, _) => take (length file - (ix + 1)) file
  | None => file
  end.

(** [for p in punct: text = text.replace(p, '')] *)
Definition remove_punct (text : str) : str :=
  foldl (λ text p, replace p [] text) text punct.

(** The third loop replaces each block by a line: the block without the
    newlines at its ends, its inner newlines turned into spaces, and the
    characters of [punct] deleted. *)
Definition clean_line (text : str) : str :=
  remove_punct (replace LF [SP] (strip_by (is_char LF) text)).

(** The body of the third loop, for one block: [file[ix] = text + '\n']. *)
Definition clean_block (text : str) : str := clean_line text ++ [LF].

(** The blocks that are left once header and footer are removed. *)
Definition body_blocks (file : str) : list str :=
  remove_footer (remove_header (split_paragraphs (lower file))).

(** The list [file] after the filter and the third loop. *)
Definition clean_blocks (file : str) : list str :=
  clean_block <$> filter (λ text, [] ≠ text) (body_blocks file).

Definition clean (file : str) : str := strip (concat (clean_blocks file)).

(** The contents [file] when the input is a first line together with the
    rest of a stream:
    [text_file[0] + text_file[1].read().replace('\r', ' ')]. *)
Definition CR : ascii := "013"%char.

Definition stream_contents (first_line rest : str) : str :=
  first_line ++ replace CR [SP] rest.

(** The attribute [text] of the object built from the contents [file]. *)
Definition PGalyzer (file : str) (clean_pg : bool) : str :=
  if clean_pg then clean file else file.

(** ** [Counter], [most_common] and [sorted] *)

(** [Counter(l)]: the counts of the elements of [l], keys in the order of
    their first occurrence. *)
Fixpoint counter_add (k : str) (d : list (str * nat)) : list (str * nat) :=
  match d with
  | [] => [(k, 1%nat)]
  | (k', c) :: d' =>
      if decide (k = k') then (k', S c) :: d' else (k', c) :: counter_add k d'
  end.

Definition Counter (l : list str) : list (str * nat) :=
  foldl (λ d k, counter_add k d) [] l.

Section Sorted.
Context {A K : Type} (key : A → K) (lt : K → K → bool).

(** [x] goes in front of the first element whose key is not below its
    own, hence in front of the elements with an equal key. *)
Fixpoint insert_sorted (x : A) (l : list A) : list A :=
  match l with
  | [] => [x]
  | y :: l' => if lt (key y) (key x) then y :: insert_sorted x l' else x :: l
  end.

(** [sorted(l, key=key)]: stable, each element is inserted in front of
    the sorted rest of the list. *)
Definition sorted (l : list A) : list A := foldr insert_sorted [] l.
End Sorted.

(** [a < b] on [str]: lexicographic on code points. *)
Fixpoint str_lt (a b : str) : bool :=
  match a, b with
  | _, [] => false
  | [], _ :: _ => true
  | x :: a', y :: b' =>
      if (ord x <? ord y)%N then true
      else if (ord y <? ord x)%N then false
      else str_lt a' b'
  end.

(** [a < b] on tuples [(int, str)]. *)
Definition tuple_lt (a b : Z * str) : bool :=
  if a.1 <? b.1 then true
  else if b.1 <? a.1 then false
  else str_lt a.2 b.2.

(** [d.most_common()] is [sorted(d.items(), key=itemgetter(1), reverse=True)]. *)
Definition most_common (d : list (str * nat)) : list (str * nat) :=
  sorted snd (λ a b, (b <? a)%nat) d.

(** ** [PGalyzer.ngrams] and [PGalyzer.word_count] *)

(** The inner loop over [range(len(words_all))], with its [break]. *)
Fixpoint ngrams_loop (words_all : list str) (n : Z) (indices : list nat)
  : list str :=
  match indices with
  | [] => []
  | i :: indices' =>
      if Z.of_nat i + n >? len words_all then []
      else join [SP] (slice words_all (Z.of_nat i) (Z.of_nat i + n))
             :: ngrams_loop words_all n indices'
  end.

(** The list [ngrams] before it is counted. *)
Definition ngrams_list (text : str) (n : Z) : list str :=
  flat_map (λ p, let words_all := split p in
                 ngrams_loop words_all n (range (len words_all)))
           (split_on LF text).

Definition ngrams (text : str) (n : Z) : list (str * nat) :=
  Counter (ngrams_list text n).

Definition word_count (text : str) : list (str * nat) :=
  Counter (split text).

(** The ranking of the [ngrams] command:
    [sorted(ngrams.most_common(), key=lambda x: (-x[1], x[0].lower()))]. *)
Definition ngrams_key (x : str * nat) : Z * str :=
  (- Z.of_nat x.2, lower x.1).

Definition ngrams_ranked (text : str) (n : Z) : list (str * nat) :=
  sorted ngrams_key tuple_lt (most_common (ngrams text n)).

(** ** [PGalyzer.concordance] and [PGalyzer.display_concordance] *)

(** [[i for i, s in enumerate(items) if word == s]] *)
Definition indices_of (word : str) (items : list str) : list nat :=
  (filter (λ p, word = p.2) (imap (λ i s, (i, s)) items)).*1.

(** The two strings appended for the occurrence at index [i]. *)
Definition context_window (items : list str) (neighborhood_size : Z) (i : nat)
  : str * str :=
  let backward_index :=
    if Z.of_nat i - neighborhood_size <? 0 then 0
    else Z.of_nat i - neighborhood_size in
  let forward_index := Z.of_nat i + neighborhood_size + 1 in
  let string_before := join [SP] (slice items backward_index (Z.of_nat i)) in
  let string_after := join [SP] (slice items (Z.of_nat i + 1) forward_index) in
  (string_before, string_after).

Definition concordance (text word : str) (neighborhood_size : Z)
  : list (str * str) :=
  flat_map (λ line, let items := split line in
                    context_window items neighborhood_size
                      <$> indices_of word items)
           (split_on LF text).

(** The columns of a list of pairs, as [zip] applied to the unpacked rows
    gives them: no column for no row. *)
Definition zip_star {A} (rows : list (A * A)) : list (list A) :=
  match rows with
  | [] => []
  | _ :: _ => [rows.*1; rows.*2]
  end.

(** [l[i]] for [i >= 0] *)
Definition getitem {A} (l : list A) (i : nat) : result A :=
  match l !! i with
  | Some x => ret x
  | None => raise IndexError
  end.

(** [l[i] = x], where a negative [i] counts from the end. *)
Definition setitem {A} (l : list A) (i : Z) (x : A) : result (list A) :=
  let j := if i <? 0 then i + len l else i in
  if (0 <=? j) && (j <? len l) then ret (<[Z.to_nat j := x]> l)
  else raise IndexError.

(** [max(l)] *)
Definition max_of (l : list Z) : result Z :=
  match l with
  | [] => raise ValueError
  | x :: l' => ret (foldl Z.max x l')
  end.

(** [c * k] for a one-character string [c] *)
Definition repeat_char (c : ascii) (k : Z) : str := replicate (Z.to_nat k) c.

Definition display_concordance (text word : str) (neighborhood_size : Z)
  : result str :=
  let concordance := concordance text word neighborhood_size in
  let! befores := getitem (zip_star concordance) 0 in
  let! space := max_of (len <$> befores) in
  let display :=
    (λ element : str * str,
       repeat_char SP (space - len element.1) ++ element.1
       ++ [SP] ++ lit "<b>" ++ word ++ lit "</b>" ++ [SP] ++ element.2)
      <$> concordance in
  let! first := getitem display 0 in
  let! display := setitem display 0 (lit "<pre>" ++ first) in
  let! last := getitem display (Z.to_nat (len display - 1)) in
  let! display := setitem display (len display - 1) (last ++ lit "</pre>") in
  ret (join [LF] display).

(** ** [PGalyzer.likely_next] and [PGalyzer.likely_previous] *)

(** [new_dict[k] += [v]] on a [defaultdict(list)] *)
Definition append_to (new_dict : gmap str (list str)) (k v : str)
  : gmap str (list str) :=
  <[k := default [] (new_dict !! k) ++ [v]]> new_dict.

(** [words[i]]; every use below has [i] in range. *)
Definition at_index (words : list str) (i : nat) : str := nth i words [].

Definition next_dict (text : str) : gmap str (list str) :=
  foldl (λ new_dict line,
           let words := split line in
           foldl (λ new_dict index,
                    append_to new_dict (at_index words index)
                                       (at_index words (index + 1)))
                 new_dict (range (len words - 1)))
        ∅ (split_on LF text).

Definition previous_dict (text : str) : gmap str (list str) :=
  foldl (λ new_dict line,
           let words := split line in
           foldl (λ new_dict index,
                    append_to new_dict (at_index words index)
                                       (at_index words (index - 1)))
                 new_dict (range_from 1 (len words)))
        ∅ (split_on LF text).

(** [sorted(Counter(l).most_common(), key=lambda i: (-i[1], i[0]))] *)
Definition likely_key (i : str * nat) : Z * str := (- Z.of_nat i.2, i.1).

Definition ranked (l : list str) : list (str * nat) :=
  sorted likely_key tuple_lt (most_common (Counter l)).

(** [count_dict[word]] raises [KeyError] on a missing key. *)
Definition lookup_key {V} (d : gmap str V) (word : str) : result V :=
  match d !! word with
  | Some v => ret v
  | None => raise (KeyError word)
  end.

Definition likely_next (text word : str) (n : Z) : result (list (str * nat)) :=
  let count_dict := ranked <$> next_dict text in
  let! entry := lookup_key count_dict word in
  ret (slice entry 0 n).

Definition likely_previous (text word : str) (n : Z)
  : result (list (str * nat)) :=
  let count_dict := ranked <$> previous_dict text in
  let! entry := lookup_key count_dict word in
  ret (slice entry 0 n).

(** ** The vocabulary of the specification *)

(** A token is a non-empty string without whitespace. *)
Definition is_token (w : str) : Prop :=
  w ≠ [] ∧ Forall (λ a, isspace a = false) w.

(** The count recorded for [k] in a counter. *)
Definition count_in (d : list (str * nat)) (k : str) : nat :=
  sum_list_with (λ p, if decide (p.1 = k) then p.2 else 0%nat) d.

(** The number of occurrences of [k] in a list. *)
Definition occurrences (k : str) (l : list str) : nat :=
  length (filter (λ x, x = k) l).

(** The windows of [k] consecutive tokens of a line, from left to right:
    one for each start [i] with [i + k <= length ws]. *)
Definition windows (k : nat) (ws : list str) : list (list str) :=
  (λ i, take k (drop i ws)) <$> seq 0 (length ws + 1 - k).

(** The number of valid [n]-token windows of a text, line by line. *)
Definition valid_windows (text : str) (n : Z) : Z :=
  foldr Z.add 0
    ((λ line, Z.max 0 (len (split line) - n + 1)) <$> split_on LF text).

(** The positions of [word] in a line, from left to right. *)
Definition positions (word : str) (items : list str) : list nat :=
  filter (λ i, items !! i = Some word) (seq 0 (length items)).

(** The tokens in front of position [i], at most [neighborhood_size] of
    them: [tokens[max(0, i - neighborhood_size) : i]]. *)
Definition tokens_before (items : list str) (neighborhood_size : Z) (i : nat)
  : list str :=
  let backward_index := Z.to_nat (Z.max 0 (Z.of_nat i - neighborhood_size)) in
  take (i - backward_index) (drop backward_index items).

(** The tokens behind position [i], at most [neighborhood_size] of them:
    [tokens[i + 1 : i + neighborhood_size + 1]], cut at the end of the line. *)
Definition tokens_after (items : list str) (neighborhood_size : Z) (i : nat)
  : list str :=
  take (Z.to_nat neighborhood_size) (drop (i + 1) items).

(** [x] may stand in front of [y] in a list sorted by [key]: the key of [y]
    is not below that of [x]. *)
Definition in_order {A K} (key : A → K) (lt : K → K → bool) (x y : A) : Prop :=
  lt (key y) (key x) = false.

(** The pairs of neighbouring tokens of a line, from left to right. *)
Definition adjacent_pairs (words : list str) : list (str * str) :=
  zip words (drop 1 words).

(** The pairs of neighbouring tokens of a text; no pair joins two lines. *)
Definition text_pairs (text : str) : list (str * str) :=
  flat_map (λ line, adjacent_pairs (split line)) (split_on LF text).

(** The tokens seen right after [word], in text order. *)
Definition successors (text word : str) : list str :=
  (filter (λ p, p.1 = word) (text_pairs text)).*2.

(** The tokens seen right before [word], in text order. *)
Definition predecessors (text word : str) : list str :=
  (filter (λ p, p.2 = word) (text_pairs text)).*1.

(** [word] stands in some line at a position that is not the last one. *)
Definition in_non_last_position (text word : str) : Prop :=
  ∃ line i, line ∈ split_on LF text
            ∧ split line !! i = Some word
            ∧ (i + 1 < length (split line))%nat.

(** [word] stands in some line at a position that is not the first one. *)
Definition in_non_first_position (text word : str) : Prop :=
  ∃ line i, line ∈ split_on LF text
            ∧ split line !! i = Some word
            ∧ (0 < i)%nat.

(** The values appended under the key [k] by a list of updates. *)
Definition values_of (k : str) (updates : list (str * str)) : list str :=
  (filter (λ p, p.1 = k) updates).*2.

Definition append_pair (d : gmap str (list str)) (p : str * str)
  : gmap str (list str) := append_to d p.1 p.2.

(** [a] comes before [b] in the lexicographic order of the code points:
    the two strings part at a first position where the character of [a] is
    the smaller one, or [a] is a proper prefix of [b]. *)
Definition lex_before (a b : str) : Prop :=
  (∃ p x a' y b', a = p ++ x :: a' ∧ b = p ++ y :: b' ∧ (ord x < ord y)%N)
  ∨ (∃ y b', b = a ++ y :: b').

(** [x] ranks before [y]: a higher count, or the same count and the
    smaller word. *)
Definition ranks_before (x y : str * nat) : Prop :=
  (y.2 < x.2)%nat ∨ (x.2 = y.2 ∧ lex_before x.1 y.1).

(** The rule of the presentation: a higher count first, then the smaller
    n-gram text after lower-casing. *)
Definition ngrams_ranks_before (x y : str * nat) : Prop :=
  (y.2 < x.2)%nat ∨ (x.2 = y.2 ∧ lex_before (lower x.1) (lower y.1)).

(** Two entries the rule cannot tell apart: the same count and the same
    text up to letter case. *)
Definition ngrams_tie (x y : str * nat) : Prop :=
  x.2 = y.2 ∧ lower x.1 = lower y.1.

(** The number of newline characters of a string. *)
Definition newlines (s : str) : nat := length (filter (λ a, a = LF) s).

(** A block made of whitespace and punctuation characters only. *)
Definition blank (text : str) : Prop :=
  Forall (λ a, isspace a = true ∨ a ∈ punct) text.

(** Some block holds a character that is neither whitespace nor
    punctuation. *)
Definition has_content (blocks : list str) : Prop :=
  Exists (λ text, Exists (λ a, isspace a = false ∧ a ∉ punct) text) blocks.

(** ** The commands

    Each command opens with the same block, which reads the input either
    from standard input (the path [-]) or from a file, builds the object
    and calls one method; what the method returns is formatted and echoed.
    A run ends with the text written to standard output or with the
    exception that leaves the command.  The platform is a POSIX one. *)

Definition TAB : ascii := "009"%char.

(** [str(y)] for a count: its decimal digits. *)
Definition str_of (y : nat) : str :=
  lit (NilEmpty.string_of_uint (Nat.to_uint y)).

(** [needle in s] *)
Fixpoint contains (s needle : str) : bool :=
  startswith s needle
  || match s with
     | [] => false
     | _ :: s' => contains s' needle
     end.

(** [s.replace(old, new, count)] for a non-empty [old]: scanning from the
    left, each occurrence that does not overlap a replaced one is replaced,
    the first [count] of them only when [count] is not negative.  [skip] is
    the number of characters of a replaced occurrence still to pass. *)
Fixpoint replace_from (old new : str) (count : Z) (skip : nat) (s : str)
  : str :=
  match s with
  | [] => []
  | a :: s' =>
      match skip with
      | S skip' => replace_from old new count skip' s'
      | O =>
          if negb (count =? 0) && startswith (a :: s') old
          then new ++ replace_from old new (count - 1) (length old - 1) s'
          else a :: replace_from old new count 0 s'
      end
  end.

Definition replace_sub (old new : str) (count : Z) (s : str) : str :=
  replace_from old new count 0 s.

(** The first line of a text stream, with its newline when it has one, and
    what is left to read. *)
Fixpoint readline (stream : str) : str * str :=
  match stream with
  | [] => ([], [])
  | a :: stream' =>
      if decide (a = LF) then ([a], stream')
      else let (line, rest) := readline stream' in (a :: line, rest)
  end.

(** [open(path, 'r').read()]: a file is read in text mode with universal
    newlines, so a carriage return, alone or in front of a newline, is read
    as a newline.  (Standard input keeps its carriage returns; its lines
    end at a newline.) *)
Fixpoint universal_newlines (s : str) : str :=
  match s with
  | [] => []
  | a :: s' =>
      if decide (a = CR) then
        LF :: match s' with
              | b :: s'' =>
                  if decide (b = LF) then universal_newlines s''
                  else universal_newlines s'
              | [] => []
              end
      else a :: universal_newlines s'
  end.

(** What a command sees of the system: the text waiting on standard input
    and what the paths name; the contents of a file are its characters as
    they are stored. *)
Inductive node :=
| File (contents : str)
| Directory.

Record system := System {
  stdin : str;
  files : gmap str node
}.

(** The exceptions that leave a command: the two [ClickException]s of the
    opening block, the unbound [line] of an empty standard input, the
    failure of [open] on a directory, and whatever a method raises, which
    no command catches. *)
Inductive error :=
| ClickException (message : str)
| UnboundLocalError (name : str)
| IsADirectoryError (path : str)
| Uncaught (e : exn).

Definition outcome (A : Type) : Type := error + A.

Definition and_then {A B} (x : outcome A) (f : A → outcome B) : outcome B :=
  match x with
  | inl e => inl e
  | inr a => f a
  end.

Definition uncaught {A} (r : result A) : outcome A :=
  match r with
  | inl e => inl (Uncaught e)
  | inr a => inr a
  end.

(** The opening block of a command followed by [PGalyzer(file, clean_pg)]:
    the attribute [text] of the object. *)
Definition open_input (sys : system) (file : str) (clean_pg : bool)
  : outcome str :=
  if decide (file = lit "-") then
    match stdin sys with
    | [] => inl (UnboundLocalError (lit "line"))
    | _ :: _ =>
        let (line, rest) := readline (stdin sys) in
        if negb (contains line (lit "Project Gutenberg"))
        then inl (ClickException
                    (lit "The file or content is not a Project Gutenberg text content file."))
        else inr (PGalyzer (stream_contents line rest) clean_pg)
    end
  else
    match files sys !! file with
    | None =>
        inl (ClickException
               (lit "Invalid value for file path. Path " ++ file
                ++ lit " does not exist."))
    | Some Directory => inl (IsADirectoryError file)
    | Some (File contents) =>
        inr (PGalyzer (universal_newlines contents) clean_pg)
    end.

(** [click.echo(message)] writes the message and a newline to standard
    output.  When standard output is no terminal, click first removes the
    ANSI escape sequences, the matches of [\033\[[;?0-9]*[a-zA-Z]]
    ([should_strip_ansi], [strip_ansi]); [terminal] tells whether standard
    output is one. *)
Definition ESC : ascii := "027"%char.

Definition is_parameter (a : ascii) : bool :=
  let n := ord a in
  ((n =? 59) || (n =? 63) || (48 <=? n) && (n <=? 57))%N.

Definition is_letter (a : ascii) : bool :=
  let n := ord a in
  ((65 <=? n) && (n <=? 90) || (97 <=? n) && (n <=? 122))%N.

(** The length of the longest run of parameter characters that starts [s]. *)
Fixpoint parameters (s : str) : nat :=
  match s with
  | [] => 0
  | a :: s' => if is_parameter a then S (parameters s') else 0
  end.

(** The length of the escape sequence that starts [s], when there is one:
    the two classes are disjoint, so the run of parameters is the longest
    one and a letter has to follow it. *)
Definition ansi_match (s : str) : option nat :=
  match s with
  | a :: b :: s' =>
      if decide (a = ESC) then
        if decide (b = "["%char) then
          match drop (parameters s') s' with
          | c :: _ =>
              if is_letter c then Some (parameters s' + 3)%nat else None
          | [] => None
          end
        else None
      else None
  | _ => None
  end.

(** [_ansi_re.sub('', s)]: scanning from the left, every escape sequence is
    removed.  [skip] is the number of characters of a removed sequence
    still to pass. *)
Fixpoint strip_from (skip : nat) (s : str) : str :=
  match s with
  | [] => []
  | a :: s' =>
      match skip with
      | S skip' => strip_from skip' s'
      | O =>
          match ansi_match (a :: s') with
          | Some k => strip_from (k - 1) s'
          | None => a :: strip_from 0 s'
          end
      end
  end.

Definition strip_ansi (s : str) : str := strip_from 0 s.

Definition echo (terminal : bool) (message : str) : str :=
  let out := message ++ [LF] in
  if terminal then out else strip_ansi out.

(** [x + '\t' + str(y)] *)
Definition counted (entry : str * nat) : str :=
  entry.1 ++ [TAB] ++ str_of entry.2.

Module cli.

Definition ngrams (sys : system) (terminal : bool) (file : str) (n : Z)
    (clean_pg : bool) : outcome str :=
  and_then (open_input sys file clean_pg) (λ text,
    let ngrams := ngrams_ranked text n in
    let ngrams := counted <$> ngrams in
    inr (echo terminal (join [LF] ngrams))).

Definition word_count (sys : system) (terminal : bool) (file : str)
    (clean_pg : bool) : outcome str :=
  and_then (open_input sys file clean_pg) (λ text,
    let wc := word_count text in
    let wc := sorted ngrams_key tuple_lt (most_common wc) in
    let wc := counted <$> wc in
    inr (echo terminal (join [LF] wc))).

Definition concordance (sys : system) (terminal : bool) (file word : str)
    (ns : Z) (clean_pg : bool) : outcome str :=
  and_then (open_input sys file clean_pg) (λ text,
    let concordance := concordance text word ns in
    let final :=
      (λ words : str * str, words.1 ++ [TAB] ++ words.2 ++ [LF])
        <$> concordance in
    inr (echo terminal (concat final))).

Definition display_concordance (sys : system) (terminal : bool)
    (file word : str) (ns : Z) (clean_pg : bool) : outcome str :=
  and_then (open_input sys file clean_pg) (λ text,
    and_then (uncaught (display_concordance text word ns)) (λ display,
      let display := replace_sub (lit "<pre>") [] 1 display in
      let display := replace_sub (lit "</pre>") [] 1 display in
      let display := replace_sub (lit "<b>") (lit "**") (-1) display in
      let display := replace_sub (lit "</b>") (lit "**") (-1) display in
      inr (echo terminal display))).

Definition likely_next (sys : system) (terminal : bool) (file word : str)
    (n : Z) (clean_pg : bool) : outcome str :=
  and_then (open_input sys file clean_pg) (λ text,
    and_then (uncaught (likely_next text word n)) (λ likely_next,
      let out := (λ tup, counted tup ++ [LF]) <$> likely_next in
      inr (echo terminal (concat out)))).

Definition likely_previous (sys : system) (terminal : bool)
    (file word : str) (n : Z) (clean_pg : bool) : outcome str :=
  and_then (open_input sys file clean_pg) (λ text,
    and_then (uncaught (likely_previous text word n)) (λ likely_previous,
      let out := (λ tup, counted tup ++ [LF]) <$> likely_previous in
      inr (echo terminal (concat out)))).

End cli.

(** ** The vocabulary of the further properties *)

(** The tokens of a text, line by line. *)
Definition tokenize (text : str) : list (list str) :=
  split <$> split_on LF text.

(** Two characters that the tokenizer cannot tell apart: the same
    character, or two whitespace characters other than the newline. *)
Definition same_kind (a b : ascii) : Prop :=
  a = b ∨ (isspace a = true ∧ isspace b = true ∧ a ≠ LF ∧ b ≠ LF).

(** The number of times [word] stands in a line at a position that is not
    the last one, and at a position that is not the first one. *)
Definition non_last_occurrences (text word : str) : nat :=
  sum_list ((λ line, occurrences word
                       (take (length (split line) - 1) (split line)))
              <$> split_on LF text).

Definition non_first_occurrences (text word : str) : nat :=
  sum_list ((λ line, occurrences word (drop 1 (split line)))
              <$> split_on LF text).

(** The number of places where [w] is directly followed by [v] in a line. *)
Definition pair_count (text w v : str) : nat :=
  length (filter (λ p, p = (w, v)) (text_pairs text)).

(** The entries that a query returns; none when it raises. *)
Definition entries (r : result (list (str * nat))) : list (str * nat) :=
  match r with
  | inr l => l
  | inl _ => []
  end.

(** A row of the display: the text in front of the word padded on the left
    to the width [space], the marked word, and the text behind it. *)
Definition display_row (word : str) (space : Z) (element : str * str) : str :=
  repeat_char SP (space - len element.1) ++ element.1
  ++ [SP] ++ lit "<b>" ++ word ++ lit "</b>" ++ [SP] ++ element.2.

(** An output line read back: its two fields around the tab, the second one
    as a number for a counted entry. *)
Definition fields (line : str) : option (str * str) :=
  match split_on TAB line with
  | [x; y] => Some (x, y)
  | _ => None
  end.

Definition parse_count (s : str) : option nat :=
  Nat.of_uint <$> NilEmpty.uint_of_string (string_of_list_ascii s).

Definition parse_entry (line : str) : option (str * nat) :=
  match fields line with
  | Some (x, y) => (λ c, (x, c)) <$> parse_count y
  | None => None
  end.

(** The lines of an output that are not empty. *)
Definition nonblank_lines (out : str) : list str :=
  filter (λ line, line ≠ []) (split_on LF out).

(** A row as the display command prints it. *)
Definition starred_row (word : str) (space : Z) (element : str * str) : str :=
  repeat_char SP (space - len element.1) ++ element.1
  ++ [SP] ++ lit "**" ++ word ++ lit "**" ++ [SP] ++ element.2.

(** * Properties *)

(** ** The scenarios of the specification, run on the embedding *)

Example scenario_clean_gutenberg :
  PGalyzer (lit "*** START OF THIS PROJECT GUTENBERG EBOOK ***" ++ [LF; LF]
            ++ lit "Hello World." ++ [LF; LF]
            ++ lit "*** END OF THIS PROJECT GUTENBERG EBOOK ***") true
  = lit "hello world".
Proof. by vm_compute. Qed.

Example scenario_clean_joins_paragraph_lines :
  PGalyzer (lit "  A study" ++ [LF] ++ lit "in Scarlet;" ++ [LF; LF]
            ++ lit "by A. Conan-Doyle (1)" ++ [LF]) true
  = lit "a study in scarlet" ++ [LF] ++ lit "by a conandoyle 1".
Proof. by vm_compute. Qed.

Example scenario_word_count :
  word_count (lit "mary had a little lamb mary had a little lamb")
  = [(lit "mary", 2%nat); (lit "had", 2%nat); (lit "a", 2%nat);
     (lit "little", 2%nat); (lit "lamb", 2%nat)].
Proof. by vm_compute. Qed.

Example scenario_likely_next :
  likely_next (lit "mary had a little lamb mary had a little lamb")
              (lit "mary") 1
  = ret [(lit "had", 2%nat)].
Proof. by vm_compute. Qed.

Example scenario_concordance :
  concordance (lit "mary had a little lamb mary had a little lamb")
              (lit "lamb") 1
  = [(lit "little", lit "mary"); (lit "little", [])].
Proof. by vm_compute. Qed.

Example scenario_likely_previous_unseen :
  likely_previous (lit "mary had a little lamb") (lit "zebra") 5
  = raise (KeyError (lit "zebra")).
Proof. by vm_compute. Qed.

Example scenario_display_concordance :
  display_concordance (lit "a little lamb" ++ [LF] ++ lit "the lamb was")
                      (lit "lamb") 4
  = ret (lit "<pre>a little <b>lamb</b> " ++ [LF]
         ++ lit "     the <b>lamb</b> was</pre>").
Proof. by vm_compute. Qed.

Example scenario_ngrams_ranked :
  ngrams_ranked (lit "b a c a b" ++ [LF] ++ lit "b a") 2
  = [(lit "b a", 2%nat); (lit "a b", 1%nat); (lit "a c", 1%nat);
     (lit "c a", 1%nat)].
Proof. by vm_compute. Qed.

(** ** Facts about the string primitives *)

Lemma split_on_nonempty c s : split_on c s ≠ [].
Proof.
  destruct s as [|a s]; simpl; [done|].
  case_decide; [done|]. by destruct (split_on c s).
Qed.

Lemma join_cons sep p ps :
  ps ≠ [] → join sep (p :: ps) = p ++ sep ++ join sep ps.
Proof. by destruct ps. Qed.

Lemma join_split_on c s : join [c] (split_on c s) = s.
Proof.
  induction s as [|a s IH]; simpl; [done|].
  case_decide as Hc.
  - subst a. rewrite join_cons by apply split_on_nonempty.
    simpl. by rewrite IH.
  - pose proof (split_on_nonempty c s) as Hne.
    destruct (split_on c s) as [|piece pieces]; [done|].
    destruct pieces as [|piece' pieces].
    + simpl in *. by rewrite IH.
    + rewrite join_cons by done. rewrite join_cons in IH by done.
      by rewrite <-IH.
Qed.

Lemma split_on_app c s1 s2 :
  c ∉ s1 → split_on c (s1 ++ c :: s2) = s1 :: split_on c s2.
Proof.
  induction s1 as [|a s1 IH]; simpl; intros Hs.
  - by rewrite decide_True.
  - rewrite decide_False by (intros ->; apply Hs; by left).
    rewrite IH; [done|]. intros ?. apply Hs. by right.
Qed.

Lemma split_head_nonspace a s : isspace a = false → split (a :: s) ≠ [].
Proof.
  intros Ha. simpl. rewrite Ha. destruct s as [|b s]; [done|].
  destruct (isspace b); [done|]. by destruct (split (b :: s)).
Qed.

Lemma split_app_space s1 c s2 :
  isspace c = true → split (s1 ++ c :: s2) = split s1 ++ split s2.
Proof.
  intros Hc. induction s1 as [|a s1 IH].
  - simpl. by rewrite Hc.
  - rewrite <-app_comm_cons. cbn [split].
    destruct (isspace a) eqn:Ha; [done|].
    destruct s1 as [|b s1].
    + simpl. by rewrite Hc.
    + rewrite <-app_comm_cons in *. rewrite IH.
      destruct (isspace b) eqn:Hb; [done|].
      pose proof (split_head_nonspace b s1 Hb).
      by destruct (split (b :: s1)).
Qed.

Lemma split_all_space s : Forall (λ a, isspace a = true) s → split s = [].
Proof.
  induction 1 as [|a s Ha _ IH]; [done|]. simpl. by rewrite Ha.
Qed.

Lemma split_tokens s : Forall is_token (split s).
Proof.
  induction s as [|a s IH]; [constructor|].
  cbn [split]. destruct (isspace a) eqn:Ha; [done|].
  destruct s as [|b s].
  - repeat constructor; done.
  - destruct (isspace b) eqn:Hb.
    + constructor; [|done]. repeat constructor; done.
    + destruct (split (b :: s)) as [|w ws].
      * repeat constructor; done.
      * inversion_clear IH as [|?? [Hw1 Hw2] Hws].
        constructor; [|done]. split; [done|]. by constructor.
Qed.

Lemma split_token w : is_token w → split w = [w].
Proof.
  intros [Hne Hw]. induction Hw as [|a w Ha Hw IH]; [done|].
  cbn [split]. rewrite Ha. destruct w as [|b w]; [done|].
  inversion_clear Hw as [|?? Hb _]. rewrite Hb. by rewrite IH.
Qed.

Lemma split_join_tokens ws :
  Forall is_token ws → split (join [SP] ws) = ws.
Proof.
  induction 1 as [|w ws Hw Hws IH]; [done|].
  destruct ws as [|w' ws].
  - simpl. by apply split_token.
  - rewrite join_cons by done. cbn [app].
    rewrite split_app_space by done. by rewrite IH, split_token.
Qed.

Lemma split_join_LF pieces : split (join [LF] pieces) = flat_map split pieces.
Proof.
  induction pieces as [|p ps IH]; [done|].
  destruct ps as [|p' ps].
  - simpl. by rewrite app_nil_r.
  - rewrite join_cons by done. cbn [app flat_map].
    rewrite split_app_space by done. by rewrite IH.
Qed.

(** Splitting the whole text on whitespace gives the tokens of its lines,
    line after line. *)
Lemma split_lines text : flat_map split (split_on LF text) = split text.
Proof. by rewrite <-split_join_LF, join_split_on. Qed.

Lemma lower_char_idemp a : lower_char (lower_char a) = lower_char a.
Proof. by destruct a as [[] [] [] [] [] [] [] []]. Qed.

Lemma lower_fixed s : Forall (λ a, lower_char a = a) s → lower s = s.
Proof.
  unfold lower. induction 1 as [|a s Ha _ IH]; [done|].
  by rewrite fmap_cons, Ha, IH.
Qed.

Lemma lower_Forall_fixed s : Forall (λ a, lower_char a = a) (lower s).
Proof.
  unfold lower. apply Forall_fmap, Forall_forall. intros a _.
  apply lower_char_idemp.
Qed.

Lemma lower_fixed_inv s : lower s = s → Forall (λ a, lower_char a = a) s.
Proof.
  unfold lower. induction s as [|a s IH]; [constructor|].
  rewrite fmap_cons. intros [= Ha Hs]. constructor; [done|by apply IH].
Qed.

Lemma split_Forall (Q : ascii → Prop) s :
  Forall Q s → Forall (Forall Q) (split s).
Proof.
  induction 1 as [|a s Ha Hs IH]; [constructor|]. cbn [split].
  destruct (isspace a); [done|]. destruct s as [|b s]; [by repeat constructor|].
  destruct (isspace b); [by repeat constructor|].
  destruct (split (b :: s)) as [|w ws]; [by repeat constructor|].
  apply Forall_cons in IH as [? ?]. by repeat constructor.
Qed.

Lemma split_on_Forall (Q : ascii → Prop) c s :
  Forall Q s → Forall (Forall Q) (split_on c s).
Proof.
  induction 1 as [|a s Ha Hs IH]; [by repeat constructor|]. cbn [split_on].
  case_decide; [by repeat constructor|].
  destruct (split_on c s) as [|piece pieces]; [by repeat constructor|].
  apply Forall_cons in IH as [? ?]. by repeat constructor.
Qed.

Lemma join_Forall (Q : ascii → Prop) sep parts :
  Forall Q sep → Forall (Forall Q) parts → Forall Q (join sep parts).
Proof.
  intros Hsep. induction 1 as [|part parts Hp Hps IH]; [constructor|].
  destruct parts as [|part' parts]; [done|].
  rewrite join_cons by done. by rewrite !Forall_app.
Qed.

(** ** Facts about slices *)

Lemma slice_bound_of_nat n (i : nat) : slice_bound n (Z.of_nat i) = Nat.min i n.
Proof.
  unfold slice_bound. destruct (Z.ltb_spec (Z.of_nat i) 0); [lia|].
  by rewrite Nat2Z.id.
Qed.

(** Between two non-negative bounds a slice is the plain sublist. *)
Lemma slice_of_nat {A} (l : list A) (a b : nat) :
  slice l (Z.of_nat a) (Z.of_nat b) = take (b - a) (drop a l).
Proof.
  unfold slice. rewrite !slice_bound_of_nat.
  destruct (decide (a ≤ length l)%nat) as [Ha|Ha].
  - rewrite (Nat.min_l a) by done.
    destruct (decide (b ≤ length l)%nat) as [Hb|Hb].
    + by rewrite (Nat.min_l b) by done.
    + rewrite (Nat.min_r b) by lia.
      rewrite !take_ge; [done|rewrite length_drop; lia..].
  - rewrite (Nat.min_r a) by lia.
    rewrite !drop_ge by lia. by rewrite !take_nil.
Qed.

Lemma slice_Forall {A} (Q : A → Prop) l lo hi :
  Forall Q l → Forall Q (slice l lo hi).
Proof. intros Hl. unfold slice. by apply Forall_take, Forall_drop. Qed.

(** ** Facts about [Counter] *)

Lemma counter_add_total k d :
  sum_list (counter_add k d).*2 = S (sum_list d.*2).
Proof.
  induction d as [|[k' c] d IH]; csimpl; [done|].
  case_decide; csimpl; [done|]. rewrite IH. lia.
Qed.

Lemma Counter_total l : sum_list (Counter l).*2 = length l.
Proof.
  unfold Counter. change (length l) with (sum_list ([] : list (str * nat)).*2 + length l)%nat.
  generalize ([] : list (str * nat)).
  induction l as [|k l IH]; intros d; csimpl; [lia|].
  rewrite IH, counter_add_total. lia.
Qed.

Lemma counter_add_keys k d :
  (counter_add k d).*1 = if decide (k ∈ d.*1) then d.*1 else d.*1 ++ [k].
Proof.
  induction d as [|[k' c] d IH]; csimpl; [done|].
  - destruct (decide (k = k')) as [->|Hk]; csimpl.
    + rewrite decide_True; [done|]. by left.
    + rewrite IH. destruct (decide (k ∈ d.*1)) as [Hin|Hin].
      * rewrite decide_True; [done|]. by right.
      * rewrite decide_False; [done|].
        by intros [?|?]%elem_of_cons.
Qed.

Lemma counter_add_NoDup k d : NoDup d.*1 → NoDup (counter_add k d).*1.
Proof.
  intros Hd. rewrite counter_add_keys. case_decide as Hk; [done|].
  apply NoDup_app. split_and!; [done| |apply NoDup_singleton].
  intros x Hx ->%list_elem_of_singleton. done.
Qed.

Lemma counter_add_count k d k' :
  count_in (counter_add k d) k'
  = (count_in d k' + if decide (k = k') then 1 else 0)%nat.
Proof.
  unfold count_in. induction d as [|[k0 c] d IH]; csimpl.
  - by repeat case_decide.
  - destruct (decide (k = k0)) as [->|Hk]; csimpl.
    + repeat case_decide; lia.
    + rewrite IH. repeat case_decide; lia.
Qed.

Lemma Counter_fold_keys l d :
  ∀ k, k ∈ (foldl (λ d k, counter_add k d) d l).*1 ↔ k ∈ d.*1 ∨ k ∈ l.
Proof.
  revert d. induction l as [|x l IH]; intros d k; csimpl.
  - rewrite elem_of_nil. tauto.
  - rewrite IH, counter_add_keys, elem_of_cons. case_decide as Hx.
    + split; [tauto|]. intros [?|[->|?]]; tauto.
    + rewrite elem_of_app, list_elem_of_singleton. tauto.
Qed.

Lemma Counter_keys l k : k ∈ (Counter l).*1 ↔ k ∈ l.
Proof.
  unfold Counter. rewrite Counter_fold_keys. csimpl. rewrite elem_of_nil. tauto.
Qed.

Lemma Counter_NoDup l : NoDup (Counter l).*1.
Proof.
  unfold Counter. assert (NoDup ([] : list (str * nat)).*1) as H by constructor.
  revert H. generalize ([] : list (str * nat)).
  induction l as [|x l IH]; intros d Hd; csimpl; [done|].
  by apply IH, counter_add_NoDup.
Qed.

Lemma Counter_count l k : count_in (Counter l) k = occurrences k l.
Proof.
  unfold Counter, occurrences.
  change (length (filter (λ x, x = k) l))
    with (count_in [] k + length (filter (λ x, x = k) l))%nat.
  generalize ([] : list (str * nat)).
  induction l as [|x l IH]; intros d; csimpl; [lia|].
  rewrite IH, counter_add_count, filter_cons.
  repeat case_decide; csimpl; try lia; congruence.
Qed.

(** With distinct keys, an entry carries the count of its key. *)
Lemma count_in_entry d k c : NoDup d.*1 → (k, c) ∈ d → count_in d k = c.
Proof.
  unfold count_in. induction d as [|[k0 c0] d IH]; csimpl.
  - by intros _ ?%elem_of_nil.
  - intros [Hk0 Hd]%NoDup_cons [Heq|Hin]%elem_of_cons.
    + inversion Heq; subst. rewrite decide_True by done.
      assert (sum_list_with (λ p, if decide (p.1 = k0) then p.2 else 0%nat) d = 0%nat)
        as ->; [|lia].
      clear IH Hd Heq. induction d as [|[k1 c1] d IH']; csimpl; [done|].
      rewrite decide_False.
      * apply IH'. intros ?. apply Hk0. by right.
      * intros ->. apply Hk0. by left.
    + rewrite decide_False.
      * by apply IH.
      * intros ->. apply Hk0. apply list_elem_of_fmap. by exists (k, c).
Qed.

(** ** The n-gram windows of a line *)

Lemma ngrams_loop_seq ws n a m :
  1 ≤ n →
  ngrams_loop ws n (seq a m)
  = (λ i, join [SP] (take (Z.to_nat n) (drop i ws)))
      <$> seq a (Nat.min m (length ws + 1 - Z.to_nat n - a)).
Proof.
  intros Hn. revert a. induction m as [|m IH]; intros a; [done|].
  cbn [seq ngrams_loop]. unfold len.
  destruct (Z.gtb_spec (Z.of_nat a + n) (Z.of_nat (length ws))) as [Hgt|Hle].
  - by replace (length ws + 1 - Z.to_nat n - a)%nat with 0%nat by lia.
  - replace (Nat.min (S m) (length ws + 1 - Z.to_nat n - a))
      with (S (Nat.min m (length ws + 1 - Z.to_nat n - S a))) by lia.
    cbn [seq fmap list_fmap]. rewrite <-IH. f_equal.
    replace (Z.of_nat a + n) with (Z.of_nat (a + Z.to_nat n)) by lia.
    rewrite slice_of_nat. do 2 f_equal. lia.
Qed.

Lemma ngrams_loop_windows ws n :
  1 ≤ n →
  ngrams_loop ws n (range (len ws)) = join [SP] <$> windows (Z.to_nat n) ws.
Proof.
  intros Hn. unfold range, len, windows. rewrite Nat2Z.id.
  rewrite ngrams_loop_seq by done. rewrite <-list_fmap_compose.
  f_equal. f_equal. lia.
Qed.

Lemma ngrams_list_windows text n :
  1 ≤ n →
  ngrams_list text n
  = flat_map (λ line, join [SP] <$> windows (Z.to_nat n) (split line))
             (split_on LF text).
Proof.
  intros Hn. unfold ngrams_list. apply flat_map_ext. intros line.
  by apply ngrams_loop_windows.
Qed.

Lemma length_windows k ws : length (windows k ws) = (length ws + 1 - k)%nat.
Proof. unfold windows. by rewrite length_fmap, length_seq. Qed.

Lemma windows_1 ws : join [SP] <$> windows 1 ws = ws.
Proof.
  unfold windows. replace (length ws + 1 - 1)%nat with (length ws) by lia.
  induction ws as [|w ws IH]; [done|].
  cbn [length seq fmap list_fmap]. f_equal.
  rewrite <-fmap_S_seq, <-!list_fmap_compose.
  by rewrite <-list_fmap_compose in IH.
Qed.

Lemma length_flat_map {A B} (f : A → list B) l :
  Z.of_nat (length (flat_map f l))
  = foldr Z.add 0 ((λ x, Z.of_nat (length (f x))) <$> l).
Proof.
  induction l as [|x l IH]; [done|].
  cbn [flat_map fmap list_fmap foldr]. rewrite length_app. lia.
Qed.

(** C3.  For every text and every [n >= 1], the counts of [ngrams] add up
    to the number of valid windows, the sum over the lines of
    [max(0, line_length - n + 1)]; the counted n-grams are, line by line,
    the joined windows of [n] consecutive tokens of that line, each entry
    counting the windows with its text, so a line with fewer than [n]
    tokens gives none and every n-gram lies within one line. *)
Theorem ngrams_counts_total (text : str) (n : Z) :
  1 ≤ n →
  Z.of_nat (sum_list (ngrams text n).*2) = valid_windows text n
  ∧ ngrams_list text n
    = flat_map (λ line, join [SP] <$> windows (Z.to_nat n) (split line))
               (split_on LF text)
  ∧ (∀ gram c, (gram, c) ∈ ngrams text n →
       c = occurrences gram (ngrams_list text n))
  ∧ (∀ line, line ∈ split_on LF text → len (split line) < n →
       windows (Z.to_nat n) (split line) = [])
  ∧ (∀ gram, gram ∈ (ngrams text n).*1 →
       ∃ line i, line ∈ split_on LF text
                 ∧ Z.of_nat i + n ≤ len (split line)
                 ∧ gram = join [SP] (take (Z.to_nat n) (drop i (split line)))).
Proof.
  intros Hn. pose proof (ngrams_list_windows text n Hn) as Hlist.
  split_and!; [|done| | |].
  - unfold ngrams, valid_windows. rewrite Counter_total, Hlist.
    rewrite length_flat_map. f_equal. apply list_fmap_ext.
    intros _ line _. rewrite length_fmap, length_windows. unfold len. lia.
  - intros gram c Hc. unfold ngrams in Hc.
    rewrite <-Counter_count. symmetry.
    by apply count_in_entry; [apply Counter_NoDup|].
  - intros line _ Hshort. apply nil_length_inv.
    rewrite length_windows. unfold len in Hshort. lia.
  - intros gram Hgram. unfold ngrams in Hgram.
    rewrite Counter_keys, Hlist in Hgram.
    apply list_elem_of_In, in_flat_map in Hgram as (line & Hline & Hgram).
    apply list_elem_of_In, list_elem_of_fmap in Hgram as (w & -> & Hw).
    apply list_elem_of_fmap in Hw as (i & -> & Hi).
    apply elem_of_seq in Hi. exists line, i.
    split_and!; [by apply list_elem_of_In| |done]. unfold len. lia.
Qed.

Lemma ngrams_counts_total_witness :
  1 ≤ 2
  ∧ Z.of_nat (sum_list (ngrams (lit "a b c" ++ [LF] ++ lit "d") 2).*2) = 2.
Proof.
  split; [lia|].
  by rewrite (proj1 (ngrams_counts_total (lit "a b c" ++ [LF] ++ lit "d") 2
                       ltac:(lia))).
Defined.

(** C7.  [word_count] is [ngrams] with [n = 1]: the whitespace split of the
    whole text lists the same tokens, in the same order, as the one-token
    windows of the lines, so the two counters are equal. *)
Theorem word_count_is_ngrams_1 (text : str) :
  split text = ngrams_list text 1 ∧ word_count text = ngrams text 1.
Proof.
  assert (split text = ngrams_list text 1) as Heq.
  { rewrite ngrams_list_windows by lia. rewrite <-split_lines.
    apply flat_map_ext. intros line. by rewrite windows_1. }
  split; [done|]. unfold word_count, ngrams. by rewrite Heq.
Qed.

(** ** Concordance windows *)

Lemma filter_fmap {A B} (f : A → B) (P : B → Prop) `{∀ x, Decision (P x)}
    (l : list A) :
  filter P (f <$> l) = f <$> filter (P ∘ f) l.
Proof.
  induction l as [|x l IH]; [done|]. csimpl.
  rewrite !filter_cons, IH. unfold compose. by case_decide.
Qed.

Lemma positions_cons word x items :
  positions word (x :: items)
  = (if decide (x = word) then [0%nat] else []) ++ (S <$> positions word items).
Proof.
  unfold positions. cbn [length seq].
  rewrite <-fmap_S_seq, filter_cons, filter_fmap.
  rewrite (list_filter_iff _ (λ i, items !! i = Some word)) by done.
  cbn [lookup list_lookup]. repeat case_decide; by simplify_eq.
Qed.

Lemma indices_of_shift word items (g : nat → nat) :
  (filter (λ p, word = p.2) (imap (λ i s, (g i, s)) items)).*1
  = g <$> positions word items.
Proof.
  revert g. induction items as [|x items IH]; intros g; [done|].
  rewrite imap_cons, filter_cons, positions_cons, fmap_app.
  rewrite <-list_fmap_compose, <-(IH (g ∘ S)). cbn [snd].
  repeat case_decide; by simplify_eq.
Qed.

Lemma indices_of_positions word items :
  indices_of word items = positions word items.
Proof.
  unfold indices_of.
  etrans; [apply (indices_of_shift word items id)|apply list_fmap_id].
Qed.

Lemma length_positions word items :
  length (positions word items) = occurrences word items.
Proof.
  induction items as [|x items IH]; [done|].
  rewrite positions_cons, length_app, length_fmap, IH.
  unfold occurrences. rewrite filter_cons.
  repeat case_decide; by simplify_eq.
Qed.

Lemma occurrences_app k l1 l2 :
  occurrences k (l1 ++ l2) = (occurrences k l1 + occurrences k l2)%nat.
Proof. unfold occurrences. by rewrite filter_app, length_app. Qed.

Lemma context_window_tokens items ns i :
  0 ≤ ns →
  context_window items ns i
  = (join [SP] (tokens_before items ns i), join [SP] (tokens_after items ns i)).
Proof.
  intros Hns. unfold context_window, tokens_before, tokens_after. f_equal.
  - f_equal.
    replace (if Z.of_nat i - ns <? 0 then 0 else Z.of_nat i - ns)
      with (Z.of_nat (Z.to_nat (Z.max 0 (Z.of_nat i - ns))))
      by (destruct (Z.ltb_spec (Z.of_nat i - ns) 0); lia).
    apply slice_of_nat.
  - f_equal.
    replace (Z.of_nat i + 1) with (Z.of_nat (i + 1)) by lia.
    replace (Z.of_nat i + ns + 1)
      with (Z.of_nat (i + 1 + Z.to_nat ns)) by lia.
    rewrite slice_of_nat. f_equal. lia.
Qed.

Lemma length_tokens_before items ns i :
  0 ≤ ns → (i < length items)%nat →
  length (tokens_before items ns i) = Nat.min i (Z.to_nat ns).
Proof.
  intros Hns Hi. unfold tokens_before.
  rewrite length_take, length_drop. lia.
Qed.

Lemma length_tokens_after items ns i :
  (i < length items)%nat →
  length (tokens_after items ns i)
  = Nat.min (Z.to_nat ns) (length items - 1 - i).
Proof.
  intros Hi. unfold tokens_after. rewrite length_take, length_drop. lia.
Qed.

(** C4.  For [neighborhood_size >= 0], [concordance] lists one window per
    occurrence of [word], line after line and from left to right within a
    line.  The window of the occurrence at index [i] joins with single
    spaces the tokens [tokens[max(0, i - neighborhood_size) : i]] and
    [tokens[i+1 : i + neighborhood_size + 1]]; the joined strings split back
    into exactly those tokens, whose numbers are
    [min(i, neighborhood_size)] and
    [min(neighborhood_size, line_length - 1 - i)]: nothing is padded, the
    first string is empty at [i = 0], and an interior occurrence has
    [neighborhood_size] tokens on each side. *)
Theorem concordance_windows (text word : str) (neighborhood_size : Z) :
  0 ≤ neighborhood_size →
  concordance text word neighborhood_size
  = flat_map (λ line,
                (λ i, (join [SP] (tokens_before (split line) neighborhood_size i),
                       join [SP] (tokens_after (split line) neighborhood_size i)))
                  <$> positions word (split line))
             (split_on LF text)
  ∧ length (concordance text word neighborhood_size)
    = occurrences word (split text)
  ∧ ∀ line i,
      line ∈ split_on LF text → split line !! i = Some word →
      let items := split line in
      let before := tokens_before items neighborhood_size i in
      let after := tokens_after items neighborhood_size i in
      context_window items neighborhood_size i
        = (join [SP] before, join [SP] after)
      ∧ split (join [SP] before) = before
      ∧ split (join [SP] after) = after
      ∧ length before = Nat.min i (Z.to_nat neighborhood_size)
      ∧ length after
        = Nat.min (Z.to_nat neighborhood_size) (length items - 1 - i)
      ∧ (i = 0%nat → (context_window items neighborhood_size i).1 = [])
      ∧ (neighborhood_size ≤ Z.of_nat i →
         Z.of_nat i + neighborhood_size < len items - 1 →
         len before = neighborhood_size ∧ len after = neighborhood_size).
Proof.
  intros Hns.
  assert (concordance text word neighborhood_size
          = flat_map (λ line,
              (λ i, (join [SP] (tokens_before (split line) neighborhood_size i),
                     join [SP] (tokens_after (split line) neighborhood_size i)))
                <$> positions word (split line))
             (split_on LF text)) as Heq.
  { unfold concordance. apply flat_map_ext. intros line.
    rewrite indices_of_positions. apply list_fmap_ext.
    intros _ i _. by apply context_window_tokens. }
  split_and!; [done| |].
  - rewrite Heq, <-split_lines. clear Heq.
    induction (split_on LF text) as [|line lines IH]; [done|].
    cbn [flat_map]. rewrite length_app, occurrences_app, IH.
    by rewrite length_fmap, length_positions.
  - intros line i _ Hi items before after.
    assert (i < length items)%nat as Hlt by by eapply lookup_lt_Some.
    pose proof (split_tokens line) as Htok. fold items in Htok.
    assert (length before = Nat.min i (Z.to_nat neighborhood_size)) as Hb
      by by apply length_tokens_before.
    assert (length after
            = Nat.min (Z.to_nat neighborhood_size) (length items - 1 - i)) as Ha
      by by apply length_tokens_after.
    rewrite context_window_tokens by done. fold before after.
    split_and!; [done| | |done|done| |].
    + apply split_join_tokens. by apply Forall_take, Forall_drop.
    + apply split_join_tokens. by apply Forall_take, Forall_drop.
    + intros ->. simpl. by apply nil_length_inv in Hb as ->.
    + unfold len. lia.
Qed.

Lemma concordance_windows_witness :
  0 ≤ 1
  ∧ length (concordance (lit "mary had a little lamb mary had a little lamb")
                        (lit "lamb") 1)
    = occurrences (lit "lamb")
        (split (lit "mary had a little lamb mary had a little lamb")).
Proof.
  split; [lia|].
  apply (concordance_windows
           (lit "mary had a little lamb mary had a little lamb")
           (lit "lamb") 1 ltac:(lia)).
Defined.

(** ** Facts about [sorted] *)

Section sorted_facts.
Context {A K : Type} (key : A → K) (lt : K → K → bool).

Lemma insert_sorted_perm x l : insert_sorted key lt x l ≡ₚ x :: l.
Proof.
  induction l as [|y l IH]; simpl; [done|].
  destruct (lt (key y) (key x)); [|done].
  rewrite IH. apply Permutation_swap.
Qed.

Lemma sorted_perm l : sorted key lt l ≡ₚ l.
Proof.
  induction l as [|x l IH]; simpl; [done|].
  by rewrite insert_sorted_perm, IH.
Qed.

(** Stability: elements that the order cannot tell apart keep their
    places relative to each other. *)
Lemma insert_sorted_stable (P : A → Prop) `{∀ x, Decision (P x)} x l :
  (∀ x y, P x → P y → lt (key x) (key y) = false) →
  filter P (insert_sorted key lt x l) = filter P (x :: l).
Proof.
  intros HP. induction l as [|y l IH]; simpl; [done|].
  destruct (lt (key y) (key x)) eqn:Hlt; [|done].
  rewrite (filter_cons _ y), IH, !filter_cons.
  destruct (decide (P x)) as [Hx|Hx], (decide (P y)) as [Hy|Hy]; try done.
  by rewrite (HP y x) in Hlt.
Qed.

Lemma sorted_stable (P : A → Prop) `{∀ x, Decision (P x)} l :
  (∀ x y, P x → P y → lt (key x) (key y) = false) →
  filter P (sorted key lt l) = filter P l.
Proof.
  intros HP. induction l as [|x l IH]; simpl; [done|].
  rewrite insert_sorted_stable by done. by rewrite !filter_cons, IH.
Qed.

Hypothesis lt_asym : ∀ a b, lt a b = true → lt b a = false.
Hypothesis lt_negtrans :
  ∀ a b c, lt b a = false → lt c b = false → lt c a = false.

Lemma insert_sorted_StronglySorted x l :
  StronglySorted (in_order key lt) l →
  StronglySorted (in_order key lt) (insert_sorted key lt x l).
Proof.
  induction 1 as [|y l Hl IH Hy]; simpl; [by repeat constructor|].
  destruct (lt (key y) (key x)) eqn:Hlt.
  - constructor; [done|]. rewrite insert_sorted_perm.
    constructor; [|done]. by apply lt_asym.
  - constructor; [by constructor|]. constructor; [done|].
    eapply Forall_impl; [exact Hy|]. intros z Hz.
    unfold in_order in *. by eapply lt_negtrans.
Qed.

Lemma sorted_StronglySorted l : StronglySorted (in_order key lt) (sorted key lt l).
Proof.
  induction l as [|x l IH]; simpl; [constructor|].
  by apply insert_sorted_StronglySorted.
Qed.
End sorted_facts.

(** ** The orders on keys *)

Lemma ord_inj a b : ord a = ord b → a = b.
Proof.
  unfold ord. intros H.
  by rewrite <-(ascii_N_embedding a), <-(ascii_N_embedding b), H.
Qed.

Lemma str_lt_irrefl a : str_lt a a = false.
Proof.
  induction a as [|x a IH]; [done|]. simpl.
  by rewrite N.ltb_irrefl.
Qed.

Lemma str_lt_trans a b c :
  str_lt a b = true → str_lt b c = true → str_lt a c = true.
Proof.
  revert b c. induction a as [|x a IH]; intros [|y b] [|z c]; simpl; try done.
  destruct (N.ltb_spec (ord x) (ord y)), (N.ltb_spec (ord y) (ord x)),
    (N.ltb_spec (ord y) (ord z)), (N.ltb_spec (ord z) (ord y)),
    (N.ltb_spec (ord x) (ord z)), (N.ltb_spec (ord z) (ord x));
    try done; try lia.
  apply IH.
Qed.

Lemma str_lt_total a b : str_lt a b = false → str_lt b a = false → a = b.
Proof.
  revert b. induction a as [|x a IH]; intros [|y b]; simpl; try done.
  destruct (N.ltb_spec (ord x) (ord y)), (N.ltb_spec (ord y) (ord x));
    try done.
  intros Hab Hba. f_equal; [|by apply IH]. apply ord_inj. lia.
Qed.

(** [str_lt] decides the lexicographic order. *)
Lemma str_lt_lexicographic a b : str_lt a b = true ↔ lex_before a b.
Proof.
  unfold lex_before. revert b. induction a as [|x a IH]; intros [|y b]; simpl.
  - split; [done|]. intros [(p & ? & ? & ? & ? & _ & Hb & _)|(? & ? & ?)];
      [by destruct p|done].
  - split; [|done]. intros _. right. by exists y, b.
  - split; [done|]. intros [(p & ? & ? & ? & ? & _ & Hb & _)|(? & ? & ?)];
      [by destruct p|done].
  - destruct (N.ltb_spec (ord x) (ord y)) as [Hxy|Hxy].
    { split; [|done]. intros _. left. by exists [], x, a, y, b. }
    destruct (N.ltb_spec (ord y) (ord x)) as [Hyx|Hyx].
    { split; [done|].
      intros [(p & x' & a' & y' & b' & Ha & Hb & Hlt)|(y' & b' & Hb)].
      - destruct p; simplify_eq/=; lia.
      - simplify_eq/=. lia. }
    assert (x = y) as -> by (apply ord_inj; lia).
    rewrite IH. split.
    + intros [(p & x' & a' & y' & b' & -> & -> & Hlt)|(y' & b' & ->)].
      * left. by exists (y :: p), x', a', y', b'.
      * right. by exists y', b'.
    + intros [(p & x' & a' & y' & b' & Ha & Hb & Hlt)|(y' & b' & Hb)].
      * destruct p; simplify_eq/=; [lia|].
        left. by exists p, x', a', y', b'.
      * simplify_eq/=. right. by exists y', b'.
Qed.

Lemma tuple_lt_irrefl a : tuple_lt a a = false.
Proof. unfold tuple_lt. by rewrite Z.ltb_irrefl, str_lt_irrefl. Qed.

Lemma tuple_lt_trans a b c :
  tuple_lt a b = true → tuple_lt b c = true → tuple_lt a c = true.
Proof.
  unfold tuple_lt.
  destruct (Z.ltb_spec a.1 b.1), (Z.ltb_spec b.1 a.1),
    (Z.ltb_spec b.1 c.1), (Z.ltb_spec c.1 b.1),
    (Z.ltb_spec a.1 c.1), (Z.ltb_spec c.1 a.1);
    try done; try lia.
  apply str_lt_trans.
Qed.

Lemma tuple_lt_total a b : tuple_lt a b = false → tuple_lt b a = false → a = b.
Proof.
  unfold tuple_lt. destruct a as [a1 a2], b as [b1 b2]; simpl.
  destruct (Z.ltb_spec a1 b1), (Z.ltb_spec b1 a1); try done.
  intros Hab Hba. f_equal; [lia|by apply str_lt_total].
Qed.

Lemma tuple_lt_asym a b : tuple_lt a b = true → tuple_lt b a = false.
Proof.
  intros Hab. destruct (tuple_lt b a) eqn:Hba; [|done].
  by rewrite <-(tuple_lt_irrefl a), (tuple_lt_trans a b a).
Qed.

Lemma tuple_lt_negtrans a b c :
  tuple_lt b a = false → tuple_lt c b = false → tuple_lt c a = false.
Proof.
  intros Hba Hcb. destruct (tuple_lt c a) eqn:Hca; [|done].
  destruct (tuple_lt a b) eqn:Hab.
  - by rewrite (tuple_lt_trans c a b) in Hcb.
  - rewrite (tuple_lt_total a b) in Hca by done. congruence.
Qed.

(** ** The transition tables *)

Lemma next_loop_pairs words :
  (λ index, (at_index words index, at_index words (index + 1)))
    <$> range (len words - 1)
  = adjacent_pairs words.
Proof.
  unfold range, len, adjacent_pairs, at_index.
  destruct words as [|w words]; [done|].
  replace (Z.to_nat (Z.of_nat (length (w :: words)) - 1))
    with (length words) by (simpl; lia).
  change (drop 1 (w :: words)) with words. revert w.
  induction words as [|w' words IH]; intros w; [done|].
  cbn [length seq fmap list_fmap zip zip_with]. f_equal.
  rewrite <-fmap_S_seq, <-list_fmap_compose. apply IH.
Qed.

Lemma previous_loop_pairs words :
  (λ index, (at_index words index, at_index words (index - 1)))
    <$> range_from 1 (len words)
  = prod_swap <$> adjacent_pairs words.
Proof.
  unfold range_from, len, adjacent_pairs, at_index. rewrite Nat2Z.id.
  destruct words as [|w words]; [done|].
  change (drop 1 (w :: words)) with words.
  cbn [length]. rewrite Nat.sub_succ, Nat.sub_0_r. revert w.
  induction words as [|w' words IH]; intros w; [done|].
  cbn [length seq]. rewrite <-fmap_S_seq.
  change (zip (w :: w' :: words) (w' :: words))
    with ((w, w') :: zip (w' :: words) words).
  rewrite !fmap_cons, <-IH, <-list_fmap_compose. f_equal.
  apply list_fmap_ext. intros j i [-> _]%lookup_seq. unfold compose. simpl.
  by rewrite Nat.sub_0_r.
Qed.

Lemma append_to_lookup d k v k' :
  append_to d k v !! k'
  = if decide (k = k') then Some (default [] (d !! k) ++ [v]) else d !! k'.
Proof.
  unfold append_to. case_decide as Hk.
  - subst. apply lookup_insert_eq.
  - by apply lookup_insert_ne.
Qed.

Lemma fold_append_lookup updates d k :
  foldl append_pair d updates !! k
  = match d !! k, values_of k updates with
    | None, [] => None
    | o, vs => Some (default [] o ++ vs)
    end.
Proof.
  unfold values_of. revert d.
  induction updates as [|[k' v] updates IH]; intros d.
  - simpl. destruct (d !! k); [|done]. by rewrite app_nil_r.
  - cbn [foldl]. rewrite IH, filter_cons. unfold append_pair.
    rewrite append_to_lookup. cbn [fst snd].
    case_decide as Hk; [subst k'|].
    + csimpl. rewrite <-app_assoc. by destruct (d !! k).
    + done.
Qed.

Lemma foldl_flat_map {A B C} (f : A → B → A) (g : C → list B) a l :
  foldl f a (flat_map g l) = foldl (λ a x, foldl f a (g x)) a l.
Proof.
  revert a. induction l as [|x l IH]; intros a; [done|].
  cbn [flat_map foldl]. by rewrite foldl_app, IH.
Qed.

Lemma foldl_ext {A B} (f g : A → B → A) a l :
  (∀ a x, f a x = g a x) → foldl f a l = foldl g a l.
Proof.
  intros Hfg. revert a. induction l as [|x l IH]; intros a; [done|].
  simpl. by rewrite Hfg, IH.
Qed.

Lemma next_dict_fold text :
  next_dict text = foldl append_pair ∅ (text_pairs text).
Proof.
  unfold next_dict, text_pairs. rewrite foldl_flat_map.
  apply foldl_ext. intros d line.
  by rewrite <-next_loop_pairs, foldl_fmap.
Qed.

Lemma previous_dict_fold text :
  previous_dict text = foldl append_pair ∅ (prod_swap <$> text_pairs text).
Proof.
  unfold previous_dict, text_pairs.
  rewrite flat_map_concat_map.
  replace (prod_swap <$> concat (map (λ line, adjacent_pairs (split line))
                                     (split_on LF text)))
    with (flat_map (λ line, prod_swap <$> adjacent_pairs (split line))
                   (split_on LF text)).
  - rewrite foldl_flat_map. apply foldl_ext. intros d line.
    by rewrite <-previous_loop_pairs, foldl_fmap.
  - induction (split_on LF text) as [|line lines IH]; [done|].
    cbn [flat_map map concat]. by rewrite fmap_app, IH.
Qed.

Lemma values_of_swap k pairs :
  values_of k (prod_swap <$> pairs) = (filter (λ p, p.2 = k) pairs).*1.
Proof.
  unfold values_of. rewrite filter_fmap, <-list_fmap_compose.
  apply list_fmap_ext. by intros _ [??] _.
Qed.

(** The successor table holds, under each word that has one, the list of
    its successors in text order; other words are no keys. *)
Lemma next_dict_lookup text word :
  next_dict text !! word
  = match successors text word with
    | [] => None
    | vs => Some vs
    end.
Proof.
  rewrite next_dict_fold, fold_append_lookup, lookup_empty.
  unfold successors, values_of. by destruct (_.*2).
Qed.

Lemma previous_dict_lookup text word :
  previous_dict text !! word
  = match predecessors text word with
    | [] => None
    | vs => Some vs
    end.
Proof.
  rewrite previous_dict_fold, fold_append_lookup, lookup_empty.
  rewrite values_of_swap. unfold predecessors. by destruct (_.*1).
Qed.

Lemma adjacent_pairs_lookup words i a b :
  adjacent_pairs words !! i = Some (a, b)
  ↔ words !! i = Some a ∧ words !! (i + 1)%nat = Some b.
Proof.
  unfold adjacent_pairs. rewrite lookup_zip_with_Some.
  setoid_rewrite lookup_drop. rewrite (Nat.add_comm 1 i). split.
  - by intros (x & y & [= -> ->] & ? & ?).
  - intros [? ?]. by exists a, b.
Qed.

Lemma adjacent_pairs_first words word :
  (∃ p, p ∈ adjacent_pairs words ∧ p.1 = word)
  ↔ ∃ i, words !! i = Some word ∧ (i + 1 < length words)%nat.
Proof.
  split.
  - intros ([a b] & [i Hi]%list_elem_of_lookup & Hp). simpl in Hp. subst a.
    apply adjacent_pairs_lookup in Hi as [Ha Hb]. exists i. split; [done|].
    by eapply lookup_lt_Some.
  - intros (i & Ha & Hlt). destruct (lookup_lt_is_Some_2 words (i + 1) Hlt) as [b Hb].
    exists (word, b). split; [|done]. apply list_elem_of_lookup. exists i.
    by apply adjacent_pairs_lookup.
Qed.

Lemma adjacent_pairs_second words word :
  (∃ p, p ∈ adjacent_pairs words ∧ p.2 = word)
  ↔ ∃ i, words !! i = Some word ∧ (0 < i)%nat.
Proof.
  split.
  - intros ([a b] & [i Hi]%list_elem_of_lookup & Hp). simpl in Hp. subst b.
    apply adjacent_pairs_lookup in Hi as [Ha Hb]. exists (i + 1)%nat.
    split; [done|lia].
  - intros (i & Hb & Hlt). destruct i as [|i]; [lia|].
    assert (i < length words)%nat as Hi
      by (apply lookup_lt_Some in Hb; lia).
    destruct (lookup_lt_is_Some_2 words i Hi) as [a Ha].
    exists (a, word). split; [|done]. apply list_elem_of_lookup. exists i.
    apply adjacent_pairs_lookup. by rewrite Nat.add_1_r.
Qed.

Lemma text_pairs_elem text p :
  p ∈ text_pairs text
  ↔ ∃ line, line ∈ split_on LF text ∧ p ∈ adjacent_pairs (split line).
Proof.
  unfold text_pairs. rewrite list_elem_of_In, in_flat_map.
  by setoid_rewrite list_elem_of_In.
Qed.

Lemma filter_nonempty {A} (P : A → Prop) `{∀ x, Decision (P x)} (l : list A) :
  filter P l ≠ [] ↔ ∃ x, x ∈ l ∧ P x.
Proof.
  split.
  - destruct (filter P l) as [|x l'] eqn:Hf; [done|]. intros _.
    assert (x ∈ filter P l) as Hx by (rewrite Hf; by left).
    apply list_elem_of_filter in Hx as [? ?]. by exists x.
  - intros (x & Hx & HPx) Hf.
    by eapply filter_nil_not_elem_of.
Qed.

Lemma successors_nonempty text word :
  successors text word ≠ [] ↔ in_non_last_position text word.
Proof.
  unfold successors, in_non_last_position. split.
  - intros Hne.
    assert (filter (λ p, p.1 = word) (text_pairs text) ≠ []) as Hf
      by (intros Hf; apply Hne; by rewrite Hf).
    apply filter_nonempty in Hf as (p & Hp & Hw).
    apply text_pairs_elem in Hp as (line & Hline & Hp).
    destruct (proj1 (adjacent_pairs_first (split line) word)) as (i & ? & ?);
      [by exists p|]. by exists line, i.
  - intros (line & i & Hline & Hi & Hlt) Hs%fmap_nil_inv. revert Hs.
    apply filter_nonempty.
    destruct (proj2 (adjacent_pairs_first (split line) word)) as (p & ? & ?);
      [by exists i|].
    exists p. split; [|done]. apply text_pairs_elem. by exists line.
Qed.

Lemma predecessors_nonempty text word :
  predecessors text word ≠ [] ↔ in_non_first_position text word.
Proof.
  unfold predecessors, in_non_first_position. split.
  - intros Hne.
    assert (filter (λ p, p.2 = word) (text_pairs text) ≠ []) as Hf
      by (intros Hf; apply Hne; by rewrite Hf).
    apply filter_nonempty in Hf as (p & Hp & Hw).
    apply text_pairs_elem in Hp as (line & Hline & Hp).
    destruct (proj1 (adjacent_pairs_second (split line) word)) as (i & ? & ?);
      [by exists p|]. by exists line, i.
  - intros (line & i & Hline & Hi & Hlt) Hs%fmap_nil_inv. revert Hs.
    apply filter_nonempty.
    destruct (proj2 (adjacent_pairs_second (split line) word)) as (p & ? & ?);
      [by exists i|].
    exists p. split; [|done]. apply text_pairs_elem. by exists line.
Qed.

(** ** The ranking of the neighbours *)

Lemma most_common_perm d : most_common d ≡ₚ d.
Proof. apply sorted_perm. Qed.

Lemma ranked_perm l : ranked l ≡ₚ Counter l.
Proof. unfold ranked. by rewrite sorted_perm, most_common_perm. Qed.

Lemma ranked_nonempty l : l ≠ [] → ranked l ≠ [].
Proof.
  intros Hl Hr. pose proof (ranked_perm l) as Hp. rewrite Hr in Hp.
  apply Permutation_nil_l in Hp. destruct l as [|x l]; [done|].
  assert (x ∈ (Counter (x :: l)).*1) as Hx by (apply Counter_keys; by left).
  rewrite <-Hp in Hx. by apply elem_of_nil in Hx.
Qed.

Lemma likely_key_order x y :
  tuple_lt (likely_key x) (likely_key y) = true ↔ ranks_before x y.
Proof.
  unfold tuple_lt, likely_key, ranks_before. simpl.
  rewrite <-str_lt_lexicographic.
  destruct (Z.ltb_spec (- Z.of_nat x.2) (- Z.of_nat y.2)).
  { split; [|done]. intros _. left. lia. }
  destruct (Z.ltb_spec (- Z.of_nat y.2) (- Z.of_nat x.2)).
  { split; [done|]. intros [?|[? _]]; lia. }
  split.
  - intros ?. right. split; [lia|done].
  - intros [?|[_ ?]]; [lia|done].
Qed.

Lemma StronglySorted_impl {A} (R R' : relation A) l :
  (∀ x y, R x y → R' x y) → StronglySorted R l → StronglySorted R' l.
Proof.
  intros HR. induction 1 as [|x l Hl IH Hx]; constructor; [done|].
  eapply Forall_impl; [exact Hx|]. apply HR.
Qed.

Lemma StronglySorted_strict {A B} (R R' : relation A) (f : A → B) l :
  (∀ x y, x ∈ l → y ∈ l → R x y → f x ≠ f y → R' x y) →
  StronglySorted R l → NoDup (f <$> l) → StronglySorted R' l.
Proof.
  intros HR Hs. induction Hs as [|x l Hl IH Hx]; [constructor|].
  rewrite fmap_cons. intros [Hnx Hnd]%NoDup_cons.
  constructor.
  - apply IH; [|done]. intros y z Hy Hz. apply HR; by right.
  - apply Forall_forall. intros y Hy. apply HR; [by left|by right| |].
    + by eapply Forall_forall in Hx.
    + intros Heq. apply Hnx. rewrite Heq. by apply list_elem_of_fmap_2.
Qed.

(** The ranking of a word's neighbours is strictly ordered: no two entries
    tie, since their words differ. *)
Lemma ranked_sorted l : StronglySorted ranks_before (ranked l).
Proof.
  apply (StronglySorted_strict (in_order likely_key tuple_lt) _ fst).
  - unfold in_order. intros x y _ _ Hyx Hne. apply likely_key_order.
    destruct (tuple_lt (likely_key x) (likely_key y)) eqn:Hxy; [done|].
    destruct Hne. by apply (f_equal snd (tuple_lt_total _ _ Hxy Hyx)).
  - apply sorted_StronglySorted;
      [apply tuple_lt_asym|apply tuple_lt_negtrans].
  - rewrite ranked_perm. apply Counter_NoDup.
Qed.

Lemma slice_prefix {A} (l : list A) n :
  0 ≤ n → slice l 0 n = take (Z.to_nat n) l.
Proof.
  intros Hn. rewrite <-(Z2Nat.id n) at 1 by done.
  change 0 with (Z.of_nat 0). by rewrite slice_of_nat, Nat.sub_0_r.
Qed.

(** What the two queries return, in terms of the neighbours of [word]. *)
Lemma likely_next_eq text word n :
  likely_next text word n
  = match successors text word with
    | [] => raise (KeyError word)
    | vs => ret (slice (ranked vs) 0 n)
    end.
Proof.
  unfold likely_next, lookup_key.
  rewrite lookup_fmap, next_dict_lookup.
  by destruct (successors text word).
Qed.

Lemma likely_previous_eq text word n :
  likely_previous text word n
  = match predecessors text word with
    | [] => raise (KeyError word)
    | vs => ret (slice (ranked vs) 0 n)
    end.
Proof.
  unfold likely_previous, lookup_key.
  rewrite lookup_fmap, previous_dict_lookup.
  by destruct (predecessors text word).
Qed.

(** C1.  For [n >= 1], [likely_next] raises [KeyError] exactly when [word]
    never stands in a non-last position of a line, that is, when it is no
    key of the successor table; [likely_previous] raises [KeyError] exactly
    when [word] never stands in a non-first position of a line, that is,
    when it is no key of the predecessor table.  A word that is a key gets
    the first [n] entries of its ranking: a non-empty list, shorter than
    [n] when the word has fewer than [n] distinct neighbours, and no error. *)
Theorem likely_raises_iff_unseen (text word : str) (n : Z) :
  1 ≤ n →
  (likely_next text word n = raise (KeyError word)
   ↔ ¬ in_non_last_position text word)
  ∧ (likely_previous text word n = raise (KeyError word)
     ↔ ¬ in_non_first_position text word)
  ∧ (in_non_last_position text word →
     ∃ l, likely_next text word n = ret l ∧ l ≠ []
          ∧ l = take (Z.to_nat n) (ranked (successors text word))
          ∧ length l
            = Nat.min (Z.to_nat n) (length (Counter (successors text word))))
  ∧ (in_non_first_position text word →
     ∃ l, likely_previous text word n = ret l ∧ l ≠ []
          ∧ l = take (Z.to_nat n) (ranked (predecessors text word))
          ∧ length l
            = Nat.min (Z.to_nat n) (length (Counter (predecessors text word)))).
Proof.
  intros Hn.
  assert (∀ vs : list str, vs ≠ [] →
            take (Z.to_nat n) (ranked vs) ≠ []
            ∧ length (take (Z.to_nat n) (ranked vs))
              = Nat.min (Z.to_nat n) (length (Counter vs))) as Htake.
  { intros vs Hvs. pose proof (ranked_nonempty vs Hvs) as Hr. split.
    - destruct (ranked vs); [done|].
      by replace (Z.to_nat n) with (S (Z.to_nat (n - 1))) by lia.
    - by rewrite length_take, (Permutation_length (ranked_perm vs)). }
  rewrite likely_next_eq, likely_previous_eq.
  rewrite <-successors_nonempty, <-predecessors_nonempty.
  split_and!.
  - destruct (successors text word) as [|v vs].
    + split; [by intros _ ?|done].
    + split; [done|]. intros Hne. by destruct Hne.
  - destruct (predecessors text word) as [|v vs].
    + split; [by intros _ ?|done].
    + split; [done|]. intros Hne. by destruct Hne.
  - intros Hs. exists (take (Z.to_nat n) (ranked (successors text word))).
    destruct (Htake _ Hs) as [? ?].
    destruct (successors text word) eqn:E; [done|].
    by rewrite slice_prefix by lia.
  - intros Hs. exists (take (Z.to_nat n) (ranked (predecessors text word))).
    destruct (Htake _ Hs) as [? ?].
    destruct (predecessors text word) eqn:E; [done|].
    by rewrite slice_prefix by lia.
Qed.

Lemma likely_raises_iff_unseen_witness :
  1 ≤ 1
  ∧ (likely_previous (lit "mary had a little lamb") (lit "zebra") 1
     = raise (KeyError (lit "zebra"))
     ↔ ¬ in_non_first_position (lit "mary had a little lamb") (lit "zebra")).
Proof.
  split; [lia|].
  apply (likely_raises_iff_unseen (lit "mary had a little lamb")
           (lit "zebra") 1 ltac:(lia)).
Defined.

(** C6.  Whenever [likely_next] or [likely_previous] returns a list for a
    word of its table and [n >= 0], the list is ordered by count
    descending, ties broken by the neighbour word ascending in the
    lexicographic order of the code points of the raw tokens, and it has
    at most [n] entries. *)
Theorem likely_sorted_by_rank (text word : str) (n : Z) (l : list (str * nat)) :
  0 ≤ n →
  likely_next text word n = ret l ∨ likely_previous text word n = ret l →
  StronglySorted ranks_before l ∧ len l ≤ n.
Proof.
  intros Hn Hl.
  assert (∃ vs, l = take (Z.to_nat n) (ranked vs)) as [vs ->].
  { destruct Hl as [Hl|Hl].
    - rewrite likely_next_eq in Hl. destruct (successors text word) as [|v vs];
        [done|]. exists (v :: vs). rewrite slice_prefix in Hl by done.
      by inversion Hl.
    - rewrite likely_previous_eq in Hl.
      destruct (predecessors text word) as [|v vs]; [done|].
      exists (v :: vs). rewrite slice_prefix in Hl by done. by inversion Hl. }
  split.
  - pose proof (ranked_sorted vs) as Hs.
    rewrite <-(take_drop (Z.to_nat n) (ranked vs)) in Hs.
    by apply StronglySorted_app_1_l in Hs.
  - unfold len. rewrite length_take. lia.
Qed.

Lemma likely_sorted_by_rank_witness :
  (likely_next (lit "a c a b a b a d a A") (lit "a") 3
   = ret [(lit "b", 2%nat); (lit "A", 1%nat); (lit "c", 1%nat)]
   ∧ StronglySorted ranks_before
       [(lit "b", 2%nat); (lit "A", 1%nat); (lit "c", 1%nat)]
   ∧ len [(lit "b", 2%nat); (lit "A", 1%nat); (lit "c", 1%nat)] ≤ 3)
  ∧ (likely_previous (lit "a c a b a b a d a A") (lit "a") 2
     = ret [(lit "b", 2%nat); (lit "c", 1%nat)]
     ∧ StronglySorted ranks_before [(lit "b", 2%nat); (lit "c", 1%nat)]
     ∧ len [(lit "b", 2%nat); (lit "c", 1%nat)] ≤ 2).
Proof.
  assert (likely_next (lit "a c a b a b a d a A") (lit "a") 3
          = ret [(lit "b", 2%nat); (lit "A", 1%nat); (lit "c", 1%nat)])
    as Hnext by (vm_compute; reflexivity).
  assert (likely_previous (lit "a c a b a b a d a A") (lit "a") 2
          = ret [(lit "b", 2%nat); (lit "c", 1%nat)])
    as Hprevious by (vm_compute; reflexivity).
  split; (split; [done|]).
  - apply (likely_sorted_by_rank (lit "a c a b a b a d a A") (lit "a") 3);
      [lia|by left].
  - apply (likely_sorted_by_rank (lit "a c a b a b a d a A") (lit "a") 2);
      [lia|by right].
Defined.

(** ** The ranking of the [ngrams] command *)

Lemma ngrams_key_order x y :
  tuple_lt (ngrams_key x) (ngrams_key y) = true ↔ ngrams_ranks_before x y.
Proof.
  unfold tuple_lt, ngrams_key, ngrams_ranks_before. simpl.
  rewrite <-str_lt_lexicographic.
  destruct (Z.ltb_spec (- Z.of_nat x.2) (- Z.of_nat y.2)).
  { split; [|done]. intros _. left. lia. }
  destruct (Z.ltb_spec (- Z.of_nat y.2) (- Z.of_nat x.2)).
  { split; [done|]. intros [?|[? _]]; lia. }
  split.
  - intros ?. right. split; [lia|done].
  - intros [?|[_ ?]]; [lia|done].
Qed.

Lemma ngrams_key_tie x y : ngrams_key x = ngrams_key y ↔ ngrams_tie x y.
Proof.
  unfold ngrams_key, ngrams_tie. split.
  - intros [= ? ?]. split; [lia|done].
  - intros [-> ->]. done.
Qed.

Lemma ngrams_ranked_perm text n : ngrams_ranked text n ≡ₚ ngrams text n.
Proof. unfold ngrams_ranked. by rewrite sorted_perm, most_common_perm. Qed.

(** C8 does not hold as stated: the entries for [The] and [the],
    each counted once, tie under the rule of the presentation, so the
    ranking is not strictly ordered by it; their order follows the
    document, and swapping the two words swaps the two entries. *)
Lemma ngrams_ranked_tie_unresolved :
  ngrams_ranked (lit "The the") 1 = [(lit "The", 1%nat); (lit "the", 1%nat)]
  ∧ ngrams_ranked (lit "the The") 1 = [(lit "the", 1%nat); (lit "The", 1%nat)]
  ∧ ¬ StronglySorted ngrams_ranks_before (ngrams_ranked (lit "The the") 1).
Proof.
  split_and!; [done|done|].
  change (ngrams_ranked (lit "The the") 1)
    with [(lit "The", 1%nat); (lit "the", 1%nat)].
  intros Hs. apply StronglySorted_inv in Hs as [_ Hall].
  apply Forall_cons in Hall as [[Hlt|[_ Hlt]] _]; simpl in Hlt; [lia|].
  apply str_lt_lexicographic in Hlt. by vm_compute in Hlt.
Qed.

Lemma ngrams_ranked_sorted text n :
  StronglySorted (λ x y, ngrams_ranks_before x y ∨ ngrams_tie x y)
                 (ngrams_ranked text n).
Proof.
  eapply StronglySorted_impl;
    [|apply (sorted_StronglySorted ngrams_key tuple_lt);
      [apply tuple_lt_asym|apply tuple_lt_negtrans]].
  intros x y Hyx. unfold in_order in Hyx.
  destruct (tuple_lt (ngrams_key x) (ngrams_key y)) eqn:Hxy.
  - left. by apply ngrams_key_order.
  - right. by apply ngrams_key_tie, tuple_lt_total.
Qed.

Lemma ngrams_ranked_stable text n x :
  filter (ngrams_tie x) (ngrams_ranked text n)
  = filter (ngrams_tie x) (ngrams text n).
Proof.
  unfold ngrams_ranked, most_common. rewrite sorted_stable.
  - apply sorted_stable. intros y z [Hy _] [Hz _]. apply Nat.ltb_ge. lia.
  - intros y z Hy Hz.
    replace (ngrams_key y) with (ngrams_key z); [apply tuple_lt_irrefl|].
    apply ngrams_key_tie. destruct Hy as [Hy1 Hy2], Hz as [Hz1 Hz2].
    split; congruence.
Qed.

Lemma ngrams_list_Forall (Q : ascii → Prop) text n :
  Q SP → Forall Q text → Forall (Forall Q) (ngrams_list text n).
Proof.
  intros HSP Ht. unfold ngrams_list. apply Forall_flat_map.
  eapply Forall_impl; [by apply (split_on_Forall Q LF)|].
  intros line Hline. cbn beta zeta.
  pose proof (split_Forall Q line Hline) as Hwords.
  induction (range (len (split line))) as [|i indices IH]; [constructor|].
  cbn [ngrams_loop]. destruct (_ >? _); [constructor|].
  constructor; [|done].
  apply join_Forall; [by repeat constructor|by apply slice_Forall].
Qed.

(** In a lower-case text, such as a cleaned body, no two entries tie. *)
Lemma ngrams_ranked_strict text n :
  lower text = text →
  StronglySorted ngrams_ranks_before (ngrams_ranked text n).
Proof.
  intros Hlow%lower_fixed_inv.
  assert (∀ z, z ∈ ngrams_ranked text n → lower z.1 = z.1) as Hfix.
  { intros z Hz. apply lower_fixed. rewrite ngrams_ranked_perm in Hz.
    assert (z.1 ∈ (ngrams text n).*1) as Hkey by by apply list_elem_of_fmap_2.
    unfold ngrams in Hkey. rewrite Counter_keys in Hkey.
    pose proof (ngrams_list_Forall _ text n eq_refl Hlow) as Hall.
    by eapply Forall_forall in Hall. }
  apply (StronglySorted_strict
           (λ x y, ngrams_ranks_before x y ∨ ngrams_tie x y) _ fst).
  - intros x y Hx Hy [?|[_ Htie]] Hne; [done|]. destruct Hne.
    by rewrite <-(Hfix x), <-(Hfix y).
  - apply ngrams_ranked_sorted.
  - rewrite ngrams_ranked_perm. apply Counter_NoDup.
Qed.

(** C8, amended.  The ranking of the [ngrams] command is a rearrangement of
    the counted n-grams in which any two entries either follow the rule
    (count descending, then the lower-cased text ascending) or tie under
    it, having the same count and the same text up to letter case; entries
    that tie keep the order of their first occurrence in the document, and
    in a lower-case document no two entries tie.  The rankings of
    [likely_next] and [likely_previous] are strictly ordered by count
    descending, then word ascending: there no two entries tie. *)
Theorem ranked_outputs_ordered (text : str) (n : Z) :
  ngrams_ranked text n ≡ₚ ngrams text n
  ∧ StronglySorted (λ x y, ngrams_ranks_before x y ∨ ngrams_tie x y)
                   (ngrams_ranked text n)
  ∧ (∀ x, filter (ngrams_tie x) (ngrams_ranked text n)
          = filter (ngrams_tie x) (ngrams text n))
  ∧ (lower text = text →
     StronglySorted ngrams_ranks_before (ngrams_ranked text n))
  ∧ (∀ neighbours, StronglySorted ranks_before (ranked neighbours)).
Proof.
  split_and!.
  - apply ngrams_ranked_perm.
  - apply ngrams_ranked_sorted.
  - apply ngrams_ranked_stable.
  - apply ngrams_ranked_strict.
  - apply ranked_sorted.
Qed.

(** ** [display_concordance] on an empty and on a non-empty concordance *)

(** With no window there is no column of strings to measure: the subscript
    [[0]] on the empty list of columns raises [IndexError]. *)
Lemma display_concordance_empty text word neighborhood_size :
  concordance text word neighborhood_size = [] →
  display_concordance text word neighborhood_size = raise IndexError.
Proof. unfold display_concordance. by intros ->. Qed.

Lemma setitem_in_range {A} (l : list A) i x :
  0 ≤ i < len l → setitem l i x = ret (<[Z.to_nat i := x]> l).
Proof.
  intros [Hi Hl]. unfold setitem.
  destruct (Z.ltb_spec i 0); [lia|].
  destruct (Z.leb_spec 0 i); [|lia].
  destruct (Z.ltb_spec i (len l)); [done|lia].
Qed.

(** With at least one window the call returns a string. *)
Lemma display_concordance_nonempty text word neighborhood_size :
  concordance text word neighborhood_size ≠ [] →
  ∃ display, display_concordance text word neighborhood_size = ret display.
Proof.
  unfold display_concordance.
  destruct (concordance text word neighborhood_size) as [|w ws]; [done|].
  intros _. cbn [zip_star getitem lookup list_lookup bind ret].
  rewrite !fmap_cons. cbn [max_of bind ret].
  set (line := λ element : str * str, _).
  change (line <$> w :: ws) with (line w :: (line <$> ws)).
  cbn [getitem lookup list_lookup bind ret].
  rewrite setitem_in_range by (unfold len; simpl; lia).
  cbn [bind ret]. set (display := <[Z.to_nat 0:=_]> (_ :: _)).
  assert (0 < len display) as Hlen.
  { unfold display, len. rewrite length_insert. simpl. lia. }
  destruct (lookup_lt_is_Some_2 display (Z.to_nat (len display - 1)))
    as [last Hlast]; [unfold len in *; lia|].
  unfold getitem at 1. rewrite Hlast. cbn [bind ret].
  rewrite setitem_in_range by lia. by eexists.
Qed.

(** C5.  The call on a document without the word does not return: the
    concordance of [c] in the text [a b] is empty, and [display_concordance]
    raises [IndexError] on it. *)
Theorem display_concordance_raises_when_empty :
  concordance (lit "a b") (lit "c") 10 = []
  ∧ display_concordance (lit "a b") (lit "c") 10 = raise IndexError.
Proof. split; [done|]. by apply display_concordance_empty. Qed.

(** ** Facts about stripping *)

Section strip_facts.
Context (p : ascii → bool).

Lemma lstrip_by_decomp s :
  ∃ pre, s = pre ++ lstrip_by p s ∧ Forall (λ a, p a = true) pre.
Proof.
  induction s as [|a s (pre & Hs & Hpre)]; simpl.
  - by exists [].
  - destruct (p a) eqn:Ha.
    + exists (a :: pre). split; [by rewrite <-app_comm_cons, <-Hs|].
      by constructor.
    + by exists [].
Qed.

Lemma lstrip_by_head s a r : lstrip_by p s = a :: r → p a = false.
Proof.
  induction s as [|b s IH]; simpl; [done|].
  destruct (p b) eqn:Hb; [done|]. by intros [= <- _].
Qed.

Lemma lstrip_by_keep s t :
  Exists (λ a, p a = false) s → lstrip_by p (s ++ t) = lstrip_by p s ++ t.
Proof.
  induction 1 as [a s Ha|a s _ IH]; simpl.
  - by rewrite Ha.
  - by destruct (p a).
Qed.

Lemma lstrip_by_all s t :
  Forall (λ a, p a = true) s → lstrip_by p (s ++ t) = lstrip_by p t.
Proof. induction 1 as [|a s Ha _ IH]; simpl; [done|]. by rewrite Ha. Qed.

Lemma lstrip_by_id a s : p a = false → lstrip_by p (a :: s) = a :: s.
Proof. intros Ha. simpl. by rewrite Ha. Qed.

Lemma lstrip_by_none s : Forall (λ a, p a = false) s → lstrip_by p s = s.
Proof. destruct 1 as [|a s Ha _]; [done|]. by apply lstrip_by_id. Qed.

Lemma rstrip_by_decomp s :
  ∃ post, s = rstrip_by p s ++ post ∧ Forall (λ a, p a = true) post.
Proof.
  unfold rstrip_by. destruct (lstrip_by_decomp (rev s)) as (pre & Hs & Hpre).
  exists (rev pre). split; [|by apply Forall_rev].
  by rewrite <-rev_app_distr, <-Hs, rev_involutive.
Qed.

Lemma rstrip_by_last s front a : rstrip_by p s = front ++ [a] → p a = false.
Proof.
  unfold rstrip_by. intros Hs. apply (f_equal (@rev _)) in Hs.
  rewrite rev_involutive, rev_app_distr in Hs. simpl in Hs.
  by eapply lstrip_by_head.
Qed.

Lemma rstrip_by_keep s t :
  Exists (λ a, p a = false) t → rstrip_by p (s ++ t) = s ++ rstrip_by p t.
Proof.
  intros Ht. unfold rstrip_by.
  rewrite rev_app_distr, lstrip_by_keep, rev_app_distr, rev_involutive;
    [done|].
  apply Exists_exists in Ht as (a & Ha & Hpa). apply Exists_exists.
  exists a. split; [|done].
  apply list_elem_of_In. rewrite <-in_rev. by apply list_elem_of_In.
Qed.

Lemma rstrip_by_snoc_all s t :
  Forall (λ a, p a = true) t → rstrip_by p (s ++ t) = rstrip_by p s.
Proof.
  intros Ht. unfold rstrip_by.
  by rewrite rev_app_distr, lstrip_by_all by by apply Forall_rev.
Qed.

Lemma rstrip_by_id s a : p a = false → rstrip_by p (s ++ [a]) = s ++ [a].
Proof.
  intros Ha. unfold rstrip_by. rewrite rev_app_distr. simpl.
  rewrite Ha. simpl. by rewrite rev_involutive.
Qed.

Lemma rstrip_by_none s : Forall (λ a, p a = false) s → rstrip_by p s = s.
Proof.
  intros Hs. unfold rstrip_by.
  by rewrite lstrip_by_none, rev_involutive by by apply Forall_rev.
Qed.

Lemma strip_by_none s : Forall (λ a, p a = false) s → strip_by p s = s.
Proof.
  intros Hs. unfold strip_by. by rewrite lstrip_by_none, rstrip_by_none.
Qed.

(** The stripped string is the string without a leading and a trailing
    run of strippable characters, and it neither begins nor ends with
    one. *)
Lemma strip_by_decomp s :
  ∃ pre post,
    s = pre ++ strip_by p s ++ post
    ∧ Forall (λ a, p a = true) pre ∧ Forall (λ a, p a = true) post
    ∧ (∀ a r, strip_by p s = a :: r → p a = false)
    ∧ (∀ front a, strip_by p s = front ++ [a] → p a = false).
Proof.
  unfold strip_by.
  destruct (lstrip_by_decomp s) as (pre & Hs & Hpre).
  destruct (rstrip_by_decomp (lstrip_by p s)) as (post & Hl & Hpost).
  exists pre, post. split_and!; [by rewrite <-Hl|done|done| |].
  - intros a r Hr. rewrite Hr in Hl. by eapply lstrip_by_head.
  - apply rstrip_by_last.
Qed.

Lemma strip_by_sublist (Q : ascii → Prop) s :
  Forall Q s → Forall Q (strip_by p s).
Proof.
  destruct (strip_by_decomp s) as (pre & post & Hs & _).
  rewrite Hs at 1. by intros [_ [? _]%Forall_app]%Forall_app.
Qed.

(** Between two parts that keep something, the middle is untouched. *)
Lemma strip_by_middle s m t :
  Exists (λ a, p a = false) s → Exists (λ a, p a = false) t →
  strip_by p (s ++ m ++ t) = lstrip_by p s ++ m ++ rstrip_by p t.
Proof.
  intros Hs Ht. unfold strip_by.
  rewrite lstrip_by_keep by done.
  by rewrite !app_assoc, rstrip_by_keep by done.
Qed.

Lemma strip_by_fixed s :
  (∀ a r, s = a :: r → p a = false) →
  (∀ front a, s = front ++ [a] → p a = false) →
  strip_by p s = s.
Proof.
  intros Hfirst Hlast. unfold strip_by.
  destruct s as [|a r]; [done|]. rewrite lstrip_by_id by by eapply Hfirst.
  destruct (a :: r) as [|b front _] using rev_ind; [done|].
  apply rstrip_by_id. by eapply Hlast.
Qed.

Lemma strip_by_idemp s : strip_by p (strip_by p s) = strip_by p s.
Proof.
  destruct (strip_by_decomp s) as (_ & _ & _ & _ & _ & Hfirst & Hlast).
  by apply strip_by_fixed.
Qed.
End strip_facts.

(** ** Facts about the cleaning steps *)

Lemma replace_delete old s : replace old [] s = filter (λ a, a ≠ old) s.
Proof.
  unfold replace. induction s as [|a s IH]; [done|].
  cbn [flat_map]. rewrite filter_cons, IH. by repeat case_decide.
Qed.

Lemma replace_absent old new s : old ∉ s → replace old new s = s.
Proof.
  unfold replace. induction s as [|a s IH]; [done|].
  intros [Ha Hs]%not_elem_of_cons. cbn [flat_map].
  rewrite decide_False by done. by rewrite IH.
Qed.

Lemma replace_Forall (Q : ascii → Prop) old new s :
  Forall Q new → Forall Q s → Forall Q (replace old new s).
Proof.
  intros Hnew. unfold replace. induction 1 as [|a s Ha _ IH]; [constructor|].
  cbn [flat_map]. apply Forall_app. split; [|done].
  case_decide; [done|by repeat constructor].
Qed.

Lemma replace_removes old new s : old ∉ new → old ∉ replace old new s.
Proof.
  intros Hnew. unfold replace. induction s as [|a s IH].
  - by intros ?%elem_of_nil.
  - cbn [flat_map]. rewrite elem_of_app. intros [Ha|Hs]; [|done].
    case_decide; [done|]. apply list_elem_of_singleton in Ha. congruence.
Qed.

Lemma remove_chars_filter chars s :
  foldl (λ text c, replace c [] text) s chars = filter (λ a, a ∉ chars) s.
Proof.
  revert s. induction chars as [|c chars IH]; intros s.
  - simpl. symmetry. induction s as [|a s IHs]; [done|].
    rewrite filter_cons_True by apply not_elem_of_nil. by rewrite IHs.
  - cbn [foldl]. rewrite IH, replace_delete, list_filter_filter.
    apply list_filter_iff. intros a. rewrite not_elem_of_cons. tauto.
Qed.

Lemma remove_punct_filter s : remove_punct s = filter (λ a, a ∉ punct) s.
Proof. apply remove_chars_filter. Qed.

Lemma remove_punct_free s : Forall (λ a, a ∉ punct) (remove_punct s).
Proof.
  rewrite remove_punct_filter. apply Forall_forall.
  by intros a [? _]%list_elem_of_filter.
Qed.

Lemma remove_punct_id s : Forall (λ a, a ∉ punct) s → remove_punct s = s.
Proof.
  rewrite remove_punct_filter. induction 1 as [|a s Ha _ IH]; [done|].
  by rewrite filter_cons_True, IH.
Qed.

Lemma remove_punct_Forall (Q : ascii → Prop) s :
  Forall Q s → Forall Q (remove_punct s).
Proof.
  rewrite remove_punct_filter, !Forall_forall.
  intros Hs a [_ Ha]%list_elem_of_filter. by apply Hs.
Qed.

Lemma split_paragraphs_no_LF s : LF ∉ s → split_paragraphs s = [s].
Proof.
  induction s as [|a s IH]; [done|].
  intros [Ha Hs]%not_elem_of_cons. cbn [split_paragraphs].
  rewrite IH by done. by rewrite decide_False by done.
Qed.

Lemma split_paragraphs_Forall (Q : ascii → Prop) s :
  Forall Q s → Forall (Forall Q) (split_paragraphs s).
Proof.
  induction s as [s IH] using (induction_ltof1 _ (@length _)).
  unfold ltof in IH. destruct s as [|a s].
  - by repeat constructor.
  - intros [Ha Hs]%Forall_cons. cbn [split_paragraphs].
    assert (Forall (Forall Q)
              match split_paragraphs s with
              | [] => [[a]]
              | piece :: pieces => (a :: piece) :: pieces
              end) as Hkeep.
    { pose proof (IH s ltac:(simpl; lia) Hs) as IHs.
      destruct (split_paragraphs s) as [|piece pieces];
        [by repeat constructor|].
      apply Forall_cons in IHs as [? ?]. by repeat constructor. }
    case_decide; [|done]. destruct s as [|b s]; [done|].
    case_decide; [|done]. apply Forall_cons in Hs as [_ Hs].
    constructor; [constructor|]. apply IH; [simpl; lia|done].
Qed.

Lemma remove_header_Forall (Q : str → Prop) file :
  Forall Q file → Forall Q (remove_header file).
Proof.
  intros Hf. unfold remove_header.
  destruct (list_find _ file) as [[ix ?]|]; [|done]. by apply Forall_drop.
Qed.

Lemma remove_footer_Forall (Q : str → Prop) file :
  Forall Q file → Forall Q (remove_footer file).
Proof.
  intros Hf. unfold remove_footer.
  destruct (list_find _ (rev file)) as [[ix ?]|]; [|done]. by apply Forall_take.
Qed.

Lemma remove_header_single c :
  startswith c head = false → remove_header [c] = [c].
Proof.
  intros Hc. unfold remove_header. cbn [list_find].
  rewrite decide_False; [done|]. by intros ?%Is_true_true; congruence.
Qed.

Lemma remove_footer_single c :
  startswith c foot = false → remove_footer [c] = [c].
Proof.
  intros Hc. unfold remove_footer. cbn [rev app list_find].
  rewrite decide_False; [done|]. by intros ?%Is_true_true; congruence.
Qed.

Lemma clean_block_line text : clean_block text = clean_line text ++ [LF].
Proof. done. Qed.

Lemma clean_blocks_body file :
  clean_blocks file
  = clean_block <$> filter (λ text, [] ≠ text) (body_blocks file).
Proof. done. Qed.

Lemma clean_line_no_LF text : LF ∉ clean_line text.
Proof.
  unfold clean_line. rewrite remove_punct_filter.
  intros [_ Hin]%list_elem_of_filter. revert Hin. apply replace_removes.
  by intros [= ]%list_elem_of_singleton.
Qed.

Lemma clean_line_Forall (Q : ascii → Prop) text :
  Q SP → Forall Q text → Forall Q (clean_line text).
Proof.
  intros HSP Ht. unfold clean_line.
  apply remove_punct_Forall, replace_Forall; [by repeat constructor|].
  by apply strip_by_sublist.
Qed.

Lemma clean_line_punct_free text : Forall (λ a, a ∉ punct) (clean_line text).
Proof. apply remove_punct_free. Qed.

Lemma body_blocks_Forall (Q : ascii → Prop) file :
  Forall Q (lower file) → Forall (Forall Q) (body_blocks file).
Proof.
  intros Hf. unfold body_blocks.
  by apply remove_footer_Forall, remove_header_Forall, split_paragraphs_Forall.
Qed.

(** Every character of the cleaned body satisfies what the space and the
    newline satisfy together with every character of a cleaned line. *)
Lemma clean_Forall (Q : ascii → Prop) file :
  Q LF →
  (∀ text, text ∈ body_blocks file → Forall Q (clean_line text)) →
  Forall Q (clean file).
Proof.
  intros HLF Hline. unfold clean, strip. apply strip_by_sublist.
  apply Forall_concat. rewrite clean_blocks_body.
  apply Forall_fmap, Forall_forall. intros text [_ Ht]%list_elem_of_filter.
  unfold compose. rewrite clean_block_line. apply Forall_app. split.
  - by apply Hline.
  - by repeat constructor.
Qed.

Lemma clean_lower_fixed file : lower (clean file) = clean file.
Proof.
  apply lower_fixed, clean_Forall; [done|].
  intros text Ht. apply clean_line_Forall; [done|].
  pose proof (body_blocks_Forall _ file (lower_Forall_fixed file)) as Hb.
  by eapply Forall_forall in Hb.
Qed.

Lemma clean_punct_free file : Forall (λ a, a ∉ punct) (clean file).
Proof.
  apply clean_Forall.
  - by vm_compute; intros H; repeat (apply elem_of_cons in H as [H|H]; [done|]);
      apply elem_of_nil in H.
  - intros text _. apply clean_line_punct_free.
Qed.

Lemma split_paragraphs_nonempty s : split_paragraphs s ≠ [].
Proof.
  destruct s as [|a s]; [done|]. cbn [split_paragraphs].
  case_decide; [destruct s as [|b s'']; [|case_decide; [done|]]|];
    by destruct (split_paragraphs _).
Qed.

(** ** Counting newlines *)

Lemma newlines_app s t : newlines (s ++ t) = (newlines s + newlines t)%nat.
Proof. unfold newlines. by rewrite filter_app, length_app. Qed.

Lemma newlines_cons a s :
  newlines (a :: s) = ((if decide (a = LF) then 1 else 0) + newlines s)%nat.
Proof. unfold newlines. rewrite filter_cons. by case_decide. Qed.

Lemma newlines_absent s : LF ∉ s → newlines s = 0%nat.
Proof.
  induction s as [|a s IH]; [done|]. intros [Ha Hs]%not_elem_of_cons.
  rewrite newlines_cons, decide_False by done. by apply IH.
Qed.

Lemma newlines_present s : LF ∈ s → (0 < newlines s)%nat.
Proof.
  intros (s1 & s2 & ->)%list_elem_of_split.
  rewrite newlines_app, newlines_cons, decide_True by done. lia.
Qed.

Lemma lower_char_LF a : lower_char a = LF → a = LF.
Proof. by destruct a as [[] [] [] [] [] [] [] []]. Qed.

Lemma newlines_lower s : newlines (lower s) = newlines s.
Proof.
  unfold lower. induction s as [|a s IH]; [done|].
  rewrite fmap_cons, !newlines_cons, IH.
  destruct (decide (a = LF)) as [->|Ha]; [done|].
  rewrite decide_False; [done|]. by intros ?%lower_char_LF.
Qed.

(** Each cut of [split_paragraphs] uses up two newlines. *)
Lemma split_paragraphs_length s :
  (2 * length (split_paragraphs s) ≤ newlines s + 2)%nat.
Proof.
  induction s as [s IH] using (induction_ltof1 _ (@length _)).
  unfold ltof in IH. destruct s as [|a s]; [simpl; lia|].
  cbn [split_paragraphs].
  assert (2 * length match split_paragraphs s with
                     | [] => [[a]]
                     | piece :: pieces => (a :: piece) :: pieces
                     end ≤ newlines (a :: s) + 2)%nat as Hkeep.
  { pose proof (IH s ltac:(simpl; lia)) as IHs.
    pose proof (split_paragraphs_nonempty s) as Hne.
    rewrite newlines_cons.
    destruct (split_paragraphs s) as [|piece pieces]; [done|].
    simpl in *. lia. }
  case_decide as Ha; [|done]. destruct s as [|b s]; [done|].
  case_decide as Hb; [|done]. subst a b.
  rewrite !newlines_cons, !decide_True by done.
  pose proof (IH s ltac:(simpl; lia)). simpl. lia.
Qed.

Lemma length_remove_header file :
  (length (remove_header file) ≤ length file)%nat.
Proof.
  unfold remove_header. destruct (list_find _ file) as [[ix ?]|]; [|done].
  rewrite length_drop. lia.
Qed.

Lemma length_remove_footer file :
  (length (remove_footer file) ≤ length file)%nat.
Proof.
  unfold remove_footer.
  destruct (list_find _ (rev file)) as [[ix ?]|]; [|done].
  rewrite length_take. lia.
Qed.

Lemma length_clean_blocks file :
  (2 * length (clean_blocks file) ≤ newlines file + 2)%nat.
Proof.
  unfold clean_blocks, body_blocks. rewrite length_fmap.
  pose proof (length_filter (λ text, [] ≠ text)
                (remove_footer (remove_header (split_paragraphs (lower file))))).
  pose proof (length_remove_footer (remove_header (split_paragraphs (lower file)))).
  pose proof (length_remove_header (split_paragraphs (lower file))).
  pose proof (split_paragraphs_length (lower file)) as Hsplit.
  rewrite newlines_lower in Hsplit. lia.
Qed.

Lemma newlines_clean_line text : newlines (clean_line text) = 0%nat.
Proof. apply newlines_absent, clean_line_no_LF. Qed.

Lemma newlines_concat_clean_blocks blocks :
  newlines (concat (clean_block <$> blocks)) = length blocks.
Proof.
  induction blocks as [|text blocks IH]; [done|].
  rewrite fmap_cons, concat_cons, clean_block_line, !newlines_app, IH.
  rewrite newlines_clean_line. by change (newlines [LF]) with 1%nat.
Qed.

Lemma concat_clean_blocks_snoc blocks :
  blocks ≠ [] → ∃ body, concat (clean_block <$> blocks) = body ++ [LF].
Proof.
  destruct blocks as [|text blocks _] using rev_ind; [done|]. intros _.
  rewrite fmap_app, concat_app. cbn [fmap list_fmap concat].
  rewrite app_nil_r, clean_block_line, app_assoc. by eexists.
Qed.

Lemma newlines_strip_by p s : (newlines (strip_by p s) ≤ newlines s)%nat.
Proof.
  destruct (strip_by_decomp p s) as (pre & post & Hs & _).
  rewrite Hs at 2. rewrite !newlines_app. lia.
Qed.

(** The final strip removes the newline that ends the joined text. *)
Lemma newlines_strip_snoc s : (newlines (strip (s ++ [LF])) ≤ newlines s)%nat.
Proof.
  unfold strip, strip_by.
  destruct (decide (Exists (λ a, isspace a = false) s)) as [Hex|Hall].
  - rewrite lstrip_by_keep by done.
    rewrite rstrip_by_snoc_all by by repeat constructor.
    apply (newlines_strip_by isspace).
  - rewrite lstrip_by_all;
      [change (newlines (rstrip_by isspace (lstrip_by isspace [LF])))
         with 0%nat; lia|].
    apply Forall_forall. intros a Ha.
    destruct (isspace a) eqn:Hspace; [done|].
    destruct Hall. apply Exists_exists. by exists a.
Qed.

(** Cleaning a text with a newline gives a text with fewer newlines. *)
Lemma newlines_clean s : LF ∈ s → (newlines (clean s) < newlines s)%nat.
Proof.
  intros Hs%newlines_present. pose proof (length_clean_blocks s) as Hlen.
  unfold clean. unfold clean_blocks in *.
  destruct (decide (filter (λ text, [] ≠ text) (body_blocks s) = []))
    as [Hnil|Hne].
  - by rewrite Hnil.
  - destruct (concat_clean_blocks_snoc _ Hne) as [body Hbody].
    pose proof (newlines_concat_clean_blocks
                  (filter (λ text, [] ≠ text) (body_blocks s))) as Hcount.
    rewrite length_fmap in Hlen.
    rewrite Hbody, newlines_app in Hcount. rewrite Hbody.
    pose proof (newlines_strip_snoc body).
    change (newlines [LF]) with 1%nat in Hcount. lia.
Qed.

(** A text with a newline is never cleaned to itself. *)
Lemma clean_changes_lines s : LF ∈ s → clean s ≠ s.
Proof.
  intros Hs%newlines_clean Heq. rewrite Heq in Hs. lia.
Qed.

(** A line that begins with one of the two markers is cleaned away. *)
Lemma clean_marker_line c :
  LF ∉ c → lower c = c →
  startswith c head = true ∨ startswith c foot = true →
  clean c = [].
Proof.
  intros HLF Hlow Hmark. unfold clean, clean_blocks, body_blocks.
  rewrite Hlow, split_paragraphs_no_LF by done.
  destruct (startswith c head) eqn:Hhead.
  - unfold remove_header. cbn [list_find]. rewrite decide_True; [done|].
    by rewrite Hhead.
  - destruct Hmark as [?|Hfoot]; [done|].
    rewrite remove_header_single by done.
    unfold remove_footer. cbn [rev app list_find].
    rewrite decide_True; [done|]. by rewrite Hfoot.
Qed.

(** ** The final strip *)

(** C9 does not hold as stated: on the one-block input ["  a"] the
    joined blocks are ["  a\n"]; stripping only trailing whitespace would
    leave ["  a"], but the canonical body is ["a"]. *)
Lemma clean_drops_leading_whitespace :
  concat (clean_blocks (lit "  a")) = lit "  a" ++ [LF]
  ∧ rstrip_by isspace (concat (clean_blocks (lit "  a"))) = lit "  a"
  ∧ clean (lit "  a") = lit "a"
  ∧ clean (lit "  a") ≠ rstrip_by isspace (concat (clean_blocks (lit "  a"))).
Proof. by split_and!. Qed.

(** C9, amended.  After the blocks are joined, each terminated by a
    newline, whitespace is stripped from both ends of the whole body: the
    canonical body is the joined text without a leading and a trailing run
    of whitespace, and it neither begins nor ends with a whitespace
    character; leading whitespace of the first block is not kept. *)
Theorem clean_strips_both_ends (file : str) :
  clean file = rstrip_by isspace (lstrip_by isspace (concat (clean_blocks file)))
  ∧ ∃ pre post,
      concat (clean_blocks file) = pre ++ clean file ++ post
      ∧ Forall (λ a, isspace a = true) pre
      ∧ Forall (λ a, isspace a = true) post
      ∧ (∀ a rest, clean file = a :: rest → isspace a = false)
      ∧ (∀ front a, clean file = front ++ [a] → isspace a = false).
Proof.
  split; [done|]. unfold clean, strip.
  apply (strip_by_decomp isspace (concat (clean_blocks file))).
Qed.

(** ** Cleaning a cleaned body *)

(** C2 does not hold as stated: the two-paragraph input ["a\n\nb"]
    is cleaned to the two-line body ["a\nb"]; cleaning that body again
    takes its two lines for one paragraph and joins them into ["a b"]. *)
Lemma clean_not_idempotent :
  clean (lit "a" ++ [LF; LF] ++ lit "b") = lit "a" ++ [LF] ++ lit "b"
  ∧ clean (clean (lit "a" ++ [LF; LF] ++ lit "b")) = lit "a b"
  ∧ clean (clean (lit "a" ++ [LF; LF] ++ lit "b"))
    ≠ clean (lit "a" ++ [LF; LF] ++ lit "b").
Proof. by split_and!. Qed.

(** A string that cleaning leaves as it is: one line in lower case without
    punctuation, not beginning or ending with whitespace, and not beginning
    with one of the two markers. *)
Lemma clean_fixed c :
  LF ∉ c → lower c = c → Forall (λ a, a ∉ punct) c → strip c = c →
  startswith c head = false → startswith c foot = false →
  clean c = c.
Proof.
  intros HLF Hlow Hpunct Hstrip Hhead Hfoot.
  unfold clean. rewrite clean_blocks_body. unfold body_blocks.
  rewrite Hlow, split_paragraphs_no_LF by done.
  rewrite remove_header_single, remove_footer_single by done.
  destruct c as [|a c]; [done|].
  rewrite filter_cons_True by done. rewrite filter_nil.
  cbn [fmap list_fmap concat]. rewrite app_nil_r, clean_block_line.
  unfold clean_line. rewrite strip_by_none.
  - rewrite replace_absent, remove_punct_id by done.
    unfold strip, strip_by in *.
    destruct (lstrip_by_decomp isspace (a :: c)) as (pre & Hpre & _).
    destruct (strip_by_decomp isspace (a :: c)) as (_ & _ & _ & _ & _ & Hfirst & _).
    unfold strip_by in Hfirst. rewrite Hstrip in Hfirst.
    rewrite <-app_comm_cons, lstrip_by_id by by eapply Hfirst.
    rewrite app_comm_cons, rstrip_by_snoc_all by by repeat constructor.
    rewrite lstrip_by_id in Hstrip by by eapply Hfirst. done.
  - apply Forall_forall. intros b Hb. unfold is_char.
    apply bool_decide_eq_false. by intros ->.
Qed.

(** C2, amended.  Cleaning a cleaned body again gives the same text
    exactly when that body has a single line and does not begin with the
    start or the end marker.  A cleaned body with several lines is never
    cleaned to itself: its lines are taken for the lines of paragraphs and
    joined, so the text loses newlines. *)
Theorem clean_idempotent_iff_single_line (file : str) :
  clean (clean file) = clean file
  ↔ (LF ∉ clean file)
    ∧ startswith (clean file) head = false
    ∧ startswith (clean file) foot = false.
Proof.
  split.
  - intros Hfix.
    assert (LF ∉ clean file) as HLF
      by (intros HLF; by apply clean_changes_lines in HLF).
    split; [done|].
    destruct (startswith (clean file) head) eqn:Hhead,
      (startswith (clean file) foot) eqn:Hfoot; try done;
      rewrite clean_marker_line in Hfix
        by (first [done|apply clean_lower_fixed|by left|by right]);
      by rewrite <-Hfix in Hhead, Hfoot.
  - intros (HLF & Hhead & Hfoot). apply clean_fixed; try done.
    + apply clean_lower_fixed.
    + apply clean_punct_free.
    + unfold clean, strip. apply strip_by_idemp.
Qed.

Lemma clean_idempotent_iff_single_line_witness :
  (LF ∉ clean (lit "Hello World."))
  ∧ startswith (clean (lit "Hello World.")) head = false
  ∧ startswith (clean (lit "Hello World.")) foot = false
  ∧ clean (clean (lit "Hello World.")) = clean (lit "Hello World.").
Proof.
  assert (LF ∉ clean (lit "Hello World.")) as HLF.
  { apply (bool_decide_unpack _). by vm_compute. }
  split_and!; [done|by vm_compute|by vm_compute|].
  apply clean_idempotent_iff_single_line.
  split_and!; [done|by vm_compute|by vm_compute].
Defined.

(** ** Blocks of whitespace and punctuation *)

Lemma split_on_app_sep c u v :
  split_on c (u ++ c :: v) = split_on c u ++ split_on c v.
Proof.
  induction u as [|a u IH]; simpl.
  - by rewrite decide_True.
  - case_decide; [by rewrite IH|]. rewrite IH.
    pose proof (split_on_nonempty c u). by destruct (split_on c u).
Qed.

Lemma strip_by_keeps p s a : a ∈ s → p a = false → a ∈ strip_by p s.
Proof.
  intros Ha Hpa.
  destruct (strip_by_decomp p s) as (pre & post & Hs & Hpre & Hpost & _).
  rewrite Hs in Ha. apply elem_of_app in Ha as [Ha|Ha].
  { eapply Forall_forall in Hpre; [|done]. congruence. }
  apply elem_of_app in Ha as [Ha|Ha]; [done|].
  eapply Forall_forall in Hpost; [|done]. congruence.
Qed.

Lemma replace_keeps old new s a : a ∈ s → a ≠ old → a ∈ replace old new s.
Proof.
  intros Ha Hne. unfold replace. apply list_elem_of_In, in_flat_map.
  exists a. split; [by apply list_elem_of_In|].
  rewrite decide_False by done. by left.
Qed.

Lemma clean_line_blank text :
  blank text → Forall (λ a, isspace a = true) (clean_line text).
Proof.
  intros Hb. unfold clean_line. rewrite remove_punct_filter.
  apply Forall_forall. intros a [Hpunct Ha]%list_elem_of_filter.
  assert (Forall (λ a, isspace a = true ∨ a ∈ punct)
            (replace LF [SP] (strip_by (is_char LF) text))) as Hall.
  { apply replace_Forall; [repeat constructor; by left|].
    by apply strip_by_sublist. }
  eapply Forall_forall in Hall; [|done]. by destruct Hall.
Qed.

Lemma clean_line_content text :
  Exists (λ a, isspace a = false ∧ a ∉ punct) text →
  Exists (λ a, isspace a = false) (clean_line text).
Proof.
  intros (a & Ha & Hspace & Hpunct)%Exists_exists. apply Exists_exists.
  exists a. split; [|done]. unfold clean_line. rewrite remove_punct_filter.
  apply list_elem_of_filter. split; [done|].
  apply replace_keeps; [|by intros ->].
  apply strip_by_keeps; [done|]. unfold is_char.
  apply bool_decide_eq_false. by intros ->.
Qed.

Lemma concat_clean_blocks_content blocks :
  has_content blocks →
  ∃ body, concat (clean_block <$> blocks) = body ++ [LF]
          ∧ Exists (λ a, isspace a = false) body.
Proof.
  intros Hc.
  assert (Exists (λ a, isspace a = false) (concat (clean_block <$> blocks)))
    as Hex.
  { apply Exists_exists in Hc as (text & Ht & Hc).
    apply clean_line_content, Exists_exists in Hc as (a & Ha & Hspace).
    apply Exists_exists. exists a. split; [|done].
    apply list_elem_of_In, in_concat. exists (clean_block text).
    split; [by apply list_elem_of_In, list_elem_of_fmap_2|].
    rewrite clean_block_line. apply list_elem_of_In, elem_of_app. by left. }
  destruct (concat_clean_blocks_snoc blocks) as [body Hbody].
  { intros ->. by apply Exists_nil in Hc. }
  exists body. split; [done|]. rewrite Hbody in Hex.
  apply Exists_app in Hex as [?|Hex]; [done|].
  by apply Exists_cons in Hex as [?|?%Exists_nil].
Qed.

Lemma has_content_filter blocks :
  has_content blocks → has_content (filter (λ text, [] ≠ text) blocks).
Proof.
  unfold has_content. rewrite !Exists_exists.
  intros (text & Ht & Hc). exists text. split; [|done].
  apply list_elem_of_filter. split; [|done].
  intros <-. by apply Exists_nil in Hc.
Qed.

(** C10 does not hold as stated: in the input ["a\n\n."] the block
    ["."] is made of punctuation only and passes the filter, but the line it
    becomes is the last one of the joined text and the final strip removes
    it; the canonical body is ["a"], whose only line has a token. *)
Lemma blank_block_line_stripped :
  body_blocks (lit "a" ++ [LF; LF] ++ lit ".") = [lit "a"; lit "."]
  ∧ blank (lit ".")
  ∧ clean_blocks (lit "a" ++ [LF; LF] ++ lit ".") = [lit "a" ++ [LF]; [LF]]
  ∧ split_on LF (clean (lit "a" ++ [LF; LF] ++ lit ".")) = [lit "a"]
  ∧ ¬ ∃ line, line ∈ split_on LF (clean (lit "a" ++ [LF; LF] ++ lit "."))
              ∧ split line = [].
Proof.
  split_and!; [done| |done|done|].
  - apply (bool_decide_unpack _). by vm_compute.
  - change (split_on LF (clean (lit "a" ++ [LF; LF] ++ lit ".")))
      with [lit "a"].
    by intros (line & ->%list_elem_of_singleton & ?).
Qed.

(** C10, amended.  The filter for empty blocks runs before punctuation is
    deleted and drops only the blocks equal to the empty string.  A
    non-empty block made of whitespace and punctuation only, among the
    blocks left after header and footer are removed, passes the filter and
    becomes a line of whitespace, possibly empty, without a token in the
    joined text.  That line is a line of the canonical body when a block
    with a character that is neither whitespace nor punctuation stands
    before it and another one after it. *)
Theorem blank_block_line (file : str) (before : list str) (block : str)
    (after : list str) :
  body_blocks file = before ++ block :: after →
  block ≠ [] →
  blank block →
  clean_blocks file
  = (clean_block <$> filter (λ text, [] ≠ text) before)
      ++ clean_block block
      :: (clean_block <$> filter (λ text, [] ≠ text) after)
  ∧ clean_block block = clean_line block ++ [LF]
  ∧ Forall (λ a, isspace a = true) (clean_line block)
  ∧ (LF ∉ clean_line block)
  ∧ split (clean_line block) = []
  ∧ (has_content before → has_content after →
     ∃ lines1 lines2,
       split_on LF (clean file) = lines1 ++ clean_line block :: lines2).
Proof.
  intros Hbody Hne Hblank.
  assert (clean_blocks file
          = (clean_block <$> filter (λ text, [] ≠ text) before)
              ++ clean_block block
              :: (clean_block <$> filter (λ text, [] ≠ text) after)) as Hblocks.
  { rewrite clean_blocks_body, Hbody, filter_app, filter_cons_True by done.
    by rewrite fmap_app, fmap_cons. }
  pose proof (clean_line_blank block Hblank) as Hspace.
  split_and!; [done|done|done|apply clean_line_no_LF| |].
  - by apply split_all_space.
  - intros Hbefore%has_content_filter Hafter%has_content_filter.
    apply concat_clean_blocks_content in Hbefore as (body1 & Hbody1 & Hc1).
    apply concat_clean_blocks_content in Hafter as (body2 & Hbody2 & Hc2).
    unfold clean, strip. rewrite Hblocks, concat_app, concat_cons, Hbody1.
    rewrite strip_by_middle;
      [|apply Exists_app; by left
       |rewrite Hbody2; apply Exists_app; by left].
    rewrite lstrip_by_keep by done. rewrite clean_block_line.
    rewrite <-!app_assoc. cbn [app].
    rewrite split_on_app_sep, split_on_app by apply clean_line_no_LF.
    by eexists _, _.
Qed.

Lemma blank_block_line_witness :
  body_blocks (lit "a" ++ [LF; LF] ++ lit "." ++ [LF; LF] ++ lit "b")
    = [lit "a"] ++ lit "." :: [lit "b"]
  ∧ lit "." ≠ []
  ∧ blank (lit ".")
  ∧ split (clean_line (lit ".")) = [].
Proof.
  assert (blank (lit ".")) as Hblank.
  { apply (bool_decide_unpack _). by vm_compute. }
  split_and!; [by vm_compute|done|done|].
  apply (blank_block_line
           (lit "a" ++ [LF; LF] ++ lit "." ++ [LF; LF] ++ lit "b")
           [lit "a"] (lit ".") [lit "b"]); [by vm_compute|done|done].
Defined.

(** * Further properties *)

(** ** The engines read the tokens only *)

Lemma flat_map_fmap {A B C} (f : A → B) (g : B → list C) (l : list A) :
  flat_map g (f <$> l) = flat_map (λ x, g (f x)) l.
Proof.
  induction l as [|x l IH]; [done|]. csimpl. by rewrite IH.
Qed.

Lemma ngrams_list_tokenize text n :
  ngrams_list text n
  = flat_map (λ words_all, ngrams_loop words_all n (range (len words_all)))
             (tokenize text).
Proof. unfold ngrams_list, tokenize. by rewrite flat_map_fmap. Qed.

Lemma split_tokenize text : split text = concat (tokenize text).
Proof.
  rewrite <-split_lines. unfold tokenize.
  induction (split_on LF text) as [|line lines IH]; [done|].
  csimpl. by rewrite IH.
Qed.

Lemma concordance_tokenize text word ns :
  concordance text word ns
  = flat_map (λ items, context_window items ns <$> indices_of word items)
             (tokenize text).
Proof. unfold concordance, tokenize. by rewrite flat_map_fmap. Qed.

Lemma text_pairs_tokenize text :
  text_pairs text = flat_map adjacent_pairs (tokenize text).
Proof. unfold text_pairs, tokenize. by rewrite flat_map_fmap. Qed.

Lemma engines_tokenize t1 t2 :
  tokenize t1 = tokenize t2 →
  (∀ n, ngrams t1 n = ngrams t2 n)
  ∧ word_count t1 = word_count t2
  ∧ (∀ word ns, concordance t1 word ns = concordance t2 word ns)
  ∧ (∀ word ns, display_concordance t1 word ns = display_concordance t2 word ns)
  ∧ (∀ word n, likely_next t1 word n = likely_next t2 word n)
  ∧ (∀ word n, likely_previous t1 word n = likely_previous t2 word n).
Proof.
  intros Ht.
  assert (∀ word ns, concordance t1 word ns = concordance t2 word ns) as Hc.
  { intros word ns. by rewrite !concordance_tokenize, Ht. }
  assert (∀ word, successors t1 word = successors t2 word) as Hs.
  { intros word. unfold successors. by rewrite !text_pairs_tokenize, Ht. }
  assert (∀ word, predecessors t1 word = predecessors t2 word) as Hp.
  { intros word. unfold predecessors. by rewrite !text_pairs_tokenize, Ht. }
  split_and!.
  - intros n. unfold ngrams. by rewrite !ngrams_list_tokenize, Ht.
  - unfold word_count. by rewrite !split_tokenize, Ht.
  - done.
  - intros word ns. unfold display_concordance. by rewrite Hc.
  - intros word n. by rewrite !likely_next_eq, Hs.
  - intros word n. by rewrite !likely_previous_eq, Hp.
Qed.

(** X1.  Two texts with the same tokens on the same lines get the same
    results from every engine: [ngrams], [word_count], [concordance],
    [display_concordance], [likely_next] and [likely_previous] read a text
    only through the token lists of its lines. *)
Theorem engines_depend_on_tokens (t1 t2 : str) :
  tokenize t1 = tokenize t2 →
  (∀ n, ngrams t1 n = ngrams t2 n)
  ∧ word_count t1 = word_count t2
  ∧ (∀ word ns, concordance t1 word ns = concordance t2 word ns)
  ∧ (∀ word ns, display_concordance t1 word ns = display_concordance t2 word ns)
  ∧ (∀ word n, likely_next t1 word n = likely_next t2 word n)
  ∧ (∀ word n, likely_previous t1 word n = likely_previous t2 word n).
Proof. apply engines_tokenize. Qed.

Lemma engines_depend_on_tokens_witness :
  tokenize (lit " a   b " ++ [LF] ++ lit "c") = tokenize (lit "a b" ++ [LF] ++ lit "c")
  ∧ word_count (lit " a   b " ++ [LF] ++ lit "c")
    = word_count (lit "a b" ++ [LF] ++ lit "c").
Proof.
  split; [by vm_compute|].
  by apply (engines_depend_on_tokens (lit " a   b " ++ [LF] ++ lit "c")
             (lit "a b" ++ [LF] ++ lit "c")).
Defined.

(** ** Carriage returns of a stream *)

Lemma same_kind_isspace a b : same_kind a b → isspace a = isspace b.
Proof. intros [->|(Ha & Hb & _)]; [done|by rewrite Ha, Hb]. Qed.

Lemma same_kind_token a b : same_kind a b → isspace a = false → a = b.
Proof. intros [->|(Ha & _)]; [done|congruence]. Qed.

Lemma same_kind_LF a b : same_kind a b → a = LF ↔ b = LF.
Proof. intros [->|(_ & _ & Ha & Hb)]; [done|]. split; by intros ?. Qed.

Lemma split_same_kind s s' : Forall2 same_kind s s' → split s = split s'.
Proof.
  induction 1 as [|a b s s' Hab Hs IH]; [done|]. cbn [split].
  rewrite <-(same_kind_isspace a b Hab), IH.
  destruct (isspace a) eqn:Ha; [done|].
  apply same_kind_token in Hab as <-; [|done].
  destruct Hs as [|c d s s' Hcd Hs]; [done|].
  by rewrite (same_kind_isspace c d Hcd).
Qed.

Lemma split_on_same_kind s s' :
  Forall2 same_kind s s' →
  Forall2 (Forall2 same_kind) (split_on LF s) (split_on LF s').
Proof.
  induction 1 as [|a b s s' Hab Hs IH]; [by repeat constructor|].
  cbn [split_on]. pose proof (same_kind_LF a b Hab) as HLF.
  destruct (decide (a = LF)) as [Ha|Ha], (decide (b = LF)) as [Hb|Hb];
    try tauto.
  - by constructor.
  - destruct IH as [|p p' ps ps' Hp Hps].
    + constructor; [|constructor]. constructor; [done|constructor].
    + constructor; [by constructor|done].
Qed.

Lemma tokenize_same_kind s s' :
  Forall2 same_kind s s' → tokenize s = tokenize s'.
Proof.
  intros Hs%split_on_same_kind. unfold tokenize.
  induction Hs as [|p p' ps ps' Hp _ IH]; [done|].
  by rewrite !fmap_cons, IH, (split_same_kind p p').
Qed.

Lemma replace_char old c s :
  replace old [c] s = (λ a, if decide (a = old) then c else a) <$> s.
Proof.
  unfold replace. induction s as [|a s IH]; [done|].
  cbn [flat_map]. rewrite fmap_cons, IH. by case_decide.
Qed.

Lemma stream_contents_same_kind line rest :
  Forall2 same_kind (stream_contents line rest) (line ++ rest).
Proof.
  unfold stream_contents. apply Forall2_app.
  - apply Forall_Forall2_diag, Forall_forall. intros a _. by left.
  - rewrite replace_char. apply Forall2_fmap_l. apply Forall_Forall2_diag.
    apply Forall_forall. intros a _. unfold compose.
    case_decide as Ha; [|by left]. subst a. by right.
Qed.

(** X2.  Reading from a stream replaces the carriage returns after the
    first line by spaces.  This keeps the length of the text and the tokens
    of every line, so every engine gives the same result as on the text
    read as it is; without a carriage return the text itself is the same. *)
Theorem stream_contents_keeps_tokens (line rest : str) :
  tokenize (stream_contents line rest) = tokenize (line ++ rest)
  ∧ length (stream_contents line rest) = length (line ++ rest)
  ∧ (CR ∉ rest → stream_contents line rest = line ++ rest)
  ∧ (∀ n, ngrams (stream_contents line rest) n = ngrams (line ++ rest) n)
  ∧ (∀ word ns, concordance (stream_contents line rest) word ns
                = concordance (line ++ rest) word ns)
  ∧ (∀ word n, likely_next (stream_contents line rest) word n
               = likely_next (line ++ rest) word n)
  ∧ (∀ word n, likely_previous (stream_contents line rest) word n
               = likely_previous (line ++ rest) word n).
Proof.
  pose proof (tokenize_same_kind _ _ (stream_contents_same_kind line rest))
    as Ht.
  destruct (engines_tokenize _ _ Ht) as (Hn & _ & Hc & _ & Hnext & Hprev).
  split_and!; try done.
  - unfold stream_contents. by rewrite replace_char, !length_app, length_fmap.
  - intros HCR. unfold stream_contents. by rewrite replace_absent.
Qed.

(** ** Counts of the transition tables *)

Lemma slice_sublist {A} (l : list A) lo hi : slice l lo hi `sublist_of` l.
Proof.
  unfold slice. etrans; [apply sublist_take|apply sublist_drop].
Qed.

Lemma slice_full {A} (l : list A) n : len l ≤ n → slice l 0 n = l.
Proof.
  intros Hn. unfold len in Hn. rewrite slice_prefix by lia.
  apply take_ge. lia.
Qed.

Lemma length_Counter l : (length (Counter l) ≤ length l)%nat.
Proof.
  rewrite <-(Counter_total l), <-(length_fmap snd).
  assert (Forall (λ c, 1 ≤ c)%nat (Counter l).*2) as Hpos.
  { apply Forall_fmap, Forall_forall. intros [k c] Hkc. simpl.
    pose proof (count_in_entry _ k c (Counter_NoDup l) Hkc) as Hc.
    rewrite Counter_count in Hc. subst c. unfold occurrences.
    assert (k ∈ filter (λ x, x = k) l) as Hk.
    { apply list_elem_of_filter. split; [done|]. apply Counter_keys.
      apply list_elem_of_fmap. by exists (k, occurrences k l). }
    destruct (filter _ l); [by apply elem_of_nil in Hk|simpl; lia]. }
  induction Hpos as [|c cs Hc _ IH]; simpl; lia.
Qed.

(** A counter lists every element once, with the number of its
    occurrences. *)
Lemma Counter_entry l k c :
  (k, c) ∈ Counter l ↔ c = occurrences k l ∧ (0 < c)%nat.
Proof.
  split.
  - intros Hkc.
    pose proof (count_in_entry _ k c (Counter_NoDup l) Hkc) as Hc.
    rewrite Counter_count in Hc. split; [done|]. subst c.
    assert (k ∈ l) as Hk.
    { apply Counter_keys, list_elem_of_fmap. by exists (k, occurrences k l). }
    unfold occurrences.
    assert (k ∈ filter (λ x, x = k) l) as Hf by by apply list_elem_of_filter.
    destruct (filter _ l); [by apply elem_of_nil in Hf|simpl; lia].
  - intros [-> Hpos].
    assert (k ∈ (Counter l).*1) as Hkey.
    { apply Counter_keys. unfold occurrences in Hpos.
      destruct (filter (λ x, x = k) l) as [|x xs] eqn:Hf; [simpl in Hpos; lia|].
      assert (x ∈ filter (λ x, x = k) l) as Hx by (rewrite Hf; by left).
      by apply list_elem_of_filter in Hx as [-> ?]. }
    apply list_elem_of_fmap in Hkey as ([k' c'] & -> & Hin). simpl.
    pose proof (count_in_entry _ k' c' (Counter_NoDup l) Hin) as Hc.
    rewrite Counter_count in Hc. by subst c'.
Qed.

(** The full ranking lists every neighbour once, with the number of its
    occurrences among the neighbours. *)
Lemma ranked_entry vs v c :
  (v, c) ∈ ranked vs ↔ c = occurrences v vs ∧ (0 < c)%nat.
Proof. rewrite ranked_perm. apply Counter_entry. Qed.

Lemma ranked_total vs : sum_list (ranked vs).*2 = length vs.
Proof. by rewrite ranked_perm, Counter_total. Qed.

Lemma adjacent_pairs_fst words :
  (adjacent_pairs words).*1 = take (length words - 1) words.
Proof.
  unfold adjacent_pairs. destruct words as [|w words]; [done|].
  change (drop 1 (w :: words)) with words.
  cbn [length]. rewrite Nat.sub_succ, Nat.sub_0_r. revert w.
  induction words as [|w' words IH]; intros w; [done|].
  change (zip (w :: w' :: words) (w' :: words))
    with ((w, w') :: zip (w' :: words) words).
  cbn [length]. rewrite fmap_cons, IH. done.
Qed.

Lemma adjacent_pairs_snd words : (adjacent_pairs words).*2 = drop 1 words.
Proof.
  unfold adjacent_pairs. apply snd_zip. rewrite length_drop. lia.
Qed.

Lemma length_filter_fmap {A B} (f : A → B) (P : B → Prop) (Q : A → Prop)
    `{∀ x, Decision (P x)} `{∀ x, Decision (Q x)} (l : list A) :
  (∀ x, Q x ↔ P (f x)) →
  length (filter Q l) = length (filter P (f <$> l)).
Proof.
  intros HQ. rewrite filter_fmap, length_fmap. f_equal.
  by apply list_filter_iff.
Qed.

Lemma filter_flat_map {A B} (P : B → Prop) `{∀ x, Decision (P x)}
    (f : A → list B) (l : list A) :
  filter P (flat_map f l) = flat_map (λ x, filter P (f x)) l.
Proof.
  induction l as [|x l IH]; [done|]. cbn [flat_map].
  by rewrite filter_app, IH.
Qed.

Lemma length_flat_map_nat {A B} (f : A → list B) (l : list A) :
  length (flat_map f l) = sum_list ((λ x, length (f x)) <$> l).
Proof.
  induction l as [|x l IH]; [done|]. cbn [flat_map].
  by rewrite length_app, fmap_cons, IH.
Qed.

Lemma length_successors text word :
  length (successors text word) = non_last_occurrences text word.
Proof.
  unfold successors, non_last_occurrences, text_pairs.
  rewrite length_fmap, filter_flat_map, length_flat_map_nat.
  f_equal. apply list_fmap_ext. intros _ line _.
  etrans; [by apply (length_filter_fmap fst (λ x, x = word))|].
  by rewrite adjacent_pairs_fst.
Qed.

Lemma length_predecessors text word :
  length (predecessors text word) = non_first_occurrences text word.
Proof.
  unfold predecessors, non_first_occurrences, text_pairs.
  rewrite length_fmap, filter_flat_map, length_flat_map_nat.
  f_equal. apply list_fmap_ext. intros _ line _.
  etrans; [by apply (length_filter_fmap snd (λ x, x = word))|].
  by rewrite adjacent_pairs_snd.
Qed.

Lemma length_text_pairs text : (length (text_pairs text) ≤ length (split text))%nat.
Proof.
  rewrite <-split_lines. unfold text_pairs.
  induction (split_on LF text) as [|line lines IH]; [done|].
  cbn [flat_map]. rewrite !length_app.
  assert (length (adjacent_pairs (split line)) ≤ length (split line))%nat; [|lia].
  rewrite <-(length_fmap fst), adjacent_pairs_fst, length_take. lia.
Qed.

Lemma length_ranked_neighbours text (P : str * str → Prop)
    `{∀ p, Decision (P p)} (f : str * str → str) :
  (length (ranked (f <$> filter P (text_pairs text))) ≤ length (split text))%nat.
Proof.
  rewrite (Permutation_length (ranked_perm _)).
  etrans; [apply length_Counter|]. rewrite length_fmap.
  etrans; [apply length_filter|]. apply length_text_pairs.
Qed.

(** With [n] at least the number of tokens of the text, a query returns
    the whole ranking of the word. *)
Lemma likely_next_full text word n :
  len (split text) ≤ n →
  likely_next text word n
  = match successors text word with
    | [] => raise (KeyError word)
    | vs => ret (ranked vs)
    end.
Proof.
  intros Hn. rewrite likely_next_eq.
  pose proof (length_ranked_neighbours text (λ p, p.1 = word) snd) as Hlen.
  fold (successors text word) in Hlen.
  destruct (successors text word); [done|].
  rewrite slice_full; [done|]. unfold len in *. lia.
Qed.

Lemma likely_previous_full text word n :
  len (split text) ≤ n →
  likely_previous text word n
  = match predecessors text word with
    | [] => raise (KeyError word)
    | vs => ret (ranked vs)
    end.
Proof.
  intros Hn. rewrite likely_previous_eq.
  pose proof (length_ranked_neighbours text (λ p, p.2 = word) fst) as Hlen.
  fold (predecessors text word) in Hlen.
  destruct (predecessors text word); [done|].
  rewrite slice_full; [done|]. unfold len in *. lia.
Qed.

(** X3.  When [n] is at least the number of tokens of the text, the counts
    that [likely_next] returns for a word add up to the number of times the
    word stands in a line at a position that is not the last one, and the
    counts that [likely_previous] returns add up to the number of times it
    stands at a position that is not the first one. *)
Theorem likely_counts_total (text word : str) (n : Z) :
  len (split text) ≤ n →
  (∀ l, likely_next text word n = ret l →
        sum_list l.*2 = non_last_occurrences text word)
  ∧ (∀ l, likely_previous text word n = ret l →
          sum_list l.*2 = non_first_occurrences text word).
Proof.
  intros Hn. split; intros l Hl.
  - rewrite likely_next_full in Hl by done.
    rewrite <-length_successors.
    destruct (successors text word) as [|v vs]; [done|].
    injection Hl as <-. apply ranked_total.
  - rewrite likely_previous_full in Hl by done.
    rewrite <-length_predecessors.
    destruct (predecessors text word) as [|v vs]; [done|].
    injection Hl as <-. apply ranked_total.
Qed.

Lemma likely_counts_total_witness :
  len (split (lit "a b a c" ++ [LF] ++ lit "a")) ≤ 5
  ∧ sum_list [(lit "b", 1%nat); (lit "c", 1%nat)].*2
    = non_last_occurrences (lit "a b a c" ++ [LF] ++ lit "a") (lit "a").
Proof.
  split; [by vm_compute|].
  by apply (likely_counts_total (lit "a b a c" ++ [LF] ++ lit "a") (lit "a") 5).
Defined.

Lemma occurrences_successors text w v :
  occurrences v (successors text w) = pair_count text w v.
Proof.
  unfold occurrences, successors, pair_count.
  etrans; [symmetry; by apply (length_filter_fmap snd (λ x, x = v)
                                 (λ p : str * str, p.2 = v))|].
  rewrite list_filter_filter. f_equal. apply list_filter_iff.
  intros [a b]. simpl. split; [by intros [-> ->]|by intros [= -> ->]].
Qed.

Lemma occurrences_predecessors text w v :
  occurrences w (predecessors text v) = pair_count text w v.
Proof.
  unfold occurrences, predecessors, pair_count.
  etrans; [symmetry; by apply (length_filter_fmap fst (λ x, x = w)
                                 (λ p : str * str, p.1 = w))|].
  rewrite list_filter_filter. f_equal. apply list_filter_iff.
  intros [a b]. simpl. split; [by intros [-> ->]|by intros [= -> ->]].
Qed.

Lemma slice_ranked_entries vs lo hi :
  NoDup (slice (ranked vs) lo hi).*1
  ∧ ∀ v c, (v, c) ∈ slice (ranked vs) lo hi →
           c = occurrences v vs ∧ (0 < c)%nat.
Proof.
  split.
  - unfold slice. rewrite fmap_take, fmap_drop.
    apply (sublist_NoDup _ (ranked vs).*1).
    + rewrite ranked_perm. apply Counter_NoDup.
    + etrans; [apply sublist_take|apply sublist_drop].
  - intros v c Hvc. apply ranked_entry. unfold slice in Hvc.
    by apply subseteq_take, subseteq_drop in Hvc.
Qed.

(** X4.  Whatever [n] is, the words that [likely_next] returns for a word
    are distinct, and the count of each one is the number of places where it
    directly follows the word in a line, at least one; likewise
    [likely_previous] returns distinct words, each with the number of places
    where it directly precedes the word. *)
Theorem likely_entries_count_pairs (text word : str) (n : Z) :
  (∀ l, likely_next text word n = ret l →
        NoDup l.*1
        ∧ ∀ v c, (v, c) ∈ l → c = pair_count text word v ∧ (0 < c)%nat)
  ∧ (∀ l, likely_previous text word n = ret l →
          NoDup l.*1
          ∧ ∀ u c, (u, c) ∈ l → c = pair_count text u word ∧ (0 < c)%nat).
Proof.
  split; intros l Hl.
  - rewrite likely_next_eq in Hl.
    destruct (successors text word) as [|v vs] eqn:Hs; [done|].
    injection Hl as <-. rewrite <-Hs.
    destruct (slice_ranked_entries (successors text word) 0 n) as [Hnd Hin].
    split; [done|]. intros v' c Hvc.
    rewrite <-occurrences_successors. by apply Hin.
  - rewrite likely_previous_eq in Hl.
    destruct (predecessors text word) as [|v vs] eqn:Hs; [done|].
    injection Hl as <-. rewrite <-Hs.
    destruct (slice_ranked_entries (predecessors text word) 0 n) as [Hnd Hin].
    split; [done|]. intros u c Huc.
    rewrite <-occurrences_predecessors. by apply Hin.
Qed.

Lemma entries_likely_next text w v c n :
  len (split text) ≤ n →
  (v, c) ∈ entries (likely_next text w n)
  ↔ c = pair_count text w v ∧ (0 < c)%nat.
Proof.
  intros Hn. rewrite likely_next_full by done.
  rewrite <-occurrences_successors.
  destruct (successors text w) as [|v' vs] eqn:Hs.
  - simpl. rewrite elem_of_nil. unfold occurrences. simpl. lia.
  - rewrite <-Hs. apply ranked_entry.
Qed.

Lemma entries_likely_previous text w v c n :
  len (split text) ≤ n →
  (w, c) ∈ entries (likely_previous text v n)
  ↔ c = pair_count text w v ∧ (0 < c)%nat.
Proof.
  intros Hn. rewrite likely_previous_full by done.
  rewrite <-occurrences_predecessors.
  destruct (predecessors text v) as [|v' vs] eqn:Hs.
  - simpl. rewrite elem_of_nil. unfold occurrences. simpl. lia.
  - rewrite <-Hs. apply ranked_entry.
Qed.

(** X5.  The two tables mirror each other: when [n] is at least the number
    of tokens of the text, [likely_next] reports [v] with count [c] for the
    word [w] exactly when [likely_previous] reports [w] with count [c] for
    the word [v]; a query that raises reports nothing. *)
Theorem likely_next_previous_mirror (text w v : str) (c : nat) (n : Z) :
  len (split text) ≤ n →
  (v, c) ∈ entries (likely_next text w n)
  ↔ (w, c) ∈ entries (likely_previous text v n).
Proof.
  intros Hn. by rewrite entries_likely_next, entries_likely_previous.
Qed.

Lemma likely_next_previous_mirror_witness :
  len (split (lit "a b a b c")) ≤ 5
  ∧ ((lit "b", 2%nat) ∈ entries (likely_next (lit "a b a b c") (lit "a") 5)
     ↔ (lit "a", 2%nat)
         ∈ entries (likely_previous (lit "a b a b c") (lit "b") 5)).
Proof.
  split; [by vm_compute|].
  by apply (likely_next_previous_mirror (lit "a b a b c")).
Defined.

(** X6.  The [KeyError] does not depend on [n]: for every [n], also zero or
    negative, [likely_next] raises exactly when the word never stands in a
    non-last position, and [likely_previous] exactly when it never stands in
    a non-first position.  For a word of the table, [n = 0] gives the empty
    list and a negative [n] gives the ranking without its last [-n]
    entries. *)
Theorem likely_for_any_n (text word : str) (n : Z) :
  (likely_next text word n = raise (KeyError word)
   ↔ ¬ in_non_last_position text word)
  ∧ (likely_previous text word n = raise (KeyError word)
     ↔ ¬ in_non_first_position text word)
  ∧ (in_non_last_position text word →
     likely_next text word 0 = ret []
     ∧ (n < 0 →
        likely_next text word n
        = ret (take (length (ranked (successors text word)) - Z.to_nat (- n))
                    (ranked (successors text word)))))
  ∧ (in_non_first_position text word →
     likely_previous text word 0 = ret []
     ∧ (n < 0 →
        likely_previous text word n
        = ret (take (length (ranked (predecessors text word)) - Z.to_nat (- n))
                    (ranked (predecessors text word))))).
Proof.
  assert (∀ r : list (str * nat), n < 0 →
            slice r 0 n = take (length r - Z.to_nat (- n)) r) as Hslice.
  { intros r Hn. unfold slice, slice_bound. simpl.
    rewrite Nat.sub_0_r. destruct (Z.ltb_spec n 0); [|lia]. f_equal. lia. }
  rewrite !likely_next_eq, !likely_previous_eq.
  rewrite <-successors_nonempty, <-predecessors_nonempty.
  split_and!.
  - destruct (successors text word) as [|v vs].
    + split; [by intros _ ?|done].
    + split; [done|]. intros Hne. by destruct Hne.
  - destruct (predecessors text word) as [|v vs].
    + split; [by intros _ ?|done].
    + split; [done|]. intros Hne. by destruct Hne.
  - intros Hs. destruct (successors text word) eqn:E; [done|].
    split; [done|]. intros Hn. by rewrite Hslice.
  - intros Hs. destruct (predecessors text word) eqn:E; [done|].
    split; [done|]. intros Hn. by rewrite Hslice.
Qed.

(** ** Edge cases of the counting engines *)

Lemma Counter_fold_replicate k x c :
  foldl (λ d k, counter_add k d) [(x, c)] (replicate k x) = [(x, (c + k)%nat)].
Proof.
  revert c. induction k as [|k IH]; intros c.
  - simpl. by rewrite Nat.add_0_r.
  - cbn [replicate foldl counter_add]. rewrite decide_True by done.
    rewrite IH. do 2 f_equal. lia.
Qed.

Lemma Counter_replicate k x :
  Counter (replicate k x) = match k with O => [] | S _ => [(x, k)] end.
Proof.
  destruct k as [|k]; [done|]. unfold Counter. cbn [replicate foldl counter_add].
  by rewrite Counter_fold_replicate.
Qed.

Lemma ngrams_loop_zero ws a m :
  (a + m ≤ length ws)%nat →
  ngrams_loop ws 0 (seq a m) = replicate m [].
Proof.
  revert a. induction m as [|m IH]; intros a Ham; [done|].
  cbn [seq ngrams_loop replicate]. unfold len.
  destruct (Z.gtb_spec (Z.of_nat a + 0) (Z.of_nat (length ws))); [lia|].
  rewrite IH by lia. f_equal.
  rewrite Z.add_0_r, slice_of_nat, Nat.sub_diag. done.
Qed.

Lemma ngrams_list_zero text :
  ngrams_list text 0 = replicate (length (split text)) [].
Proof.
  rewrite <-split_lines. unfold ngrams_list.
  induction (split_on LF text) as [|line lines IH]; [done|].
  cbn [flat_map]. rewrite length_app, replicate_add, IH. f_equal.
  unfold range, len. rewrite Nat2Z.id. by apply ngrams_loop_zero.
Qed.

(** X7.  With [n = 0] the loop of [ngrams] never breaks and appends one
    empty string per token: the counter has the empty n-gram as its only
    key, counted once per token of the text, and it is empty for a text
    without tokens. *)
Theorem ngrams_zero_counts_tokens (text : str) :
  ngrams text 0
  = match split text with
    | [] => []
    | _ :: _ => [([], length (split text))]
    end.
Proof.
  unfold ngrams. rewrite ngrams_list_zero, Counter_replicate.
  by destruct (split text).
Qed.

(** ** Words that do not occur *)

Lemma length_concordance text word ns :
  length (concordance text word ns) = occurrences word (split text).
Proof.
  rewrite <-split_lines. unfold concordance.
  induction (split_on LF text) as [|line lines IH]; [done|].
  cbn [flat_map]. rewrite length_app, occurrences_app, IH.
  by rewrite length_fmap, indices_of_positions, length_positions.
Qed.

Lemma occurrences_zero k l : occurrences k l = 0%nat ↔ k ∉ l.
Proof.
  unfold occurrences. rewrite length_zero_iff_nil. split.
  - intros Hf Hk. by eapply filter_nil_not_elem_of.
  - intros Hk. destruct (filter (λ x, x = k) l) as [|x xs] eqn:Hf; [done|].
    assert (x ∈ filter (λ x, x = k) l) as Hx by (rewrite Hf; by left).
    apply list_elem_of_filter in Hx as [-> ?]. done.
Qed.

Lemma concordance_nil text word ns :
  concordance text word ns = [] ↔ word ∉ split text.
Proof.
  rewrite <-occurrences_zero, <-(length_concordance text word ns).
  by rewrite length_zero_iff_nil.
Qed.

(** X8.  For every [neighborhood_size], [concordance] returns as many
    windows as the word has occurrences among the tokens of the text; it
    returns the empty list, and no error, exactly when the word is no token
    of the text.  [display_concordance] raises [IndexError] exactly in that
    case and returns a string for every word that is a token. *)
Theorem concordance_of_absent_word (text word : str) (neighborhood_size : Z) :
  length (concordance text word neighborhood_size)
  = occurrences word (split text)
  ∧ (concordance text word neighborhood_size = [] ↔ word ∉ split text)
  ∧ (display_concordance text word neighborhood_size = raise IndexError
     ↔ word ∉ split text)
  ∧ (word ∈ split text →
     ∃ display, display_concordance text word neighborhood_size = ret display).
Proof.
  split_and!.
  - apply length_concordance.
  - apply concordance_nil.
  - rewrite <-concordance_nil. split.
    + intros Hraise.
      destruct (decide (concordance text word neighborhood_size = []))
        as [|Hne]; [done|].
      apply display_concordance_nonempty in Hne as [display Hd].
      by rewrite Hd in Hraise.
    + apply display_concordance_empty.
  - intros Hin. apply display_concordance_nonempty.
    rewrite concordance_nil. by intros Hn.
Qed.

(** ** The layout of [display_concordance] *)

Lemma foldl_max_spec x l :
  Forall (λ y, y ≤ foldl Z.max x l) (x :: l)
  ∧ Exists (λ y, y = foldl Z.max x l) (x :: l).
Proof.
  revert x. induction l as [|y l IH]; intros x.
  - simpl. split; [repeat constructor; lia|by left].
  - cbn [foldl]. destruct (IH (Z.max x y)) as [Hall Hex].
    apply Forall_cons in Hall as [Hmax Hall]. split.
    + constructor; [lia|]. constructor; [lia|done].
    + apply Exists_cons in Hex as [Hex|Hex]; [|by do 2 right].
      destruct (Z.max_spec x y) as [[_ Heq]|[_ Heq]]; rewrite Heq in *.
      * right. by left.
      * by left.
Qed.

Lemma join_prefix_first sep pre r rs :
  join sep ((pre ++ r) :: rs) = pre ++ join sep (r :: rs).
Proof. destruct rs; simpl; [done|]. by rewrite <-app_assoc. Qed.

Lemma join_suffix_last sep post rows x :
  rows !! (length rows - 1)%nat = Some x →
  join sep (<[(length rows - 1)%nat := x ++ post]> rows)
  = join sep rows ++ post.
Proof.
  induction rows as [|r rows IH]; [done|].
  destruct rows as [|r' rows].
  - simpl. by intros [= ->].
  - cbn [length]. rewrite Nat.sub_succ, Nat.sub_0_r. intros Hx.
    change (<[S (length rows) := x ++ post]> (r :: r' :: rows))
      with (r :: <[length rows := x ++ post]> (r' :: rows)).
    rewrite (join_cons sep r (r' :: rows)) by done.
    rewrite (join_cons sep r (<[_ := _]> _))
      by (intros Heq%(f_equal length); by rewrite length_insert in Heq).
    cbn [length] in IH. rewrite Nat.sub_succ, Nat.sub_0_r in IH.
    rewrite IH by done. by rewrite <-!app_assoc.
Qed.

Lemma display_concordance_rows text word ns e es :
  concordance text word ns = e :: es →
  display_concordance text word ns
  = ret (lit "<pre>"
         ++ join [LF] (display_row word (foldl Z.max (len e.1) (len <$> es.*1))
                         <$> e :: es)
         ++ lit "</pre>").
Proof.
  intros Hc. unfold display_concordance. rewrite Hc.
  cbn [zip_star getitem lookup list_lookup bind ret].
  rewrite !fmap_cons. cbn [max_of bind ret].
  fold (display_row word (foldl Z.max (len e.1) (len <$> es.*1))).
  set (row := display_row word _).
  change (row <$> e :: es) with (row e :: (row <$> es)).
  cbn [getitem lookup list_lookup bind ret].
  rewrite setitem_in_range by (unfold len; simpl; lia).
  change (<[Z.to_nat 0 := lit "<pre>" ++ row e]> (row e :: (row <$> es)))
    with ((lit "<pre>" ++ row e) :: (row <$> es)).
  cbn [bind ret]. set (display := (lit "<pre>" ++ row e) :: (row <$> es)).
  assert (Z.to_nat (len display - 1) = (length display - 1)%nat) as Hlast
    by (unfold len; lia).
  assert (0 < len display) as Hlen by (unfold display, len; simpl; lia).
  destruct (lookup_lt_is_Some_2 display (length display - 1))
    as [last Hl]; [unfold len in *; lia|].
  unfold getitem at 1. rewrite Hlast, Hl. cbn [bind ret].
  rewrite setitem_in_range by lia. rewrite Hlast. cbn [bind ret].
  rewrite join_suffix_last by done. unfold display.
  by rewrite join_prefix_first, <-app_assoc.
Qed.

(** X9.  For a word that is a token of the text, [display_concordance]
    returns the rows of the windows, joined by newlines, between the
    markers [<pre>] and [</pre>].  In every row the text in front of the
    marked word is padded on the left to one common width, which is the
    length of the longest such text: the marked words stand in one
    column. *)
Theorem display_concordance_aligned (text word : str) (neighborhood_size : Z) :
  word ∈ split text →
  ∃ space,
    display_concordance text word neighborhood_size
    = ret (lit "<pre>"
           ++ join [LF] (display_row word space
                           <$> concordance text word neighborhood_size)
           ++ lit "</pre>")
    ∧ Forall (λ element, len (repeat_char SP (space - len element.1)
                                ++ element.1) = space)
             (concordance text word neighborhood_size)
    ∧ Exists (λ element, len element.1 = space)
             (concordance text word neighborhood_size).
Proof.
  intros Hin.
  destruct (concordance text word neighborhood_size) as [|e es] eqn:Hc.
  { apply concordance_nil in Hc. done. }
  exists (foldl Z.max (len e.1) (len <$> es.*1)).
  destruct (foldl_max_spec (len e.1) (len <$> es.*1)) as [Hall Hex].
  set (space := foldl Z.max (len e.1) (len <$> es.*1)) in *.
  split_and!.
  - by apply display_concordance_rows.
  - apply Forall_forall. intros element Hel.
    assert (len element.1 ≤ space) as Hle.
    { eapply (proj1 (Forall_forall _ _) Hall).
      apply elem_of_cons in Hel as [->|Hel]; [by left|right].
      by apply list_elem_of_fmap_2, list_elem_of_fmap_2. }
    unfold len, repeat_char in *. rewrite length_app, length_replicate. lia.
  - apply Exists_exists in Hex as (y & Hy & ->). apply Exists_exists.
    apply elem_of_cons in Hy as [Hy|Hy].
    + exists e. split; [by left|done].
    + apply list_elem_of_fmap in Hy as (b & Hb & Hy).
      apply list_elem_of_fmap in Hy as (element & -> & Hel).
      exists element. split; [by right|done].
Qed.

Lemma display_concordance_aligned_witness :
  lit "lamb" ∈ split (lit "a little lamb" ++ [LF] ++ lit "the lamb was")
  ∧ ∃ space,
      display_concordance (lit "a little lamb" ++ [LF] ++ lit "the lamb was")
                          (lit "lamb") 4
      = ret (lit "<pre>"
             ++ join [LF]
                  (display_row (lit "lamb") space
                     <$> concordance
                           (lit "a little lamb" ++ [LF] ++ lit "the lamb was")
                           (lit "lamb") 4)
             ++ lit "</pre>").
Proof.
  assert (lit "lamb"
          ∈ split (lit "a little lamb" ++ [LF] ++ lit "the lamb was")) as Hin.
  { apply (bool_decide_unpack _). by vm_compute. }
  split; [done|].
  destruct (display_concordance_aligned
              (lit "a little lamb" ++ [LF] ++ lit "the lamb was")
              (lit "lamb") 4 Hin) as (space & Hd & _).
  by exists space.
Defined.

(** ** A negative neighbourhood *)

(** X10.  With a negative [neighborhood_size] the string in front of an
    occurrence is always empty.  The string behind it is empty as long as
    [i + neighborhood_size + 1] is not negative; once that bound is
    negative the slice reads it from the end of the line, and the string
    holds up to [line_length + neighborhood_size] tokens that follow the
    occurrence. *)
Theorem context_window_negative_size (items : list str) (neighborhood_size : Z)
    (i : nat) :
  neighborhood_size < 0 →
  (i < length items)%nat →
  (context_window items neighborhood_size i).1 = []
  ∧ (0 ≤ Z.of_nat i + neighborhood_size + 1 →
     (context_window items neighborhood_size i).2 = [])
  ∧ (Z.of_nat i + neighborhood_size + 1 < 0 →
     (context_window items neighborhood_size i).2
     = join [SP] (take (Z.to_nat (len items + neighborhood_size))
                       (drop (i + 1) items))).
Proof.
  intros Hns Hi. unfold context_window. cbn [fst snd]. split_and!.
  - destruct (Z.ltb_spec (Z.of_nat i - neighborhood_size) 0); [lia|].
    rewrite <-(Z2Nat.id (Z.of_nat i - neighborhood_size)) by lia.
    rewrite slice_of_nat.
    by replace (i - Z.to_nat (Z.of_nat i - neighborhood_size))%nat
      with 0%nat by lia.
  - intros Hf.
    rewrite <-(Z2Nat.id (Z.of_nat i + neighborhood_size + 1)) by lia.
    replace (Z.of_nat i + 1) with (Z.of_nat (i + 1)) by lia.
    rewrite slice_of_nat.
    by replace (Z.to_nat (Z.of_nat i + neighborhood_size + 1) - (i + 1))%nat
      with 0%nat by lia.
  - intros Hf. unfold slice, slice_bound, len.
    destruct (Z.ltb_spec (Z.of_nat i + 1) 0); [lia|].
    destruct (Z.ltb_spec (Z.of_nat i + neighborhood_size + 1) 0); [|lia].
    do 2 f_equal; [|f_equal; lia].
    destruct (Z.max_spec 0 (Z.of_nat i + neighborhood_size + 1
                            + Z.of_nat (length items))) as [[? ->]|[? ->]];
      lia.
Qed.

Lemma context_window_negative_size_witness :
  -3 < 0
  ∧ (0 < length (split (lit "a b c d e")))%nat
  ∧ (context_window (split (lit "a b c d e")) (-3) 0).1 = []
  ∧ (context_window (split (lit "a b c d e")) (-3) 0).2 = lit "b c".
Proof.
  assert (0 < length (split (lit "a b c d e")))%nat as Hi
    by (vm_compute; lia).
  split_and!; [lia|done| |].
  - by apply (context_window_negative_size
                (split (lit "a b c d e")) (-3) 0 ltac:(lia) Hi).
  - destruct (context_window_negative_size
                (split (lit "a b c d e")) (-3) 0 ltac:(lia) Hi)
      as (_ & _ & Hafter).
    by rewrite Hafter.
Defined.

(** ** The entries of [word_count] *)

(** X11.  [word_count] lists every token of the text exactly once, with the
    number of its occurrences among the tokens: an entry [(w, c)] is in the
    result exactly when [c] is that number and it is not zero; no two
    entries have the same word, and the counts add up to the number of
    tokens. *)
Theorem word_count_entries (text : str) :
  (∀ w c, (w, c) ∈ word_count text
          ↔ c = occurrences w (split text) ∧ (0 < c)%nat)
  ∧ NoDup (word_count text).*1
  ∧ sum_list (word_count text).*2 = length (split text).
Proof.
  unfold word_count. split_and!.
  - intros w c. apply Counter_entry.
  - apply Counter_NoDup.
  - apply Counter_total.
Qed.

(** ** What the cleaned body is made of *)

(** X12.  The cleaned body holds none of the punctuation characters and is
    in lower case, and the cleaning invents no character: every character
    of the body is a space, a newline, or a character of the lower-cased
    input. *)
Theorem clean_body_characters (file : str) :
  Forall (λ a, a ∉ punct) (clean file)
  ∧ lower (clean file) = clean file
  ∧ Forall (λ a, a = SP ∨ a = LF ∨ a ∈ lower file) (clean file).
Proof.
  split_and!.
  - apply clean_punct_free.
  - apply clean_lower_fixed.
  - apply clean_Forall; [by right; left|].
    intros text Ht. apply clean_line_Forall; [by left|].
    assert (Forall (λ a, a ∈ lower file) (lower file)) as Hall
      by by apply Forall_forall.
    apply body_blocks_Forall in Hall.
    eapply Forall_forall in Hall; [|done].
    eapply Forall_impl; [exact Hall|]. intros a Ha. by do 2 right.
Qed.

(** ** Header and footer *)

Lemma list_find_first {A} (P : A → Prop) `{∀ x, Decision (P x)}
    (pre : list A) x post :
  P x → Forall (λ y, ¬ P y) pre →
  list_find P (pre ++ x :: post) = Some (length pre, x).
Proof.
  intros Hx Hpre. apply list_find_Some. split_and!.
  - by rewrite lookup_app_r, Nat.sub_diag by lia.
  - done.
  - intros j y Hj Hlt. rewrite lookup_app_l in Hj by done.
    by eapply Forall_lookup_1 in Hpre.
Qed.

Lemma list_find_none {A} (P : A → Prop) `{∀ x, Decision (P x)} (l : list A) :
  Forall (λ y, ¬ P y) l → list_find P l = None.
Proof. intros Hl. by apply list_find_None. Qed.

Lemma remove_header_none file :
  Forall (λ text, startswith text head = false) file →
  remove_header file = file.
Proof.
  intros Hnone. unfold remove_header. rewrite list_find_none; [done|].
  eapply Forall_impl; [exact Hnone|]. intros text Ht.
  by apply Is_true_false_2.
Qed.

Lemma remove_header_at before marker after :
  startswith marker head = true →
  Forall (λ text, startswith text head = false) before →
  remove_header (before ++ marker :: after) = after.
Proof.
  intros Hm Hbefore. unfold remove_header.
  rewrite (list_find_first _ before marker after).
  - rewrite (cons_middle marker before after), app_assoc.
    apply drop_app_length'. rewrite length_app. simpl. lia.
  - by rewrite Hm.
  - eapply Forall_impl; [exact Hbefore|]. intros text Ht.
    by apply Is_true_false_2.
Qed.

Lemma remove_footer_none file :
  Forall (λ text, startswith text foot = false) file →
  remove_footer file = file.
Proof.
  intros Hnone. unfold remove_footer. rewrite list_find_none; [done|].
  apply Forall_rev. eapply Forall_impl; [exact Hnone|]. intros text Ht.
  by apply Is_true_false_2.
Qed.

Lemma remove_footer_at before marker after :
  startswith marker foot = true →
  Forall (λ text, startswith text foot = false) after →
  remove_footer (before ++ marker :: after) = before.
Proof.
  intros Hm Hafter. unfold remove_footer.
  rewrite rev_app_distr. cbn [rev]. rewrite <-app_assoc. cbn [app].
  rewrite (list_find_first _ (rev after) marker (rev before)).
  - rewrite length_rev, length_app. cbn [length].
    replace (length before + S (length after) - (length after + 1))%nat
      with (length before) by lia.
    apply take_app_length.
  - by rewrite Hm.
  - apply Forall_rev. eapply Forall_impl; [exact Hafter|].
    intros text Ht. by apply Is_true_false_2.
Qed.

(** X13.  The header loop deletes the first block that starts with the
    start marker together with every block before it, and nothing else:
    blocks after it stay, also those that start with the marker again.
    Without such a block the list is left as it is. *)
Theorem remove_header_first_marker (file : list str) :
  (Forall (λ text, startswith text head = false) file →
   remove_header file = file)
  ∧ (∀ before marker after,
       file = before ++ marker :: after →
       startswith marker head = true →
       Forall (λ text, startswith text head = false) before →
       remove_header file = after).
Proof.
  split; [apply remove_header_none|].
  intros before marker after ->. apply remove_header_at.
Qed.

(** X14.  The footer loop deletes the last block that starts with the end
    marker together with every block after it, and nothing else: blocks
    before it stay, also those that start with the marker.  Without such a
    block the list is left as it is. *)
Theorem remove_footer_last_marker (file : list str) :
  (Forall (λ text, startswith text foot = false) file →
   remove_footer file = file)
  ∧ (∀ before marker after,
       file = before ++ marker :: after →
       startswith marker foot = true →
       Forall (λ text, startswith text foot = false) after →
       remove_footer file = before).
Proof.
  split; [apply remove_footer_none|].
  intros before marker after ->. apply remove_footer_at.
Qed.

(** X15.  When the paragraphs of the lower-cased input hold a first block
    with the start marker and, behind it, a last block with the end marker,
    the blocks that are cleaned are exactly the blocks between the two:
    front matter, back matter and both marker blocks are dropped, whatever
    the blocks in between start with. *)
Theorem body_blocks_between_markers (file : str)
    (front : list str) (start : str) (body : list str) (stop : str)
    (back : list str) :
  split_paragraphs (lower file) = front ++ start :: body ++ stop :: back →
  startswith start head = true →
  Forall (λ text, startswith text head = false) front →
  startswith stop foot = true →
  Forall (λ text, startswith text foot = false) back →
  body_blocks file = body
  ∧ clean file
    = strip (concat (clean_block <$> filter (λ text, [] ≠ text) body)).
Proof.
  intros Hsplit Hstart Hfront Hstop Hback.
  assert (body_blocks file = body) as Hbody.
  { unfold body_blocks. rewrite Hsplit, remove_header_at by done.
    by apply remove_footer_at. }
  split; [done|]. unfold clean, clean_blocks. by rewrite Hbody.
Qed.

Lemma body_blocks_between_markers_witness :
  body_blocks (lit "Title" ++ [LF; LF]
               ++ lit "*** START OF THIS PROJECT GUTENBERG EBOOK X ***"
               ++ [LF; LF] ++ lit "Hello World." ++ [LF; LF]
               ++ lit "*** END OF THIS PROJECT GUTENBERG EBOOK X ***"
               ++ [LF; LF] ++ lit "License")
  = [lit "hello world."].
Proof.
  apply (body_blocks_between_markers _
           [lit "title"]
           (lit "*** start of this project gutenberg ebook x ***")
           [lit "hello world."]
           (lit "*** end of this project gutenberg ebook x ***")
           [lit "license"]); [by vm_compute|done| |done|].
  - by repeat constructor.
  - by repeat constructor.
Defined.

(** ** The tokens of the cleaned body *)

Lemma split_leading_space pre s :
  Forall (λ a, isspace a = true) pre → split (pre ++ s) = split s.
Proof. induction 1 as [|a pre Ha _ IH]; [done|]. simpl. by rewrite Ha. Qed.

Lemma split_trailing_space s post :
  Forall (λ a, isspace a = true) post → split (s ++ post) = split s.
Proof.
  intros Hpost. destruct Hpost as [|c post Hc Hpost].
  - by rewrite app_nil_r.
  - rewrite split_app_space by done. rewrite (split_all_space post) by done.
    apply app_nil_r.
Qed.

Lemma split_strip s : split (strip s) = split s.
Proof.
  destruct (strip_by_decomp isspace s) as (pre & post & Hs & Hpre & Hpost & _).
  fold (strip s) in Hs. rewrite Hs at 2.
  by rewrite split_leading_space, split_trailing_space.
Qed.

Lemma split_concat_clean_blocks blocks :
  split (concat (clean_block <$> blocks))
  = flat_map (λ text, split (clean_line text)) blocks.
Proof.
  induction blocks as [|text blocks IH]; [done|].
  rewrite fmap_cons, concat_cons, clean_block_line, <-app_assoc.
  cbn [app flat_map]. by rewrite split_app_space, IH.
Qed.

(** X16.  The tokens of the cleaned body are the tokens of the cleaned
    blocks, block after block: joining the blocks with newlines and
    stripping the result neither adds, removes nor merges a token, and an
    empty block has none. *)
Theorem clean_tokens (file : str) :
  split (clean file)
  = flat_map (λ text, split (clean_line text)) (body_blocks file).
Proof.
  unfold clean, clean_blocks. rewrite split_strip, split_concat_clean_blocks.
  induction (body_blocks file) as [|text blocks IH]; [done|].
  rewrite filter_cons. cbn [flat_map].
  case_decide as Ht.
  - cbn [flat_map]. by rewrite IH.
  - assert (text = []) as -> by (by destruct text). by rewrite IH.
Qed.

(** ** The lines of the cleaned body *)

(** X17.  Cleaning at least halves the number of newlines: the body has at
    most one line per paragraph of the input, and the newlines inside a
    paragraph are gone. *)
Theorem clean_halves_newlines (file : str) :
  (2 * newlines (clean file) ≤ newlines file)%nat.
Proof.
  pose proof (length_clean_blocks file) as Hlen.
  unfold clean. unfold clean_blocks in *.
  destruct (decide (filter (λ text, [] ≠ text) (body_blocks file) = []))
    as [Hnil|Hne].
  - rewrite Hnil. simpl. lia.
  - destruct (concat_clean_blocks_snoc _ Hne) as [body Hbody].
    pose proof (newlines_concat_clean_blocks
                  (filter (λ text, [] ≠ text) (body_blocks file))) as Hcount.
    rewrite length_fmap in Hlen.
    rewrite Hbody, newlines_app in Hcount. rewrite Hbody.
    pose proof (newlines_strip_snoc body).
    change (newlines [LF]) with 1%nat in Hcount. lia.
Qed.

(** * The commands *)

(** ** The opening block *)

Lemma readline_app stream :
  (readline stream).1 ++ (readline stream).2 = stream.
Proof.
  induction stream as [|a stream IH]; [done|]. cbn [readline].
  case_decide; [done|]. destruct (readline stream) as [line rest].
  simpl in *. by rewrite IH.
Qed.

Lemma readline_first stream :
  (readline stream).1
  = hd [] (split_on LF stream) ++ (if decide (LF ∈ stream) then [LF] else []).
Proof.
  induction stream as [|a stream IH].
  - destruct (decide (LF ∈ @nil ascii)) as [H|H]; [|done].
    by apply elem_of_nil in H.
  - cbn [readline split_on]. destruct (decide (a = LF)) as [->|Ha].
    + done.
    + destruct (readline stream) as [line rest]. simpl in *.
      assert (hd [] (match split_on LF stream with
                     | [] => [[a]]
                     | piece :: pieces => (a :: piece) :: pieces
                     end) = a :: hd [] (split_on LF stream)) as ->
        by by destruct (split_on LF stream).
      rewrite IH. cbn [app]. f_equal. f_equal.
      destruct (decide (LF ∈ stream)) as [Hin|Hin].
      * by rewrite decide_True by by right.
      * rewrite decide_False; [done|]. by intros [?|?]%elem_of_cons.
Qed.

Lemma startswith_snoc s c p : c ∉ p → startswith (s ++ [c]) p = startswith s p.
Proof.
  revert s. induction p as [|b p IH]; intros s Hc; [by destruct s|].
  apply not_elem_of_cons in Hc as [Hb Hp]. destruct s as [|a s]; simpl.
  - by rewrite decide_False.
  - case_decide; [by apply IH|done].
Qed.

Lemma contains_snoc s c p :
  p ≠ [] → c ∉ p → contains (s ++ [c]) p = contains s p.
Proof.
  intros Hne Hc. induction s as [|a s IH].
  - destruct p as [|b p]; [done|]. simpl.
    apply not_elem_of_cons in Hc as [Hb Hp]. by rewrite decide_False.
  - cbn [app contains]. rewrite IH. f_equal.
    by apply (startswith_snoc (a :: s)).
Qed.

Lemma contains_first_line stream p :
  p ≠ [] → LF ∉ p →
  contains (readline stream).1 p = contains (hd [] (split_on LF stream)) p.
Proof.
  intros Hne Hp. rewrite readline_first. case_decide.
  - by apply contains_snoc.
  - by rewrite app_nil_r.
Qed.

Lemma open_input_accepted sys clean_pg :
  contains (hd [] (split_on LF (stdin sys))) (lit "Project Gutenberg") = true →
  ∃ line rest,
    stdin sys = line ++ rest
    ∧ open_input sys (lit "-") clean_pg
      = inr (PGalyzer (stream_contents line rest) clean_pg).
Proof.
  intros Hyes.
  assert (contains (readline (stdin sys)).1 (lit "Project Gutenberg")
          = contains (hd [] (split_on LF (stdin sys)))
                     (lit "Project Gutenberg")) as Hfirst.
  { apply contains_first_line; [done|].
    apply (bool_decide_unpack _). by vm_compute. }
  pose proof (readline_app (stdin sys)) as Happ.
  unfold open_input. rewrite decide_True by done.
  destruct (stdin sys) as [|a stream] eqn:Hs; [done|].
  destruct (readline (a :: stream)) as [line rest].
  cbn [fst snd] in Hfirst, Happ. rewrite Hfirst, Hyes. by exists line, rest.
Qed.

(** X18.  A command that is given the path [-] reads standard input and
    never looks at the files.  An empty input is not reported as a
    [ClickException]: the name [line] is unbound and the command fails with
    [UnboundLocalError].  Otherwise the input is accepted exactly when its
    first line contains [Project Gutenberg] in this spelling; a later line
    does not count.  The accepted text is the input with the carriage
    returns behind the first line turned into spaces: nothing is lost
    between the first line and the rest, the tokens of every line are those
    of the input, and without a carriage return the text is the input. *)
Theorem open_input_stdin (sys : system) (clean_pg : bool) :
  let first_line := hd [] (split_on LF (stdin sys)) in
  (stdin sys = [] →
   open_input sys (lit "-") clean_pg = inl (UnboundLocalError (lit "line")))
  ∧ (stdin sys ≠ [] →
     contains first_line (lit "Project Gutenberg") = false →
     open_input sys (lit "-") clean_pg
     = inl (ClickException
              (lit "The file or content is not a Project Gutenberg text content file.")))
  ∧ (contains first_line (lit "Project Gutenberg") = true →
     ∃ line rest,
       stdin sys = line ++ rest
       ∧ open_input sys (lit "-") clean_pg
         = inr (PGalyzer (stream_contents line rest) clean_pg)
       ∧ tokenize (stream_contents line rest) = tokenize (stdin sys)
       ∧ (CR ∉ stdin sys → stream_contents line rest = stdin sys)).
Proof.
  intros first_line.
  assert (contains (readline (stdin sys)).1 (lit "Project Gutenberg")
          = contains first_line (lit "Project Gutenberg")) as Hfirst.
  { apply contains_first_line; [done|].
    apply (bool_decide_unpack _). by vm_compute. }
  pose proof (readline_app (stdin sys)) as Happ.
  unfold open_input. rewrite decide_True by done.
  split_and!.
  - by intros ->.
  - intros Hne Hno. destruct (stdin sys) as [|a stream] eqn:Hs; [done|].
    destruct (readline (a :: stream)) as [line rest].
    cbn [fst] in Hfirst. by rewrite Hfirst, Hno.
  - intros Hyes.
    destruct (open_input_accepted sys clean_pg Hyes)
      as (line & rest & Hs & Hopen).
    unfold open_input in Hopen. rewrite decide_True in Hopen by done.
    exists line, rest. split_and!; [done|done| |].
    + rewrite Hs.
      apply tokenize_same_kind, stream_contents_same_kind.
    + intros HCR. rewrite Hs in HCR |- *.
      unfold stream_contents. rewrite replace_absent; [done|].
      intros Hin. apply HCR, elem_of_app. by right.
Qed.

Lemma open_input_stdin_witness :
  ∃ line rest,
    lit "The Project Gutenberg EBook" ++ [LF] ++ lit "a b" = line ++ rest
    ∧ open_input (System (lit "The Project Gutenberg EBook" ++ [LF]
                          ++ lit "a b") ∅)
                 (lit "-") false
      = inr (PGalyzer (stream_contents line rest) false).
Proof.
  destruct (proj2 (proj2 (open_input_stdin
                            (System (lit "The Project Gutenberg EBook"
                                     ++ [LF] ++ lit "a b") ∅) false))
              eq_refl)
    as (line & rest & Hs & Ho & _).
  by exists line, rest.
Defined.

(** ** What [echo] writes *)

Lemma strip_ansi_absent s : ESC ∉ s → strip_ansi s = s.
Proof.
  unfold strip_ansi. induction s as [|a s IH]; [done|].
  intros [Ha Hs]%not_elem_of_cons. cbn [strip_from].
  assert (ansi_match (a :: s) = None) as ->.
  { unfold ansi_match. destruct s as [|b s]; [done|].
    by rewrite decide_False. }
  by rewrite IH.
Qed.

Lemma echo_plain terminal message :
  terminal = true ∨ ESC ∉ message → echo terminal message = message ++ [LF].
Proof.
  unfold echo. intros [->|Hm]; [done|]. destruct terminal; [done|].
  apply strip_ansi_absent. rewrite not_elem_of_app. split; [done|].
  by intros ?%list_elem_of_singleton.
Qed.

Lemma not_elem_Forall (c : ascii) s : c ∉ s ↔ Forall (λ a, a ≠ c) s.
Proof.
  rewrite Forall_forall. split.
  - by intros Hc a Ha ->.
  - intros Hall Hin. by apply (Hall c).
Qed.

Lemma concat_not_elem (c : ascii) ls :
  Forall (λ l, c ∉ l) ls → c ∉ concat ls.
Proof.
  induction 1 as [|l ls Hl _ IH]; [apply not_elem_of_nil|].
  simpl. by rewrite not_elem_of_app.
Qed.

Lemma join_not_elem c sep parts :
  c ∉ sep → Forall (λ p, c ∉ p) parts → c ∉ join sep parts.
Proof.
  intros Hsep. induction 1 as [|p ps Hp Hps IH]; [apply not_elem_of_nil|].
  destruct ps as [|p' ps]; [done|]. rewrite join_cons by done.
  by rewrite !not_elem_of_app.
Qed.

Lemma string_of_uint_not_elem d c :
  c ∉ lit "0123456789" → c ∉ lit (NilEmpty.string_of_uint d).
Proof.
  intros Hc. unfold lit in *.
  induction d as [|d IH|d IH|d IH|d IH|d IH|d IH|d IH|d IH|d IH|d IH];
    cbn [NilEmpty.string_of_uint list_ascii_of_string];
    [apply not_elem_of_nil|
     apply not_elem_of_cons; split; [|done]; intros ->; apply Hc;
     apply (bool_decide_unpack _); by vm_compute..].
Qed.

Lemma counted_not_elem c entry :
  c ∉ entry.1 → c ≠ TAB → c ∉ lit "0123456789" → c ∉ counted entry.
Proof.
  intros Hk HTAB Hdigit. unfold counted, str_of.
  rewrite !not_elem_of_app. split_and!; [done| |].
  - by intros ?%list_elem_of_singleton.
  - by apply string_of_uint_not_elem.
Qed.

Lemma ngrams_ranked_keys text n entry :
  entry ∈ ngrams_ranked text n → entry.1 ∈ ngrams_list text n.
Proof.
  unfold ngrams_ranked, most_common, ngrams. intros Hin.
  rewrite !sorted_perm in Hin. apply Counter_keys.
  by apply list_elem_of_fmap_2.
Qed.

Lemma ngrams_ranked_chars c text n :
  c ∉ text → c ≠ SP → Forall (λ entry, c ∉ entry.1) (ngrams_ranked text n).
Proof.
  intros Hc Hsp. apply Forall_forall. intros entry Hin%ngrams_ranked_keys.
  apply not_elem_Forall in Hc.
  pose proof (ngrams_list_Forall (λ a, a ≠ c) text n ltac:(done) Hc) as Hall.
  eapply Forall_forall in Hall; [|done]. by apply not_elem_Forall.
Qed.

Lemma text_pairs_chars c text w v :
  c ∉ text → (w, v) ∈ text_pairs text → (c ∉ w) ∧ c ∉ v.
Proof.
  intros Hc%not_elem_Forall. unfold text_pairs, adjacent_pairs.
  intros (line & Hline & Hin)%list_elem_of_In%in_flat_map.
  apply list_elem_of_In in Hin, Hline.
  apply (split_on_Forall _ LF) in Hc.
  eapply Forall_forall in Hc; [|done]. apply split_Forall in Hc.
  split; apply not_elem_Forall.
  - apply elem_of_zip_l in Hin. by eapply Forall_forall in Hc.
  - apply elem_of_zip_r, subseteq_drop in Hin.
    by eapply Forall_forall in Hc.
Qed.

Lemma ranked_slice_keys vs lo hi entry :
  entry ∈ slice (ranked vs) lo hi → entry.1 ∈ vs.
Proof.
  destruct entry as [v c]. intros [-> Hpos]%slice_ranked_entries.
  destruct (decide (v ∈ vs)) as [|Hno]; [done|].
  apply occurrences_zero in Hno. lia.
Qed.

Lemma successors_chars c text word :
  c ∉ text → Forall (λ v, c ∉ v) (successors text word).
Proof.
  intros Hc. apply Forall_forall. intros v Hv. unfold successors in Hv.
  apply list_elem_of_fmap in Hv as ([w v'] & -> & Hin).
  apply list_elem_of_filter in Hin as [_ Hin].
  by apply (text_pairs_chars c) in Hin as [_ ?].
Qed.

Lemma predecessors_chars c text word :
  c ∉ text → Forall (λ v, c ∉ v) (predecessors text word).
Proof.
  intros Hc. apply Forall_forall. intros v Hv. unfold predecessors in Hv.
  apply list_elem_of_fmap in Hv as ([v' w] & -> & Hin).
  apply list_elem_of_filter in Hin as [_ Hin].
  by apply (text_pairs_chars c) in Hin as [? _].
Qed.

Lemma concordance_chars c text word ns :
  c ∉ text → c ≠ SP →
  Forall (λ words, (c ∉ words.1) ∧ c ∉ words.2) (concordance text word ns).
Proof.
  intros Htext%not_elem_Forall Hsp.
  unfold concordance. apply Forall_flat_map, Forall_forall.
  intros line Hline. apply Forall_fmap, Forall_forall. intros i _.
  apply (split_on_Forall _ LF) in Htext.
  eapply Forall_forall in Htext; [|done]. apply split_Forall in Htext.
  unfold compose, context_window. cbn [fst snd].
  split; apply not_elem_Forall, join_Forall; (by repeat constructor)
         || by apply slice_Forall.
Qed.

Lemma repeat_char_not_elem c a k : c ≠ a → c ∉ repeat_char a k.
Proof. intros Hc [? _]%elem_of_replicate. done. Qed.

(** The messages of the commands hold no escape character when the text
    holds none. *)
Lemma counted_message_plain (r : list (str * nat)) :
  Forall (λ entry, ESC ∉ entry.1) r → Forall (λ l, ESC ∉ l) (counted <$> r).
Proof.
  intros Hr. apply Forall_fmap. eapply Forall_impl; [exact Hr|].
  intros entry Hk. apply counted_not_elem; [done|done|].
  apply (bool_decide_unpack _). by vm_compute.
Qed.

Lemma snoc_lines_plain (c : ascii) (lines : list str) :
  c ≠ LF → Forall (λ l, c ∉ l) lines →
  c ∉ concat ((λ line, line ++ [LF]) <$> lines).
Proof.
  intros Hc Hlines. apply concat_not_elem, Forall_fmap.
  eapply Forall_impl; [exact Hlines|]. intros line Hline. unfold compose.
  rewrite not_elem_of_app. split; [done|].
  by intros ?%list_elem_of_singleton.
Qed.

(** ** The printed lines *)

Lemma token_not_space w c : is_token w → isspace c = true → c ∉ w.
Proof.
  intros [_ Hw] Hc Hin. eapply Forall_forall in Hw; [|done]. congruence.
Qed.

Lemma tokens_join_not_elem c ws :
  isspace c = true → c ≠ SP → Forall is_token ws → c ∉ join [SP] ws.
Proof.
  intros Hc Hsp Hws. apply join_not_elem.
  - by intros ->%list_elem_of_singleton.
  - eapply Forall_impl; [exact Hws|]. intros w Hw.
    by apply token_not_space.
Qed.

Lemma ngrams_loop_not_elem c words n indices :
  isspace c = true → c ≠ SP → Forall is_token words →
  Forall (λ k, c ∉ k) (ngrams_loop words n indices).
Proof.
  intros Hc Hsp Hws. induction indices as [|i indices IH]; [constructor|].
  cbn [ngrams_loop]. destruct (_ >? _); constructor; [|done].
  by apply tokens_join_not_elem, slice_Forall.
Qed.

Lemma ngrams_list_not_elem c text n :
  isspace c = true → c ≠ SP → Forall (λ k, c ∉ k) (ngrams_list text n).
Proof.
  intros Hc Hsp. unfold ngrams_list. apply Forall_flat_map, Forall_forall.
  intros line _. apply ngrams_loop_not_elem; [done..|apply split_tokens].
Qed.

Lemma word_count_ngrams text : word_count text = ngrams text 1.
Proof.
  unfold word_count, ngrams. f_equal.
  rewrite ngrams_list_windows by lia. rewrite <-split_lines.
  apply flat_map_ext. intros line. by rewrite windows_1.
Qed.

Lemma string_of_uint_not_space d c :
  isspace c = true → c ∉ lit (NilEmpty.string_of_uint d).
Proof.
  intros Hc. unfold lit.
  induction d as [|d IH|d IH|d IH|d IH|d IH|d IH|d IH|d IH|d IH|d IH];
    cbn [NilEmpty.string_of_uint list_ascii_of_string];
    [apply not_elem_of_nil|
     apply not_elem_of_cons; split; [by intros ->|done]..].
Qed.

Lemma str_of_not_space y c : isspace c = true → c ∉ str_of y.
Proof. apply string_of_uint_not_space. Qed.

Lemma parse_count_str_of y : parse_count (str_of y) = Some y.
Proof.
  unfold parse_count, str_of, lit.
  rewrite string_of_list_ascii_of_string, NilEmpty.usu.
  cbn [fmap option_fmap option_map]. by rewrite Unsigned.of_to.
Qed.

Lemma split_on_absent c s : c ∉ s → split_on c s = [s].
Proof.
  induction s as [|a s IH]; [done|].
  intros [Ha Hs]%not_elem_of_cons. cbn [split_on].
  rewrite decide_False by done. by rewrite IH.
Qed.

Lemma fields_tab x y :
  TAB ∉ x → TAB ∉ y → fields (x ++ [TAB] ++ y) = Some (x, y).
Proof.
  intros Hx Hy. unfold fields. cbn [app].
  by rewrite split_on_app, split_on_absent.
Qed.

Lemma parse_entry_counted entry :
  TAB ∉ entry.1 → parse_entry (counted entry) = Some entry.
Proof.
  intros Hk. unfold parse_entry, counted.
  rewrite fields_tab by (done || by apply str_of_not_space).
  rewrite parse_count_str_of. by destruct entry.
Qed.

Lemma counted_line entry :
  LF ∉ entry.1 → (LF ∉ counted entry) ∧ counted entry ≠ [].
Proof.
  intros Hk. unfold counted. split.
  - rewrite !not_elem_of_app. split_and!; [done| |by apply str_of_not_space].
    by intros ?%list_elem_of_singleton.
  - by destruct (entry.1).
Qed.

Lemma split_on_lines c lines tail :
  Forall (λ line, c ∉ line) lines →
  split_on c (concat ((λ line, line ++ [c]) <$> lines) ++ tail)
  = lines ++ split_on c tail.
Proof.
  induction 1 as [|line lines Hline _ IH]; [done|].
  rewrite fmap_cons, concat_cons, <-!app_assoc. cbn [app].
  by rewrite split_on_app, IH.
Qed.

Lemma join_concat sep parts :
  parts ≠ [] → join sep parts ++ sep = concat ((λ p, p ++ sep) <$> parts).
Proof.
  induction parts as [|p ps IH]; [done|]. intros _.
  destruct ps as [|p' ps]; [simpl; by rewrite app_nil_r|].
  rewrite join_cons by done.
  rewrite fmap_cons, concat_cons, <-!app_assoc. by rewrite IH.
Qed.

Lemma filter_all {A} (P : A → Prop) `{∀ x, Decision (P x)} (l : list A) :
  Forall P l → filter P l = l.
Proof.
  induction 1 as [|x l Hx _ IH]; [done|].
  by rewrite filter_cons, decide_True, IH.
Qed.

Lemma nonblank_lines_concat lines :
  Forall (λ line, (LF ∉ line) ∧ line ≠ []) lines →
  nonblank_lines (concat ((λ line, line ++ [LF]) <$> lines) ++ [LF]) = lines.
Proof.
  intros Hlines. unfold nonblank_lines.
  rewrite split_on_lines
    by (eapply Forall_impl; [exact Hlines|]; by intros line [? _]).
  rewrite filter_app, filter_all
    by (eapply Forall_impl; [exact Hlines|]; by intros line [_ ?]).
  apply app_nil_r.
Qed.

Lemma nonblank_lines_join lines :
  Forall (λ line, (LF ∉ line) ∧ line ≠ []) lines →
  nonblank_lines (join [LF] lines ++ [LF]) = lines.
Proof.
  intros Hlines. destruct (decide (lines = [])) as [->|Hne]; [done|].
  unfold nonblank_lines. rewrite join_concat by done.
  rewrite <-(app_nil_r (concat _)).
  rewrite split_on_lines
    by (eapply Forall_impl; [exact Hlines|]; by intros line [? _]).
  rewrite filter_app, filter_all
    by (eapply Forall_impl; [exact Hlines|]; by intros line [_ ?]).
  apply app_nil_r.
Qed.

Lemma counted_lines (r : list (str * nat)) :
  Forall (λ entry, (TAB ∉ entry.1) ∧ LF ∉ entry.1) r →
  Forall (λ line, (LF ∉ line) ∧ line ≠ []) (counted <$> r)
  ∧ mapM parse_entry (counted <$> r) = Some r.
Proof.
  intros Hr. split.
  - apply Forall_fmap. eapply Forall_impl; [exact Hr|].
    intros entry [_ HLF]. by apply counted_line.
  - apply mapM_fmap_Forall_Some. eapply Forall_impl; [exact Hr|].
    intros entry [HTAB _]. by apply parse_entry_counted.
Qed.

Lemma ngrams_ranked_plain text n :
  Forall (λ entry, (TAB ∉ entry.1) ∧ LF ∉ entry.1) (ngrams_ranked text n).
Proof.
  apply Forall_forall. intros entry Hin%ngrams_ranked_keys.
  split.
  - pose proof (ngrams_list_not_elem TAB text n eq_refl) as Hall.
    eapply Forall_forall in Hall; [done|done|done].
  - pose proof (ngrams_list_not_elem LF text n eq_refl) as Hall.
    eapply Forall_forall in Hall; [done|done|done].
Qed.

(** X19.  When standard output is a terminal, or the text holds no escape
    character, the [ngrams] command prints one line for each distinct
    n-gram, in the order of the ranking; without any n-gram it prints an
    empty line.  A line is the n-gram, a tab and the count in decimal
    digits; since an n-gram holds neither a tab nor a newline, cutting the
    output at the newlines and each line at its tab gives back every n-gram
    with its count.  The [word_count] command prints what the [ngrams]
    command prints for [n = 1]. *)
Theorem ngrams_command_output (sys : system) (terminal : bool) (file : str)
    (n : Z) (clean_pg : bool) (text : str) :
  open_input sys file clean_pg = inr text →
  terminal = true ∨ ESC ∉ text →
  ∃ out,
    cli.ngrams sys terminal file n clean_pg = inr out
    ∧ nonblank_lines out = counted <$> ngrams_ranked text n
    ∧ mapM parse_entry (nonblank_lines out) = Some (ngrams_ranked text n)
    ∧ (ngrams_ranked text n = [] → out = [LF])
    ∧ cli.word_count sys terminal file clean_pg
      = cli.ngrams sys terminal file 1 clean_pg.
Proof.
  intros Hopen Hout. unfold cli.ngrams, cli.word_count. rewrite Hopen.
  cbn [and_then]. eexists. split; [done|].
  rewrite echo_plain.
  - destruct (counted_lines _ (ngrams_ranked_plain text n))
      as [Hlines Hparse].
    rewrite nonblank_lines_join by done. split_and!; [done|done| |].
    + by intros ->.
    + unfold ngrams_ranked. by rewrite word_count_ngrams.
  - destruct Hout as [->|HESC]; [by left|right].
    apply join_not_elem; [by intros ?%list_elem_of_singleton|].
    by apply counted_message_plain, ngrams_ranked_chars.
Qed.

Lemma ngrams_command_output_witness :
  ∃ out,
    cli.ngrams (System (lit "Project Gutenberg" ++ [LF] ++ lit "a b a") ∅)
               false (lit "-") 2 false
    = inr out
    ∧ mapM parse_entry (nonblank_lines out)
      = Some (ngrams_ranked (lit "Project Gutenberg" ++ [LF] ++ lit "a b a")
                            2).
Proof.
  destruct (ngrams_command_output
              (System (lit "Project Gutenberg" ++ [LF] ++ lit "a b a") ∅)
              false (lit "-") 2 false
              (lit "Project Gutenberg" ++ [LF] ++ lit "a b a") eq_refl
              ltac:(right; apply (bool_decide_unpack _); by vm_compute))
    as (out & Hout & _ & Hparse & _).
  by exists out.
Defined.

Lemma text_pairs_tokens text w v :
  (w, v) ∈ text_pairs text → is_token w ∧ is_token v.
Proof.
  unfold text_pairs, adjacent_pairs.
  intros (line & _ & Hin)%list_elem_of_In%in_flat_map.
  apply list_elem_of_In in Hin.
  pose proof (split_tokens line) as Htok.
  split.
  - apply elem_of_zip_l in Hin. by eapply Forall_forall in Htok.
  - apply elem_of_zip_r, subseteq_drop in Hin.
    by eapply Forall_forall in Htok.
Qed.

Lemma ranked_slice_plain vs lo hi :
  Forall is_token vs →
  Forall (λ entry, (TAB ∉ entry.1) ∧ LF ∉ entry.1) (slice (ranked vs) lo hi).
Proof.
  intros Hvs. apply Forall_forall. intros [v c] Hin.
  apply slice_ranked_entries in Hin as [-> Hpos].
  assert (v ∈ vs) as Hv.
  { destruct (decide (v ∈ vs)) as [|Hno]; [done|].
    apply occurrences_zero in Hno. lia. }
  eapply Forall_forall in Hvs; [|done].
  split; by apply token_not_space.
Qed.

Lemma successors_tokens text word : Forall is_token (successors text word).
Proof.
  apply Forall_forall. intros v Hv. unfold successors in Hv.
  apply list_elem_of_fmap in Hv as ([w v'] & -> & Hin).
  apply list_elem_of_filter in Hin as [_ Hin].
  by apply text_pairs_tokens in Hin as [_ ?].
Qed.

Lemma predecessors_tokens text word : Forall is_token (predecessors text word).
Proof.
  apply Forall_forall. intros v Hv. unfold predecessors in Hv.
  apply list_elem_of_fmap in Hv as ([v' w] & -> & Hin).
  apply list_elem_of_filter in Hin as [_ Hin].
  by apply text_pairs_tokens in Hin as [? _].
Qed.

Lemma counted_output (r : list (str * nat)) :
  Forall (λ entry, (TAB ∉ entry.1) ∧ LF ∉ entry.1) r →
  nonblank_lines (concat ((λ tup, counted tup ++ [LF]) <$> r) ++ [LF])
  = counted <$> r
  ∧ mapM parse_entry
      (nonblank_lines (concat ((λ tup, counted tup ++ [LF]) <$> r) ++ [LF]))
    = Some r.
Proof.
  intros Hr. destruct (counted_lines r Hr) as [Hlines Hparse].
  assert ((λ tup, counted tup ++ [LF]) <$> r
          = (λ line, line ++ [LF]) <$> (counted <$> r)) as ->
    by by rewrite <-list_fmap_compose.
  by rewrite nonblank_lines_concat.
Qed.

(** X20.  The [likely_next] and [likely_previous] commands catch nothing:
    for a word that the table does not hold, the [KeyError] of the method
    leaves the command.  For any other word, when standard output is a
    terminal or the text holds no escape character, the command prints one
    line for each returned word, in the order of the method, and an empty
    line at the end.  A line is the word, a tab and the count in decimal
    digits; cutting the output at the newlines and each line at its tab
    gives back what the method returned. *)
Theorem likely_commands_output (sys : system) (terminal : bool)
    (file word : str) (n : Z) (clean_pg : bool) (text : str) :
  open_input sys file clean_pg = inr text →
  terminal = true ∨ ESC ∉ text →
  (successors text word = [] →
   cli.likely_next sys terminal file word n clean_pg
   = inl (Uncaught (KeyError word)))
  ∧ (successors text word ≠ [] →
     ∃ out,
       cli.likely_next sys terminal file word n clean_pg = inr out
       ∧ nonblank_lines out = counted <$> entries (likely_next text word n)
       ∧ mapM parse_entry (nonblank_lines out)
         = Some (entries (likely_next text word n)))
  ∧ (predecessors text word = [] →
     cli.likely_previous sys terminal file word n clean_pg
     = inl (Uncaught (KeyError word)))
  ∧ (predecessors text word ≠ [] →
     ∃ out,
       cli.likely_previous sys terminal file word n clean_pg = inr out
       ∧ nonblank_lines out
         = counted <$> entries (likely_previous text word n)
       ∧ mapM parse_entry (nonblank_lines out)
         = Some (entries (likely_previous text word n))).
Proof.
  intros Hopen Hout. unfold cli.likely_next, cli.likely_previous.
  rewrite Hopen. cbn [and_then].
  rewrite likely_next_eq, likely_previous_eq.
  pose proof (successors_tokens text word) as Hs.
  pose proof (predecessors_tokens text word) as Hp.
  assert (∀ vs lo hi,
            (terminal = true ∨ Forall (λ v, ESC ∉ v) vs) →
            terminal = true
            ∨ ESC ∉ concat ((λ tup, counted tup ++ [LF])
                              <$> slice (ranked vs) lo hi)) as Hplain.
  { intros vs lo hi [->|Hvs]; [by left|right].
    rewrite (list_fmap_compose counted (λ line, line ++ [LF])).
    apply snoc_lines_plain; [done|]. apply counted_message_plain.
    apply Forall_forall. intros entry Hin%ranked_slice_keys.
    by eapply Forall_forall in Hvs. }
  split_and!.
  - by intros ->.
  - intros Hne. destruct (successors text word) as [|v vs] eqn:Hvs; [done|].
    cbn [uncaught ret and_then entries]. eexists. split; [done|].
    rewrite echo_plain.
    + by apply counted_output, ranked_slice_plain.
    + apply Hplain. destruct Hout as [->|HESC]; [by left|right].
      rewrite <-Hvs. by apply successors_chars.
  - by intros ->.
  - intros Hne. destruct (predecessors text word) as [|v vs] eqn:Hvs; [done|].
    cbn [uncaught ret and_then entries]. eexists. split; [done|].
    rewrite echo_plain.
    + by apply counted_output, ranked_slice_plain.
    + apply Hplain. destruct Hout as [->|HESC]; [by left|right].
      rewrite <-Hvs. by apply predecessors_chars.
Qed.

Lemma likely_commands_output_witness :
  ∃ out,
    cli.likely_next (System (lit "Project Gutenberg" ++ [LF] ++ lit "a b a")
                            ∅)
                    false (lit "-") (lit "a") 5 false
    = inr out
    ∧ mapM parse_entry (nonblank_lines out)
      = Some (entries (likely_next (lit "Project Gutenberg" ++ [LF]
                                    ++ lit "a b a") (lit "a") 5)).
Proof.
  destruct (proj1 (proj2 (likely_commands_output
              (System (lit "Project Gutenberg" ++ [LF] ++ lit "a b a") ∅)
              false (lit "-") (lit "a") 5 false
              (lit "Project Gutenberg" ++ [LF] ++ lit "a b a") eq_refl
              ltac:(right; apply (bool_decide_unpack _); by vm_compute)))
              ltac:(by vm_compute))
    as (out & Hout & _ & Hparse).
  by exists out.
Defined.

Lemma context_window_plain c items ns i :
  isspace c = true → c ≠ SP → Forall is_token items →
  (c ∉ (context_window items ns i).1) ∧ c ∉ (context_window items ns i).2.
Proof.
  intros Hc Hsp Hitems. unfold context_window. cbn [fst snd].
  split; by apply tokens_join_not_elem, slice_Forall.
Qed.

Lemma concordance_plain c text word ns :
  isspace c = true → c ≠ SP →
  Forall (λ words, (c ∉ words.1) ∧ c ∉ words.2) (concordance text word ns).
Proof.
  intros Hc Hsp. unfold concordance. apply Forall_flat_map, Forall_forall.
  intros line _. apply Forall_fmap, Forall_forall. intros i _.
  apply context_window_plain; [done..|apply split_tokens].
Qed.

(** X21.  When standard output is a terminal, or the text holds no escape
    character, the [concordance] command prints one line for each
    occurrence of the word, in text order, and an empty line at the end;
    for a word that the text does not hold it prints that empty line only
    and does not fail.  A line is the string in front of the word, a tab
    and the string behind it; since neither string holds a tab or a
    newline, cutting the output at the newlines and each line at its tab
    gives back the pairs that the method returned. *)
Theorem concordance_command_output (sys : system) (terminal : bool)
    (file word : str) (ns : Z) (clean_pg : bool) (text : str) :
  open_input sys file clean_pg = inr text →
  terminal = true ∨ ESC ∉ text →
  ∃ out,
    cli.concordance sys terminal file word ns clean_pg = inr out
    ∧ length (nonblank_lines out) = occurrences word (split text)
    ∧ mapM fields (nonblank_lines out) = Some (concordance text word ns)
    ∧ (word ∉ split text ↔ out = [LF]).
Proof.
  intros Hopen Hout. unfold cli.concordance. rewrite Hopen. cbn [and_then].
  eexists. split; [done|].
  pose proof (concordance_plain TAB text word ns eq_refl ltac:(done))
    as HTAB.
  pose proof (concordance_plain LF text word ns eq_refl ltac:(done))
    as HLF.
  assert ((λ words : str * str, words.1 ++ [TAB] ++ words.2 ++ [LF])
            <$> concordance text word ns
          = (λ line, line ++ [LF])
              <$> ((λ words : str * str, words.1 ++ [TAB] ++ words.2)
                     <$> concordance text word ns)) as ->.
  { rewrite <-list_fmap_compose. apply list_fmap_ext. intros _ words _.
    unfold compose. by rewrite <-!app_assoc. }
  rewrite echo_plain; [rewrite nonblank_lines_concat|].
  - split_and!.
    + by rewrite length_fmap, length_concordance.
    + apply mapM_fmap_Forall_Some, Forall_forall. intros [x y] Hin.
      eapply Forall_forall in HTAB; [|done]. destruct HTAB.
      by apply fields_tab.
    + rewrite <-concordance_nil. split; [by intros ->|].
      destruct (concordance text word ns) as [|[x y] rows]; [done|].
      intros Hlen. apply (f_equal length) in Hlen.
      rewrite fmap_cons, fmap_cons, concat_cons in Hlen.
      rewrite !length_app in Hlen. simpl in Hlen. lia.
  - apply Forall_fmap, Forall_forall. intros [x y] Hin.
    eapply Forall_forall in HLF; [|done]. destruct HLF as [Hx Hy].
    cbn [fst snd] in *. split.
    + rewrite !not_elem_of_app. split_and!; [done| |done].
      cbn [app] in *. by intros ?%list_elem_of_singleton.
    + by destruct x.
  - destruct Hout as [->|HESC]; [by left|right].
    apply snoc_lines_plain; [done|]. apply Forall_fmap.
    eapply Forall_impl;
      [exact (concordance_chars ESC text word ns HESC ltac:(done))|].
    intros [x y] [Hx Hy]. unfold compose. cbn [fst snd] in *.
    rewrite !not_elem_of_app. split_and!; [done| |done].
    by intros ?%list_elem_of_singleton.
Qed.

Lemma concordance_command_output_witness :
  ∃ out,
    cli.concordance (System (lit "Project Gutenberg" ++ [LF] ++ lit "a b a")
                            ∅)
                    false (lit "-") (lit "a") 1 false
    = inr out
    ∧ mapM fields (nonblank_lines out)
      = Some (concordance (lit "Project Gutenberg" ++ [LF] ++ lit "a b a")
                          (lit "a") 1).
Proof.
  destruct (concordance_command_output
              (System (lit "Project Gutenberg" ++ [LF] ++ lit "a b a") ∅)
              false (lit "-") (lit "a") 1 false
              (lit "Project Gutenberg" ++ [LF] ++ lit "a b a") eq_refl
              ltac:(right; apply (bool_decide_unpack _); by vm_compute))
    as (out & Hout & _ & Hparse & _).
  by exists out.
Defined.

(** ** The display command *)

Lemma replace_from_skip old new count k s :
  replace_from old new count k s = replace_from old new count 0 (drop k s).
Proof.
  revert k. induction s as [|a s IH]; intros k; [by destruct k|].
  destruct k as [|k]; [done|]. cbn [replace_from]. by rewrite IH.
Qed.

Lemma replace_sub_zero old new s : replace_sub old new 0 s = s.
Proof.
  unfold replace_sub. induction s as [|a s IH]; [done|].
  cbn [replace_from Z.eqb negb andb]. by rewrite IH.
Qed.

Lemma startswith_prefix p s : startswith (p ++ s) p = true.
Proof.
  induction p as [|b p IH]; [by destruct s|]. simpl.
  by rewrite decide_True.
Qed.

Lemma replace_sub_match old new count s :
  old ≠ [] → count ≠ 0 →
  replace_sub old new count (old ++ s)
  = new ++ replace_sub old new (count - 1) s.
Proof.
  intros Hold Hcount. unfold replace_sub.
  destruct old as [|b old]; [done|].
  pose proof (startswith_prefix (b :: old) s) as Hstart.
  cbn [app replace_from]. cbn [app] in Hstart. rewrite Hstart.
  apply Z.eqb_neq in Hcount. rewrite Hcount. cbn [negb andb].
  rewrite replace_from_skip. do 2 f_equal.
  replace (length (b :: old) - 1)%nat with (length old) by (simpl; lia).
  apply drop_app_length.
Qed.

Lemma replace_sub_pass old new count a s :
  startswith (a :: s) old = false →
  replace_sub old new count (a :: s) = a :: replace_sub old new count s.
Proof.
  intros Hno. unfold replace_sub. cbn [replace_from].
  by rewrite Hno, andb_false_r.
Qed.

Lemma replace_sub_free c old new count pre s :
  c ∉ pre →
  replace_sub (c :: old) new count (pre ++ s)
  = pre ++ replace_sub (c :: old) new count s.
Proof.
  induction pre as [|a pre IH]; [done|].
  intros [Ha Hpre]%not_elem_of_cons. cbn [app].
  rewrite replace_sub_pass.
  - by rewrite IH.
  - simpl. by rewrite decide_False by done.
Qed.

Lemma replace_sub_other c old new count rest s :
  c ∉ rest →
  (∀ u, startswith (c :: rest ++ u) (c :: old) = false) →
  replace_sub (c :: old) new count ((c :: rest) ++ s)
  = (c :: rest) ++ replace_sub (c :: old) new count s.
Proof.
  intros Hrest Hno. cbn [app]. rewrite replace_sub_pass by apply Hno.
  by rewrite replace_sub_free.
Qed.

Lemma replace_sub_join {A} c old new (f g : A → str) (k : Z) (es : list A) :
  c ≠ LF → 0 ≤ k →
  Forall (λ e, ∀ count s,
            count < 0 ∨ k = 0 →
            replace_sub (c :: old) new count (f e ++ s)
            = g e ++ replace_sub (c :: old) new (count - k) s) es →
  ∀ count s,
    count < 0 ∨ k = 0 →
    replace_sub (c :: old) new count (join [LF] (f <$> es) ++ s)
    = join [LF] (g <$> es)
      ++ replace_sub (c :: old) new (count - k * len es) s.
Proof.
  intros Hc Hk. induction 1 as [|e es He Hes IH]; intros count s Hcount.
  - replace (count - k * len []) with count by (unfold len; simpl; lia).
    done.
  - destruct es as [|e' es].
    + replace (count - k * len [e]) with (count - k)
        by (unfold len; simpl; lia).
      cbn [fmap list_fmap join]. by rewrite He.
    + replace (count - k * len (e :: e' :: es))
        with (count - k - k * len (e' :: es))
        by (unfold len;
            change (length (e :: e' :: es)) with (S (length (e' :: es)));
            rewrite Nat2Z.inj_succ, Z.mul_succ_r; lia).
      rewrite !(fmap_cons _ e), !join_cons by done.
      rewrite <-!app_assoc, He by done.
      rewrite (replace_sub_free c old new _ [LF])
        by by intros ?%list_elem_of_singleton.
      by rewrite IH by lia.
Qed.

Lemma display_row_keeps_pre word space e new count s :
  "<"%char ∉ word → "<"%char ∉ e.1 → "<"%char ∉ e.2 →
  replace_sub (lit "</pre>") new count (display_row word space e ++ s)
  = display_row word space e ++ replace_sub (lit "</pre>") new count s.
Proof.
  intros Hw H1 H2. unfold display_row. rewrite <-!app_assoc.
  change (lit "</pre>") with ("<"%char :: lit "/pre>").
  rewrite replace_sub_free by by apply repeat_char_not_elem.
  rewrite replace_sub_free by done.
  rewrite replace_sub_free by by intros ?%list_elem_of_singleton.
  change (lit "<b>") with ("<"%char :: lit "b>").
  rewrite replace_sub_other; [|apply (bool_decide_unpack _); by vm_compute
                              |by intros u; vm_compute].
  rewrite replace_sub_free by done.
  change (lit "</b>") with ("<"%char :: lit "/b>").
  rewrite replace_sub_other; [|apply (bool_decide_unpack _); by vm_compute
                              |by intros u; vm_compute].
  rewrite replace_sub_free by by intros ?%list_elem_of_singleton.
  by rewrite replace_sub_free by done.
Qed.

Lemma display_row_open word space e count s :
  "<"%char ∉ word → "<"%char ∉ e.1 → "<"%char ∉ e.2 → count < 0 →
  replace_sub (lit "<b>") (lit "**") count (display_row word space e ++ s)
  = (repeat_char SP (space - len e.1) ++ e.1
     ++ [SP] ++ lit "**" ++ word ++ lit "</b>" ++ [SP] ++ e.2)
    ++ replace_sub (lit "<b>") (lit "**") (count - 1) s.
Proof.
  intros Hw H1 H2 Hcount. unfold display_row. rewrite <-!app_assoc.
  rewrite (replace_sub_free "<"%char (lit "b>"))
    by by apply repeat_char_not_elem.
  rewrite (replace_sub_free "<"%char (lit "b>")) by done.
  rewrite (replace_sub_free "<"%char (lit "b>") _ _ [SP])
    by by intros ?%list_elem_of_singleton.
  rewrite replace_sub_match by (done || lia).
  rewrite (replace_sub_free "<"%char (lit "b>")) by done.
  rewrite (replace_sub_other "<"%char (lit "b>") _ _ (lit "/b>"));
    [|apply (bool_decide_unpack _); by vm_compute|by intros u; vm_compute].
  rewrite (replace_sub_free "<"%char (lit "b>") _ _ [SP])
    by by intros ?%list_elem_of_singleton.
  by rewrite (replace_sub_free "<"%char (lit "b>")) by done.
Qed.

Lemma display_row_close word space e count s :
  "<"%char ∉ word → "<"%char ∉ e.1 → "<"%char ∉ e.2 → count < 0 →
  replace_sub (lit "</b>") (lit "**") count
    ((repeat_char SP (space - len e.1) ++ e.1
      ++ [SP] ++ lit "**" ++ word ++ lit "</b>" ++ [SP] ++ e.2) ++ s)
  = starred_row word space e
    ++ replace_sub (lit "</b>") (lit "**") (count - 1) s.
Proof.
  intros Hw H1 H2 Hcount. unfold starred_row. rewrite <-!app_assoc.
  rewrite (replace_sub_free "<"%char (lit "/b>"))
    by by apply repeat_char_not_elem.
  rewrite (replace_sub_free "<"%char (lit "/b>")) by done.
  rewrite (replace_sub_free "<"%char (lit "/b>") _ _ [SP])
    by by intros ?%list_elem_of_singleton.
  rewrite (replace_sub_free "<"%char (lit "/b>") _ _ (lit "**"))
    by (apply (bool_decide_unpack _); by vm_compute).
  rewrite (replace_sub_free "<"%char (lit "/b>")) by done.
  rewrite replace_sub_match by (done || lia).
  rewrite (replace_sub_free "<"%char (lit "/b>") _ _ [SP])
    by by intros ?%list_elem_of_singleton.
  by rewrite (replace_sub_free "<"%char (lit "/b>")) by done.
Qed.

Lemma replace_sub_join_all {A} c old new (f g : A → str) (k : Z)
    (es : list A) count :
  c ≠ LF → 0 ≤ k → count < 0 ∨ k = 0 →
  Forall (λ e, ∀ count s,
            count < 0 ∨ k = 0 →
            replace_sub (c :: old) new count (f e ++ s)
            = g e ++ replace_sub (c :: old) new (count - k) s) es →
  replace_sub (c :: old) new count (join [LF] (f <$> es))
  = join [LF] (g <$> es).
Proof.
  intros Hc Hk Hcount Hes.
  pose proof (replace_sub_join c old new f g k es Hc Hk Hes count [] Hcount)
    as Hjoin.
  rewrite app_nil_r in Hjoin. rewrite Hjoin. apply app_nil_r.
Qed.

Lemma replace_sub_join_last {A} c old new (f : A → str) (es : list A) :
  c ≠ LF →
  Forall (λ e, ∀ count s,
            replace_sub (c :: old) new count (f e ++ s)
            = f e ++ replace_sub (c :: old) new count s) es →
  replace_sub (c :: old) new 1 (join [LF] (f <$> es) ++ c :: old)
  = join [LF] (f <$> es) ++ new.
Proof.
  intros Hc Hes.
  rewrite (replace_sub_join c old new f f 0 es Hc); [|done| |by right].
  - rewrite Z.mul_0_l, Z.sub_0_r.
    rewrite <-(app_nil_r (c :: old)) at 2.
    rewrite replace_sub_match by done. by rewrite replace_sub_zero, app_nil_r.
  - eapply Forall_impl; [exact Hes|]. intros e He count s _.
    by rewrite Z.sub_0_r.
Qed.

Lemma starred_row_not_elem c word space e :
  c ∉ word → c ∉ e.1 → c ∉ e.2 → c ≠ SP → c ≠ "*"%char →
  c ∉ starred_row word space e.
Proof.
  intros Hw H1 H2 Hsp Hstar. unfold starred_row.
  rewrite !not_elem_of_app.
  split_and!; try done; try (by intros ?%list_elem_of_singleton).
  - by apply repeat_char_not_elem.
  - by intros [?|[?|?%elem_of_nil]%elem_of_cons]%elem_of_cons.
  - by intros [?|[?|?%elem_of_nil]%elem_of_cons]%elem_of_cons.
Qed.

Lemma display_rows_starred word space (rows : list (str * str)) :
  "<"%char ∉ word →
  Forall (λ e, ("<"%char ∉ e.1) ∧ "<"%char ∉ e.2) rows →
  replace_sub (lit "</b>") (lit "**") (-1)
    (replace_sub (lit "<b>") (lit "**") (-1)
       (replace_sub (lit "</pre>") [] 1
          (replace_sub (lit "<pre>") [] 1
             (lit "<pre>" ++ join [LF] (display_row word space <$> rows)
              ++ lit "</pre>"))))
  = join [LF] (starred_row word space <$> rows).
Proof.
  intros Hword Hrows.
  rewrite replace_sub_match by done. cbn [app].
  change (1 - 1) with 0. rewrite replace_sub_zero.
  rewrite (replace_sub_join_last "<"%char (lit "/pre>")).
  - rewrite app_nil_r.
    rewrite (replace_sub_join_all "<"%char (lit "b>") (lit "**")
               (display_row word space)
               (λ e, repeat_char SP (space - len e.1) ++ e.1
                     ++ [SP] ++ lit "**" ++ word ++ lit "</b>"
                     ++ [SP] ++ e.2) 1);
      [|done|lia|by left|].
    + apply (replace_sub_join_all "<"%char (lit "/b>") (lit "**") _
               (starred_row word space) 1); [done|lia|by left|].
      eapply Forall_impl; [exact Hrows|].
      intros element [H1 H2] count s [Hcount|?]; [|done].
      by apply display_row_close.
    + eapply Forall_impl; [exact Hrows|].
      intros element [H1 H2] count s [Hcount|?]; [|done].
      by apply display_row_open.
  - done.
  - eapply Forall_impl; [exact Hrows|].
    intros element [H1 H2] count s. by apply display_row_keeps_pre.
Qed.

(** X22.  The [display_concordance] command catches nothing: for a word
    that the text does not hold, the [IndexError] of the method leaves the
    command.  For a word of a text without the character [<], when standard
    output is a terminal or the text holds no escape character, the command
    prints the rows of the method without the markers [<pre>] and [</pre>]
    and with [**] in place of [<b>] and of [</b>]: each row is the string
    in front of the word, padded on the left to the common width, the word
    between two pairs of stars, and the string behind it. *)
Theorem display_command_output (sys : system) (terminal : bool)
    (file word : str) (ns : Z) (clean_pg : bool) (text : str) :
  open_input sys file clean_pg = inr text →
  (word ∉ split text →
   cli.display_concordance sys terminal file word ns clean_pg
   = inl (Uncaught IndexError))
  ∧ (word ∈ split text → "<"%char ∉ text →
     terminal = true ∨ ESC ∉ text →
     ∃ space,
       cli.display_concordance sys terminal file word ns clean_pg
       = inr (join [LF] (starred_row word space
                           <$> concordance text word ns) ++ [LF])
       ∧ Forall (λ element, len element.1 ≤ space)
                (concordance text word ns)).
Proof.
  intros Hopen. unfold cli.display_concordance. rewrite Hopen.
  cbn [and_then]. split.
  - intros Hno. apply (concordance_nil text word ns) in Hno.
    by rewrite display_concordance_empty.
  - intros Hin Hlt Hout.
    pose proof (concordance_chars "<"%char text word ns Hlt ltac:(done))
      as Hrows.
    assert (∀ c, c ∉ text → c ∉ word) as Hword.
    { intros c Htext%not_elem_Forall. apply split_Forall in Htext.
      eapply Forall_forall in Htext; [|done]. by apply not_elem_Forall. }
    assert (terminal = true
            ∨ Forall (λ e, (ESC ∉ e.1) ∧ ESC ∉ e.2)
                     (concordance text word ns)) as Hplain.
    { destruct Hout as [->|HESC]; [by left|right].
      by apply concordance_chars. }
    destruct (concordance text word ns) as [|e es] eqn:Hc.
    { by apply concordance_nil in Hc. }
    exists (foldl Z.max (len e.1) (len <$> es.*1)).
    rewrite (display_concordance_rows _ _ _ _ _ Hc).
    destruct (foldl_max_spec (len e.1) (len <$> es.*1)) as [Hall _].
    set (space := foldl Z.max (len e.1) (len <$> es.*1)) in *.
    split.
    + cbn [uncaught ret and_then].
      rewrite display_rows_starred by (done || by apply Hword).
      rewrite echo_plain; [done|].
      destruct Hplain as [->|Hplain]; [by left|].
      destruct Hout as [->|HESC]; [by left|right].
      apply join_not_elem; [by intros ?%list_elem_of_singleton|].
      apply Forall_fmap. eapply Forall_impl; [exact Hplain|].
      intros element [H1 H2]. unfold compose.
      apply starred_row_not_elem; [by apply Hword|done..].
    + apply Forall_forall. intros element Hel.
      eapply (proj1 (Forall_forall _ _) Hall).
      apply elem_of_cons in Hel as [->|Hel]; [by left|right].
      by apply list_elem_of_fmap_2, list_elem_of_fmap_2.
Qed.

Lemma display_command_output_witness :
  ∃ space,
    cli.display_concordance
      (System (lit "Project Gutenberg" ++ [LF] ++ lit "a b a") ∅)
      false (lit "-") (lit "a") 1 false
    = inr (join [LF]
             (starred_row (lit "a") space
                <$> concordance (lit "Project Gutenberg" ++ [LF]
                                 ++ lit "a b a") (lit "a") 1)
           ++ [LF]).
Proof.
  destruct (proj2 (display_command_output
              (System (lit "Project Gutenberg" ++ [LF] ++ lit "a b a") ∅)
              false (lit "-") (lit "a") 1 false
              (lit "Project Gutenberg" ++ [LF] ++ lit "a b a") eq_refl)
              ltac:(apply (bool_decide_unpack _); by vm_compute)
              ltac:(apply (bool_decide_unpack _); by vm_compute)
              ltac:(right; apply (bool_decide_unpack _); by vm_compute))
    as (space & Hout & _).
  by exists space.
Defined.

(** ** Standard input and files *)

Lemma universal_newlines_absent s : CR ∉ s → universal_newlines s = s.
Proof.
  induction s as [|a s IH]; [done|].
  intros [Ha Hs]%not_elem_of_cons. cbn [universal_newlines].
  rewrite decide_False by done. by rewrite IH.
Qed.

Lemma split_universal_newlines s :
  split (universal_newlines s) = split s
  ∧ isspace <$> hd_error (universal_newlines s) = isspace <$> hd_error s.
Proof.
  induction s as [s IH] using (induction_ltof1 _ (@length _)).
  unfold ltof in IH.
  assert (∀ c r, isspace c = true → split (c :: r) = split r) as Hspace.
  { intros c r Hc. cbn [split]. by rewrite Hc. }
  destruct s as [|a s]; [done|].
  cbn [universal_newlines]. destruct (decide (a = CR)) as [->|Ha].
  - split; [|done]. rewrite !Hspace by done.
    destruct s as [|b s]; [done|]. case_decide as Hb.
    + subst b. rewrite Hspace by done. apply IH. simpl. lia.
    + apply IH. simpl. lia.
  - destruct (IH s ltac:(simpl; lia)) as [Hsplit Hhead].
    split; [|done]. cbn [split]. destruct (isspace a); [done|].
    rewrite Hsplit.
    destruct (universal_newlines s) as [|b u], s as [|b' s']; try done.
    injection Hhead as Hhead. by rewrite Hhead.
Qed.

Lemma ngrams_command_one sys terminal file clean_pg :
  cli.ngrams sys terminal file 1 clean_pg
  = cli.word_count sys terminal file clean_pg.
Proof.
  unfold cli.ngrams, cli.word_count.
  destruct (open_input sys file clean_pg) as [e|text]; [done|].
  cbn [and_then]. unfold ngrams_ranked. by rewrite word_count_ngrams.
Qed.

(** X23.  The same characters given once on standard input, where they are
    accepted, and once in a file.  Without cleaning, the [word_count]
    command and the [ngrams] command for [n = 1] print the same for both,
    whatever carriage returns the text holds: a file reads them as
    newlines, the stream reads them as spaces behind the first line and
    keeps them in it, and the tokens are the same.  A text without any
    carriage return is loaded as the same text from both, so that each of
    the six commands ends in the same way, with or without cleaning. *)
Theorem stdin_same_as_file (sys : system) (terminal : bool) (path : str) :
  path ≠ lit "-" →
  files sys !! path = Some (File (stdin sys)) →
  contains (hd [] (split_on LF (stdin sys))) (lit "Project Gutenberg") = true →
  cli.word_count sys terminal (lit "-") false
  = cli.word_count sys terminal path false
  ∧ cli.ngrams sys terminal (lit "-") 1 false
    = cli.ngrams sys terminal path 1 false
  ∧ (CR ∉ stdin sys →
     ∀ clean_pg,
       open_input sys (lit "-") clean_pg = open_input sys path clean_pg
       ∧ (∀ n, cli.ngrams sys terminal (lit "-") n clean_pg
               = cli.ngrams sys terminal path n clean_pg)
       ∧ cli.word_count sys terminal (lit "-") clean_pg
         = cli.word_count sys terminal path clean_pg
       ∧ (∀ word ns,
            cli.concordance sys terminal (lit "-") word ns clean_pg
            = cli.concordance sys terminal path word ns clean_pg)
       ∧ (∀ word ns,
            cli.display_concordance sys terminal (lit "-") word ns clean_pg
            = cli.display_concordance sys terminal path word ns clean_pg)
       ∧ (∀ word n,
            cli.likely_next sys terminal (lit "-") word n clean_pg
            = cli.likely_next sys terminal path word n clean_pg)
       ∧ (∀ word n,
            cli.likely_previous sys terminal (lit "-") word n clean_pg
            = cli.likely_previous sys terminal path word n clean_pg)).
Proof.
  intros Hpath Hfile Hyes.
  assert (∀ clean_pg,
            open_input sys path clean_pg
            = inr (PGalyzer (universal_newlines (stdin sys)) clean_pg))
    as Hopen.
  { intros clean_pg. unfold open_input. rewrite decide_False by done.
    by rewrite Hfile. }
  assert (cli.word_count sys terminal (lit "-") false
          = cli.word_count sys terminal path false) as Hwc.
  { destruct (open_input_accepted sys false Hyes)
      as (line & rest & Hs & Hstdin).
    unfold cli.word_count. rewrite Hstdin, Hopen. cbn [and_then PGalyzer].
    assert (word_count (stream_contents line rest)
            = word_count (universal_newlines (stdin sys))) as ->; [|done].
    unfold word_count. f_equal.
    rewrite (proj1 (split_universal_newlines _)), Hs, !split_tokenize.
    f_equal. apply tokenize_same_kind, stream_contents_same_kind. }
  split_and!.
  - done.
  - by rewrite !ngrams_command_one.
  - intros HCR clean_pg.
    assert (open_input sys (lit "-") clean_pg = open_input sys path clean_pg)
      as Hsame.
    { destruct (open_input_accepted sys clean_pg Hyes)
        as (line & rest & Hs & Hstdin).
      rewrite Hstdin, Hopen, universal_newlines_absent, Hs by done.
      unfold stream_contents. rewrite replace_absent; [done|].
      rewrite Hs in HCR. intros Hin. apply HCR, elem_of_app. by right. }
    unfold cli.ngrams, cli.word_count, cli.concordance,
      cli.display_concordance, cli.likely_next, cli.likely_previous.
    by rewrite Hsame.
Qed.

Lemma stdin_same_as_file_witness :
  cli.word_count
    (System (lit "Project Gutenberg" ++ [LF] ++ lit "a" ++ [CR] ++ lit "b a")
            {[ lit "f" := File (lit "Project Gutenberg" ++ [LF] ++ lit "a"
                                ++ [CR] ++ lit "b a") ]})
    false (lit "-") false
  = cli.word_count
      (System (lit "Project Gutenberg" ++ [LF] ++ lit "a" ++ [CR]
               ++ lit "b a")
              {[ lit "f" := File (lit "Project Gutenberg" ++ [LF] ++ lit "a"
                                  ++ [CR] ++ lit "b a") ]})
      false (lit "f") false.
Proof.
  apply (proj1 (stdin_same_as_file
           (System (lit "Project Gutenberg" ++ [LF] ++ lit "a" ++ [CR]
                    ++ lit "b a")
                   {[ lit "f" := File (lit "Project Gutenberg" ++ [LF]
                                       ++ lit "a" ++ [CR] ++ lit "b a") ]})
           false (lit "f") ltac:(done) ltac:(by vm_compute)
           ltac:(by vm_compute))).
Defined.
